(** * nodeflow: the graph execution engine

    A shallow embedding of the engine under [src/engine]:
    [TopologicalSort.ts], [ExecutionContext.ts], [GraphValidator.ts],
    [GraphExecutor.ts] and [ExecutionEngine.ts].

    JavaScript [Map]s that the code only reads by key are finite maps
    ([gmap]); a [Map] that the code iterates is an association list kept in
    insertion order ([JsMap]); a [Set] is a [gset].  Strings and optional
    strings stand for JS strings and [string | null | undefined]; a value is
    truthy when it is present and not the empty string. *)

From stdpp Require Import gmap strings list sorting pretty.
From Stdlib Require Import ZArith Lia.

Open Scope string_scope.
Open Scope list_scope.
Open Scope Z_scope.

(** ** Data model: nodes and edges (reactflow's [Node] and [Edge]) *)

Record Port := mkPort { name : string }.

(** The part of [node.data] that the engine itself looks at: the declared
    ports.  Everything else in [data] is read by handlers only. *)
Record NodeData := mkNodeData {
  outputs : option (list Port);
  inputs : option (list Port)
}.

Record Node := mkNode {
  id : string;
  type : option string;
  data : option NodeData
}.

Record Edge := mkEdge {
  edgeId : string;
  source : string;
  target : string;
  sourceHandle : option string;
  targetHandle : option string
}.

(** A JS [Error] object. *)
Record Error := mkError { errorMessage : string }.

#[global] Instance Port_eq_dec : EqDecision Port.
Proof. solve_decision. Defined.
#[global] Instance NodeData_eq_dec : EqDecision NodeData.
Proof. solve_decision. Defined.
#[global] Instance Node_eq_dec : EqDecision Node.
Proof. solve_decision. Defined.
#[global] Instance Edge_eq_dec : EqDecision Edge.
Proof. solve_decision. Defined.
#[global] Instance Error_eq_dec : EqDecision Error.
Proof. solve_decision. Defined.

(** JS truthiness of a string and of an optional string. *)
Definition truthy (s : string) : bool := bool_decide (s ≠ EmptyString).

Definition truthyOpt (s : option string) : bool :=
  match s with
  | Some s => truthy s
  | None => false
  end.

(** [a || b] where [a] is an optional string and [b] a string. *)
Definition orElse (a : option string) (b : string) : string :=
  match a with
  | Some s => if truthy s then s else b
  | None => b
  end.

(** [nodes.find(n => n.id === nodeId)] *)
Definition findNode (nodes : list Node) (nodeId : string) : option Node :=
  List.find (λ n, bool_decide (id n = nodeId)) nodes.

(** The one-character string made of a double quote. *)
Definition quote : string := String (Ascii.ascii_of_nat 34) EmptyString.

(** [Array.prototype.join] on strings *)
Fixpoint join (sep : string) (l : list string) : string :=
  match l with
  | [] => EmptyString
  | [s] => s
  | s :: l' => s +:+ sep +:+ join sep l'
  end.

(** ** [Map] in insertion order *)

Module JsMap.
Abbreviation t V := (list (string * V)) (only parsing).

Section JsMap.
Context {V : Type}.

Fixpoint get (m : t V) (k : string) : option V :=
  match m with
  | [] => None
  | (k', v) :: m' => if decide (k' = k) then Some v else get m' k
  end.

(** [set] keeps the position of a key that is already there and appends a
    new key at the end. *)
Fixpoint set (m : t V) (k : string) (v : V) : t V :=
  match m with
  | [] => [(k, v)]
  | (k', v') :: m' =>
      if decide (k' = k) then (k, v) :: m' else (k', v') :: set m' k v
  end.

Definition keys (m : t V) : list string := m.*1.
End JsMap.
End JsMap.

(** ** ExecutionContext.ts *)

Module ExecutionContext.
Section ExecutionContext.
Context {Value : Type}.

Record NodeOutput := mkNodeOutput {
  nodeId : string;
  data : Value;
  timestamp : Z;
  error : option Error
}.

Record ExecutionProgress := mkProgress {
  currentNodeId : string;
  completed : list string;
  failed : list string;
  remaining : list string;
  totalNodes : nat
}.

(** The fields of the class.  [nodes] and [executionOrder] are the
    constructor's private parameters. *)
Record t := mk {
  outputs : gmap string NodeOutput;
  progress : ExecutionProgress;
  aborted : bool;
  nodes : list Node;
  executionOrder : list string
}.

Definition initialProgress (nodes : list Node) (executionOrder : list string)
    : ExecutionProgress :=
  {| currentNodeId := EmptyString;
     completed := [];
     failed := [];
     remaining := executionOrder;
     totalNodes := length nodes |}.

(** [new ExecutionContext(nodes, executionOrder)] *)
Definition new (nodes : list Node) (executionOrder : list string) : t :=
  {| outputs := ∅;
     progress := initialProgress nodes executionOrder;
     aborted := false;
     nodes := nodes;
     executionOrder := executionOrder |}.

Definition getNodeOutput (ctx : t) (nodeId : string) : option NodeOutput :=
  outputs ctx !! nodeId.

(** [Array.prototype.indexOf]: the first index, or [-1]. *)
Fixpoint indexOf (l : list string) (x : string) : Z :=
  match l with
  | [] => -1
  | y :: l' =>
      if decide (y = x) then 0
      else let i := indexOf l' x in if decide (i = -1) then -1 else i + 1
  end.

(** [setNodeOutput(nodeId, data, error?)]; [now] is what [Date.now()]
    returns at the call. *)
Definition setNodeOutput (now : Z) (ctx : t) (nodeId : string) (data : Value)
    (error : option Error) : t :=
  let outputs' :=
    <[nodeId := {| nodeId := nodeId; data := data; timestamp := now;
                   error := error |}]> (outputs ctx) in
  let p := progress ctx in
  let failed' :=
    match error with Some _ => failed p ++ [nodeId] | None => failed p end in
  let completed' :=
    match error with
    | Some _ => completed p
    | None => completed p ++ [nodeId]
    end in
  let index := indexOf (remaining p) nodeId in
  let remaining' :=
    if decide (index > -1) then delete (Z.to_nat index) (remaining p)
    else remaining p in
  {| outputs := outputs';
     progress := {| currentNodeId := currentNodeId p;
                    completed := completed';
                    failed := failed';
                    remaining := remaining';
                    totalNodes := totalNodes p |};
     aborted := aborted ctx;
     nodes := nodes ctx;
     executionOrder := executionOrder ctx |}.

(** [edge.targetHandle || edge.sourceHandle || edge.source] *)
Definition inputKey (edge : Edge) : string :=
  orElse (targetHandle edge) (orElse (sourceHandle edge) (source edge)).

(** The body of [incomingEdges.forEach] in [getNodeInputs]. *)
Definition addInput (ctx : t) (inputs : gmap string Value) (edge : Edge)
    : gmap string Value :=
  match outputs ctx !! source edge with
  | Some sourceOutput =>
      match error sourceOutput with
      | None => <[inputKey edge := data sourceOutput]> inputs
      | Some _ => inputs
      end
  | None => inputs
  end.

Definition getNodeInputs (ctx : t) (nodeId : string) (edges : list Edge)
    : gmap string Value :=
  let incomingEdges := filter (λ e, target e = nodeId) edges in
  foldl (addInput ctx) ∅ incomingEdges.

Definition setCurrentNode (ctx : t) (nodeId : string) : t :=
  let p := progress ctx in
  {| outputs := outputs ctx;
     progress := {| currentNodeId := nodeId;
                    completed := completed p;
                    failed := failed p;
                    remaining := remaining p;
                    totalNodes := totalNodes p |};
     aborted := aborted ctx;
     nodes := nodes ctx;
     executionOrder := executionOrder ctx |}.

(** [{ ...this.progress }]: a copy of the record; its three lists are the
    context's own arrays. *)
Definition getProgress (ctx : t) : ExecutionProgress := progress ctx.

Definition abort (ctx : t) : t :=
  {| outputs := outputs ctx;
     progress := progress ctx;
     aborted := true;
     nodes := nodes ctx;
     executionOrder := executionOrder ctx |}.

Definition isAborted (ctx : t) : bool := aborted ctx.

Definition getAllOutputs (ctx : t) : gmap string NodeOutput := outputs ctx.

Definition clear (ctx : t) : t :=
  {| outputs := ∅;
     progress := initialProgress (nodes ctx) (executionOrder ctx);
     aborted := false;
     nodes := nodes ctx;
     executionOrder := executionOrder ctx |}.

(** One [setNodeOutput] call as data, and a sequence of calls. *)
Record Call := mkCall {
  callNow : Z;
  callNodeId : string;
  callData : Value;
  callError : option Error
}.

Definition applyCall (ctx : t) (c : Call) : t :=
  setNodeOutput (callNow c) ctx (callNodeId c) (callData c) (callError c).

Definition applyCalls (ctx : t) (calls : list Call) : t :=
  foldl applyCall ctx calls.
End ExecutionContext.
Arguments NodeOutput : clear implicits.
Arguments ExecutionProgress : clear implicits.
Arguments t : clear implicits.
Arguments Call : clear implicits.
End ExecutionContext.

(** ** TopologicalSort.ts *)

Module TopologicalSort.

Record SortedNode := mkSortedNode { node : Node; level : nat }.

(** An entry [{ id, level }] of the queue. *)
Record QueueItem := mkQueueItem { itemId : string; itemLevel : nat }.

(** The three maps of [sort]: [nodeMap] and [adjacencyList] are read by key
    only, [inDegree] is also iterated. *)
Record Maps := mkMaps {
  nodeMap : gmap string Node;
  adjacencyList : gmap string (list string);
  inDegree : JsMap.t Z
}.

(** The body of [nodes.forEach]. *)
Definition initNode (m : Maps) (node : Node) : Maps :=
  {| nodeMap := <[id node := node]> (nodeMap m);
     adjacencyList := <[id node := []]> (adjacencyList m);
     inDegree := JsMap.set (inDegree m) (id node) 0 |}.

(** [inDegree.get(k) || 0] *)
Definition degree (inDegree : JsMap.t Z) (k : string) : Z :=
  default 0 (JsMap.get inDegree k).

(** The body of [edges.forEach]: [adjacencyList.get(sourceId)?.push(targetId)]
    does nothing when the source is not a key. *)
Definition addEdge (m : Maps) (edge : Edge) : Maps :=
  let sourceId := source edge in
  let targetId := target edge in
  {| nodeMap := nodeMap m;
     adjacencyList := alter (λ l, l ++ [targetId]) sourceId (adjacencyList m);
     inDegree := JsMap.set (inDegree m) targetId (degree (inDegree m) targetId + 1) |}.

Definition buildMaps (nodes : list Node) (edges : list Edge) : Maps :=
  foldl addEdge (foldl initNode (mkMaps ∅ ∅ []) nodes) edges.

(** [inDegree.forEach]: the keys of degree 0, in insertion order. *)
Definition initialQueue (inDegree : JsMap.t Z) : list QueueItem :=
  (λ kd, mkQueueItem kd.1 0) <$> filter (λ kd, kd.2 = 0) inDegree.

(** The body of [neighbors.forEach]. *)
Definition visitNeighbor (level : nat) (st : JsMap.t Z * list QueueItem)
    (neighborId : string) : JsMap.t Z * list QueueItem :=
  let newInDegree := degree st.1 neighborId - 1 in
  (JsMap.set st.1 neighborId newInDegree,
   if decide (newInDegree = 0)
   then st.2 ++ [mkQueueItem neighborId (level + 1)]
   else st.2).

(** [while (queue.length > 0)].  Each iteration takes one unit of fuel. *)
Fixpoint loop (fuel : nat) (m : Maps) (inDegree : JsMap.t Z)
    (queue : list QueueItem) (result : list SortedNode)
    : option (list SortedNode) :=
  match queue with
  | [] => Some result
  | current :: queue' =>
      match fuel with
      | O => None
      | S fuel' =>
          let currentId := itemId current in
          let level := itemLevel current in
          let result' :=
            match nodeMap m !! currentId with
            | Some currentNode => result ++ [mkSortedNode currentNode level]
            | None => result
            end in
          let neighbors := default [] (adjacencyList m !! currentId) in
          let st := foldl (visitNeighbor level) (inDegree, queue') neighbors in
          loop fuel' m st.1 st.2 result'
      end
  end.

(** [TopologicalSort.sort(nodes, edges)].  The fuel is the number of keys of
    [inDegree]; [sort_total] shows that it is always enough. *)
Definition sort (nodes : list Node) (edges : list Edge)
    : option (list SortedNode) :=
  let m := buildMaps nodes edges in
  loop (length (inDegree m)) m (inDegree m) (initialQueue (inDegree m)) [].

Definition getExecutionOrder (sortedNodes : list SortedNode) : list string :=
  (λ sn, id (node sn)) <$> sortedNodes.

(** The body of [sortedNodes.forEach] in [groupByLevel], on the level map
    in insertion order: a level that is not yet a key becomes the last key,
    with an empty list, and the node is pushed on the list of its level. *)
Fixpoint pushAt (levelMap : list (nat * list Node)) (level : nat) (node : Node)
    : list (nat * list Node) :=
  match levelMap with
  | [] => [(level, [node])]
  | (l, ns) :: levelMap' =>
      if decide (l = level) then (l, ns ++ [node]) :: levelMap'
      else (l, ns) :: pushAt levelMap' level node
  end.

(** [TopologicalSort.groupByLevel(sortedNodes)] *)
Definition groupByLevel (sortedNodes : list SortedNode) : list (nat * list Node) :=
  foldl (λ levelMap sn, pushAt levelMap (level sn) (node sn)) [] sortedNodes.

End TopologicalSort.

(** ** GraphValidator.ts *)

Module GraphValidator.

(** [Graph] of [@types/core], as far as the validator reads it. *)
Record Graph := mkGraph {
  graphId : option string;
  nodes : list Node;
  edges : list Edge
}.

(** The third constructor argument of each [ValidationError]. *)
Inductive Details :=
| DGraph (graphId : option string)
| DNode (node : Node)
| DNodeId (nodeId : string)
| DEdge (edge : Edge)
| DSource (edgeId sourceId : string)
| DTarget (edgeId targetId : string)
| DPort (edgeId port : string)
| DCycle (cycle : option (list string)).

Record ValidationError := mkValidationError {
  message : string;
  code : string;
  details : Details
}.

Record ValidationResult := mkValidationResult {
  valid : bool;
  errors : list ValidationError;
  warnings : list string
}.

Definition validateNodeConfig (node : Node) : list ValidationError := [].

Definition validateNode (node : Node) (graph : Graph) : list ValidationError :=
  (if truthy (id node) then []
   else [mkValidationError "Node missing ID" "NODE_MISSING_ID" (DNode node)])
  ++ (if truthyOpt (type node) then []
      else [mkValidationError "Node missing type" "NODE_MISSING_TYPE"
              (DNodeId (id node))])
  ++ (let duplicates := filter (λ n, id n = id node) (nodes graph) in
      if decide (1 < length duplicates)%nat
      then [mkValidationError "Duplicate node ID" "NODE_DUPLICATE_ID"
              (DNodeId (id node))]
      else [])
  ++ (match data node with
      | Some _ => validateNodeConfig node
      | None => []
      end).

(** [ports?.some(p => p.name === handle)]: [None] is [undefined]. *)
Definition hasPort (ports : option (list Port)) (handle : string)
    : option bool :=
  (λ ps, existsb (λ p, bool_decide (name p = handle)) ps) <$> ports.

(** [!x] for [x : boolean | undefined] *)
Definition notOpt (x : option bool) : bool := negb (default false x).

Definition validateEdge (edge : Edge) (graph : Graph) : list ValidationError :=
  let sourceNode := findNode (nodes graph) (source edge) in
  let targetNode := findNode (nodes graph) (target edge) in
  (if truthy (source edge) then []
   else [mkValidationError "Edge missing source" "EDGE_MISSING_SOURCE"
           (DEdge edge)])
  ++ (if truthy (target edge) then []
      else [mkValidationError "Edge missing target" "EDGE_MISSING_TARGET"
              (DEdge edge)])
  ++ (match sourceNode with
      | Some _ => []
      | None => [mkValidationError "Edge source node not found"
                   "EDGE_SOURCE_NOT_FOUND" (DSource (edgeId edge) (source edge))]
      end)
  ++ (match targetNode with
      | Some _ => []
      | None => [mkValidationError "Edge target node not found"
                   "EDGE_TARGET_NOT_FOUND" (DTarget (edgeId edge) (target edge))]
      end)
  ++ (match sourceHandle edge, sourceNode with
      | Some handle, Some sourceNode =>
          if truthy handle then
            let hasOutputPort := hasPort (data sourceNode ≫= outputs) handle in
            if notOpt hasOutputPort
            then [mkValidationError "Invalid source port"
                    "EDGE_INVALID_SOURCE_PORT" (DPort (edgeId edge) handle)]
            else []
          else []
      | _, _ => []
      end)
  ++ (match targetHandle edge, targetNode with
      | Some handle, Some targetNode =>
          if truthy handle then
            let hasInputPort := hasPort (data targetNode ≫= inputs) handle in
            if notOpt hasInputPort
            then [mkValidationError "Invalid target port"
                    "EDGE_INVALID_TARGET_PORT" (DPort (edgeId edge) handle)]
            else []
          else []
      | _, _ => []
      end).

(** The three variables that [dfs] closes over. *)
Record DfsState := mkDfsState {
  visited : gset string;
  recursionStack : gset string;
  path : list string
}.

(** The loop [for (const edge of outgoingEdges)] of [dfs(nodeId)] and what
    follows it; [dfs] is the recursive call. *)
Fixpoint visitEdges (dfs : string → DfsState → option (bool * DfsState))
    (nodeId : string) (out : list Edge) (st : DfsState)
    : option (bool * DfsState) :=
  match out with
  | [] =>
      Some (false,
            {| visited := visited st;
               recursionStack := recursionStack st ∖ {[nodeId]};
               path := removelast (path st) |})
  | edge :: out' =>
      let targetId := target edge in
      if decide (targetId ∉ visited st) then
        match dfs targetId st with
        | None => None
        | Some (true, st') => Some (true, st')
        | Some (false, st') => visitEdges dfs nodeId out' st'
        end
      else if decide (targetId ∈ recursionStack st) then
        Some (true,
              {| visited := visited st;
                 recursionStack := recursionStack st;
                 path := path st ++ [targetId] |})
      else visitEdges dfs nodeId out' st
  end.

(** The inner function [dfs] of [detectCycles].  The fuel bounds the depth
    of the recursion. *)
Fixpoint dfs (fuel : nat) (edges : list Edge) (nodeId : string)
    (st : DfsState) : option (bool * DfsState) :=
  match fuel with
  | O => None
  | S fuel' =>
      let st1 := {| visited := {[nodeId]} ∪ visited st;
                    recursionStack := {[nodeId]} ∪ recursionStack st;
                    path := path st ++ [nodeId] |} in
      let outgoingEdges := filter (λ e, source e = nodeId) edges in
      visitEdges (dfs fuel' edges) nodeId outgoingEdges st1
  end.

Record CycleResult := mkCycleResult {
  hasCycle : bool;
  cycle : option (list string)
}.

(** The loop [for (const node of graph.nodes)] of [detectCycles]. *)
Fixpoint checkEach (fuel : nat) (edges : list Edge) (nodes : list Node)
    (st : DfsState) : option CycleResult :=
  match nodes with
  | [] => Some (mkCycleResult false None)
  | node :: nodes' =>
      if decide (id node ∉ visited st) then
        match dfs fuel edges (id node) st with
        | None => None
        | Some (true, st') => Some (mkCycleResult true (Some (path st')))
        | Some (false, st') => checkEach fuel edges nodes' st'
        end
      else checkEach fuel edges nodes' st
  end.

(** The recursion of [dfs] is at most as deep as there are ids in the
    graph; [detectCycles_total] shows that this fuel is always enough. *)
Definition detectCycles (graph : Graph) : option CycleResult :=
  checkEach (S (length (nodes graph) + length (edges graph))) (edges graph)
    (nodes graph) (mkDfsState ∅ ∅ []).

Definition findDisconnectedNodes (graph : Graph) : list Node :=
  filter (λ node,
    let hasIncoming := existsb (λ e, bool_decide (target e = id node)) (edges graph) in
    let hasOutgoing := existsb (λ e, bool_decide (source e = id node)) (edges graph) in
    negb hasIncoming && negb hasOutgoing = true) (nodes graph).

Definition validateGraph (graph : Graph) : option ValidationResult :=
  match nodes graph with
  | [] =>
      Some (mkValidationResult false
              [mkValidationError "Graph is empty" "GRAPH_EMPTY"
                 (DGraph (graphId graph))] [])
  | _ =>
      let nodeErrors := concat ((λ node, validateNode node graph) <$> nodes graph) in
      let edgeErrors := concat ((λ edge, validateEdge edge graph) <$> edges graph) in
      cycleResult ← detectCycles graph;
      let cycleErrors :=
        if hasCycle cycleResult
        then [mkValidationError "Graph contains cycles" "GRAPH_CYCLE_DETECTED"
                (DCycle (cycle cycleResult))]
        else [] in
      let errors := nodeErrors ++ edgeErrors ++ cycleErrors in
      let disconnected := findDisconnectedNodes graph in
      let sourceNodes :=
        filter (λ n, existsb (λ e, bool_decide (target e = id n)) (edges graph) = false)
          (nodes graph) in
      let warnings :=
        (match disconnected with
         | [] => []
         | _ => ["Found " +:+ pretty (length disconnected)
                 +:+ " disconnected nodes: " +:+ join ", " (id <$> disconnected)]
         end)
        ++ (match sourceNodes with
            | [] => ["No source nodes found - graph may not execute properly"]
            | _ => []
            end) in
      Some (mkValidationResult (bool_decide (errors = [])) errors warnings)
  end.

Definition canExecute (graph : Graph) : option bool :=
  valid <$> validateGraph graph.

End GraphValidator.

(** ** GraphExecutor.ts *)

Module GraphExecutor.
Section GraphExecutor.
Context {Value : Type}.

(** What [handler.execute(node, inputs, executionContext)] does: it
    resolves to a result with a [data] field, or throws an [Error] with a
    message, or throws something else. *)
Inductive HandlerOutcome :=
| Returns (data : Value)
| ThrowsError (message : string)
| ThrowsOther.

Definition Handler := Node → gmap string Value → HandlerOutcome.

(** What a caller of the executor can observe, in order of time: the
    callbacks of [ExecutionOptions], each handler dispatch
    [await this.executeNode(node, inputs)] with its result, and the calls of
    [abort()] that the caller makes meanwhile. *)
Inductive Event :=
| OnProgress (progress : ExecutionContext.ExecutionProgress)
| OnNodeExecute (nodeId : string)
| OnNodeComplete (nodeId : string) (output : Value)
| OnNodeError (nodeId : string) (error : Error)
| OnComplete (outputs : gmap string Value)
| OnError (error : Error)
| Dispatch (nodeId : string) (result : Value + Error)
| CallAbort.

(** How the promise of [execute] settles; it is rejected with an [Error] or
    with whatever else a callback threw. *)
Inductive Outcome :=
| Resolved (outputs : gmap string Value)
| Rejected (reason : Error + Value).

(** The fields of the class. *)
Record t := mk {
  context : option (ExecutionContext.t Value);
  isExecuting : bool
}.

(** The handler registry [nodeHandlerRegistry.getHandlerForNode] and the
    object that [executeNode] builds for a node without handler. *)
Variable getHandlerForNode : Node → option Handler.
Variable fallbackResult : Node → gmap string Value → Value.

(** [executeNode(node, inputs)] *)
Definition executeNode (node : Node) (inputs : gmap string Value)
    : Value + Error :=
  match getHandlerForNode node with
  | Some handler =>
      match handler node inputs with
      | Returns data => inl data
      | ThrowsError message =>
          inr (mkError ("Handler execution failed for node type " +:+ quote
                        +:+ default "undefined" (type node) +:+ quote
                        +:+ ": " +:+ message))
      | ThrowsOther =>
          inr (mkError ("Handler execution failed for node type " +:+ quote
                        +:+ default "undefined" (type node) +:+ quote
                        +:+ ": Unknown error"))
      end
  | None => inl (fallbackResult node inputs)
  end.

(** [abort()] of the executor: [this.context?.abort()] *)
Definition abort (ex : t) : t :=
  {| context := ExecutionContext.abort <$> context ex;
     isExecuting := isExecuting ex |}.

Definition isRunning (ex : t) : bool := isExecuting ex.

(** [getContext()] *)
Definition getContext (ex : t) : option (ExecutionContext.t Value) := context ex.

(** The collaborators of a call of [execute]: the [TypeError] that the JS
    engine raises when [GraphValidator.validate] is called (its message
    depends on the engine), and the caller, whose callback may call
    [abort()] on the executor while it runs, and returns or throws. *)
Variable notAFunction : Error.
Variable abortOn : Event → bool.
Variable throwOn : Event → option (Error + Value).

(** A callback is called; the caller may answer it with [abort()]. *)
Definition notifyExecutor (ev : Event) (context : option (ExecutionContext.t Value))
    : list Event * option (ExecutionContext.t Value) :=
  if abortOn ev then ([ev; CallAbort], ExecutionContext.abort <$> context)
  else ([ev], context).

(** [execute(nodes, edges, options)]: the events, how the promise settles,
    and the executor afterwards.

    The first statement of the [try] block is
    [const validation = GraphValidator.validate(nodes, edges)].  The class
    [GraphValidator] has the static methods [validateGraph], [validateNode],
    [validateNodeConfig], [validateEdge], [detectCycles],
    [findDisconnectedNodes] and [canExecute], and no [validate]: the call
    throws a [TypeError].  So no statement after it in the [try] block
    (the test of [validation.valid], the sort, the new context, the loop
    over the nodes, [onComplete]) is ever reached.  Control goes to the outer
    [catch], which passes the error, an [Error] already, to [onError] and
    rethrows it, and then to [finally]. *)
Definition execute (nodes : list Node) (edges : list Edge) (ex : t)
    : list Event * Outcome * t :=
  if isExecuting ex then
    ([], Rejected (inl (mkError "Graph execution already in progress")), ex)
  else
    let err := notAFunction in
    let called := notifyExecutor (OnError err) (context ex) in
    (called.1,
     Rejected (default (inl err) (throwOn (OnError err))),
     {| context := called.2; isExecuting := false |}).

End GraphExecutor.
Arguments HandlerOutcome : clear implicits.
Arguments Handler : clear implicits.
Arguments Event : clear implicits.
Arguments Outcome : clear implicits.
Arguments t : clear implicits.
End GraphExecutor.

(** ** ExecutionEngine.ts: the scheduler of [executeWorkflow] *)

Module ExecutionEngine.

Record Maps := mkMaps {
  graph : gmap string (list string);
  inDegree : JsMap.t Z
}.

Definition initNode (m : Maps) (node : Node) : Maps :=
  {| graph := <[id node := []]> (graph m);
     inDegree := JsMap.set (inDegree m) (id node) 0 |}.

Definition addEdge (m : Maps) (edge : Edge) : Maps :=
  {| graph := alter (λ l, l ++ [target edge]) (source edge) (graph m);
     inDegree := JsMap.set (inDegree m) (target edge)
                   (default 0 (JsMap.get (inDegree m) (target edge)) + 1) |}.

Definition buildMaps (nodes : list Node) (edges : list Edge) : Maps :=
  foldl addEdge (foldl initNode (mkMaps ∅ []) nodes) edges.

(** [inDegree.get(neighbor) || 1] *)
Definition degreeOrOne (inDegree : JsMap.t Z) (k : string) : Z :=
  match JsMap.get inDegree k with
  | Some d => if decide (d = 0) then 1 else d
  | None => 1
  end.

Definition visitNeighbor (st : JsMap.t Z * list string) (neighbor : string)
    : JsMap.t Z * list string :=
  let newDegree := degreeOrOne st.1 neighbor - 1 in
  (JsMap.set st.1 neighbor newDegree,
   if decide (newDegree = 0) then st.2 ++ [neighbor] else st.2).

(** [while (queue.length > 0)]; [None] when the fuel runs out. *)
Fixpoint loop (fuel : nat) (graph : gmap string (list string))
    (inDegree : JsMap.t Z) (queue : list string) (order : list string)
    : option (list string) :=
  match queue with
  | [] => Some order
  | current :: queue' =>
      match fuel with
      | O => None
      | S fuel' =>
          let neighbors := default [] (graph !! current) in
          let st := foldl visitNeighbor (inDegree, queue') neighbors in
          loop fuel' graph st.1 st.2 (order ++ [current])
      end
  end.

Definition cycleError : Error := mkError "Cycle detected in workflow graph".

(** [getExecutionOrder(nodes, edges, entryNodeId?)]: the order, or the
    error thrown.  With an entry node the loop need not end, so the fuel is
    an argument. *)
Definition getExecutionOrder (fuel : nat) (nodes : list Node) (edges : list Edge)
    (entryNodeId : option string) : option (list string + Error) :=
  let m := buildMaps nodes edges in
  let queue :=
    match entryNodeId with
    | Some entry =>
        if truthy entry then [entry]
        else (filter (λ kd, kd.2 = 0) (inDegree m)).*1
    | None => (filter (λ kd, kd.2 = 0) (inDegree m)).*1
    end in
  order ← loop fuel (graph m) (inDegree m) queue [];
  if decide (length order < length nodes)%nat then Some (inr cycleError)
  else Some (inl order).

(** *** [executeWorkflow] *)

Section Workflow.
Context {Value : Type}.

(** A JS value of type [any]: [undefined], [null], or anything else. *)
Inductive Any := Undefined | Null | Defined (v : Value).

#[global] Instance Any_defined_dec (a : Any) : Decision (a ≠ Undefined).
Proof. destruct a; [right; intros H; by apply H|by left|by left]. Defined.

(** ['pending' | 'running' | 'success' | 'error'] *)
Inductive Status := Pending | Running | Success | Failure.

#[global] Instance Status_eq_dec : EqDecision Status.
Proof. solve_decision. Defined.

Record NodeResult := mkNodeResult {
  nodeId : string;
  status : Status;
  output : Any;
  error : option string;
  duration : Z
}.

(** [ExecutionError]; its [nodeId] is [errorNodeId] here. *)
Record ExecutionError := mkExecutionError {
  errorNodeId : string;
  message : string;
  stack : option string
}.

(** [ExecutionResult]; its [nodeResults] is [returnedResults] and its
    [duration] is [elapsed] here.  [returnedResults] is the engine's own
    map, as it is when the call returns. *)
Record ExecutionResult := mkExecutionResult {
  success : bool;
  returnedResults : gmap string NodeResult;
  errors : list ExecutionError;
  elapsed : Z
}.

(** A thrown value other than [null] and [undefined], as far as the engine
    reads it: [error.message] and [error.stack], either of which may be
    missing. *)
Record Thrown := mkThrown {
  thrownMessage : option string;
  thrownStack : option string
}.

(** What a handler throws, or rejects its promise with: [null],
    [undefined], or another value. *)
Inductive Rejection :=
| RejectNull
| RejectUndefined
| Throws (thrown : Thrown).

(** [handler.execute(node, inputData, context)] resolves to a value or
    throws; it does not call the engine itself. *)
Definition Handler := Node → list Any → Any + Rejection.

(** The fields of the class. *)
Record t := mk {
  handlers : gmap string Handler;
  nodeResults : gmap string NodeResult
}.

(** [registerHandler(type, handler)] *)
Definition registerHandler (eng : t) (ty : string) (handler : Handler) : t :=
  {| handlers := <[ty := handler]> (handlers eng); nodeResults := nodeResults eng |}.

(** [getInputData(nodeId, edges)] *)
Definition getInputData (results : gmap string NodeResult) (nid : string)
    (edges : list Edge) : list Any :=
  let inputEdges := filter (λ e, target e = nid) edges in
  filter (λ data, data ≠ Undefined)
    ((λ edge, match results !! source edge with
              | Some sourceResult => output sourceResult
              | None => Undefined
              end) <$> inputEdges).

(** [{ status: 'running' }] as an update of a result. *)
Definition setStatus (s : Status) (r : NodeResult) : NodeResult :=
  mkNodeResult (nodeId r) s (output r) (error r) (duration r).

(** [updateNodeResult(nodeId, update)]: [{ ...existing, ...update }], where
    [update] overwrites the fields that the caller names. *)
Definition updateNodeResult (results : gmap string NodeResult) (nid : string)
    (update : NodeResult → NodeResult) : gmap string NodeResult :=
  let existing := default (mkNodeResult nid Pending Null None 0) (results !! nid) in
  <[nid := update existing]> results.

(** The collaborators of a run: the clock ([now k] is what the [k]-th
    reading of [Date.now()] returns), the string under [type] in a node's
    [data] if there is one, the [TypeError] that reading [type] of a missing
    [data] raises, the object [{ ...node.data, input: inputData }], and the
    [TypeError]s that reading [message] of [null] and of [undefined]
    raises. *)
Variable now : nat → Z.
Variable dataType : Node → option string.
Variable noData : Thrown.
Variable defaultOutput : Node → list Any → Value.
Variable noMessageOfNull : Thrown.
Variable noMessageOfUndefined : Thrown.

(** The [try] block of [executeNode] once the inputs are read: the handler
    registered for [node.data.type] runs, or the default output is built. *)
Definition runHandler (eng : t) (node : Node) (inputData : list Any)
    : Any + Rejection :=
  match data node with
  | None => inr (Throws noData)
  | Some _ =>
      match dataType node ≫= (λ ty, handlers eng !! ty) with
      | Some handler => handler node inputData
      | None => inl (Defined (defaultOutput node inputData))
      end
  end.

(** [executeNode(node, edges)]: the result returned or the error thrown, the
    engine afterwards, and the number of clock readings so far.  The
    [catch] block builds its result from [error.message] before it stores
    anything: when the handler rejected with [null] or [undefined] that
    reading throws, so nothing is stored, the clock is not read again, and
    the [TypeError] is what leaves [executeNode]. *)
Definition executeNode (eng : t) (tick : nat) (node : Node) (edges : list Edge)
    : (NodeResult + Thrown) * t * nat :=
  let startTime := now tick in
  let running := updateNodeResult (nodeResults eng) (id node) (setStatus Running) in
  let inputData := getInputData running (id node) edges in
  match runHandler eng node inputData with
  | inl out =>
      let result := mkNodeResult (id node) Success out None (now (S tick) - startTime) in
      (inl result, mk (handlers eng) (<[id node := result]> running), S (S tick))
  | inr (Throws thrown) =>
      let result := mkNodeResult (id node) Failure Null (thrownMessage thrown)
                      (now (S tick) - startTime) in
      (inr thrown, mk (handlers eng) (<[id node := result]> running), S (S tick))
  | inr RejectNull => (inr noMessageOfNull, mk (handlers eng) running, S tick)
  | inr RejectUndefined => (inr noMessageOfUndefined, mk (handlers eng) running, S tick)
  end.

(** One turn of [for (const nodeId of executionOrder)]. *)
Definition runStep (nodes : list Node) (edges : list Edge)
    (st : t * nat * list ExecutionError) (nid : string)
    : t * nat * list ExecutionError :=
  match findNode nodes nid with
  | None => st
  | Some node =>
      match executeNode st.1.1 st.1.2 node edges with
      | (inl _, eng, tick) => (eng, tick, st.2)
      | (inr thrown, eng, tick) =>
          (eng, tick,
           st.2 ++ [mkExecutionError nid (orElse (thrownMessage thrown) "Unknown error")
                      (thrownStack thrown)])
      end
  end.

(** [executeWorkflow(nodes, edges, entryNodeId?)]; [None] when the scheduler
    runs out of fuel. *)
Definition executeWorkflow (fuel : nat) (eng : t) (tick : nat) (nodes : list Node)
    (edges : list Edge) (entryNodeId : option string)
    : option (ExecutionResult * t * nat) :=
  let startTime := now tick in
  let cleared := mk (handlers eng) ∅ in
  scheduled ← getExecutionOrder fuel nodes edges entryNodeId;
  match scheduled with
  | inl executionOrder =>
      let st := foldl (runStep nodes edges) (cleared, S tick, []) executionOrder in
      Some (mkExecutionResult (bool_decide (length st.2 = 0%nat))
              (nodeResults st.1.1) st.2 (now st.1.2 - startTime),
            st.1.1, S st.1.2)
  | inr error =>
      Some (mkExecutionResult false (nodeResults cleared)
              [mkExecutionError "system" (errorMessage error) None]
              (now (S tick) - startTime),
            cleared, S (S tick))
  end.

End Workflow.

Arguments Any : clear implicits.
Arguments NodeResult : clear implicits.
Arguments ExecutionResult : clear implicits.
Arguments Handler : clear implicits.
Arguments t : clear implicits.

End ExecutionEngine.

(** * The end-to-end scenarios of the specification

    Values are strings.  The registry has a handler for the type [source],
    which returns ["x"], and one for the type [thrower], which throws
    ["boom"]; a node of any other type has no handler and gets the
    pass-through result, here its resolved inputs written [key=value].  The
    clock stands still. *)

Module Scenario.
Import GraphExecutor.

Definition node (i ty : string) : Node := mkNode i (Some ty) None.

Definition edge (s t : string) : Edge := mkEdge (s +:+ "-" +:+ t) s t None None.



(** An executor that has not run yet. *)
Definition idle : GraphExecutor.t string := GraphExecutor.mk None false.

(** A caller who never aborts, and one who aborts when [A] has completed;
    callbacks that do not throw. *)
Definition quiet (ev : Event string) : bool := false.


Definition calm (ev : Event string) : option (Error + string) := None.

(** The [TypeError] for the call of [GraphValidator.validate], with the
    message that V8 gives it. *)
Definition missingValidate : Error :=
  mkError "GraphValidator.validate is not a function".

Definition run (abortOn : Event string → bool) (nodes : list Node) (edges : list Edge)
    : list (Event string) * Outcome string * GraphExecutor.t string :=
  GraphExecutor.execute missingValidate abortOn calm nodes edges idle.

(** Scenario A: a source and a sink. *)
Definition nodesA : list Node := [node "A" "source"; node "B" "sink"].
Definition edgesA : list Edge := [edge "A" "B"].

(** Scenario B: two roots that feed one node. *)
Definition nodesB : list Node := [node "A" "source"; node "B" "source"; node "C" "sink"].
Definition edgesB : list Edge := [edge "A" "C"; edge "B" "C"].

Definition rankB (nodeId : string) : nat := if decide (nodeId = "C") then 1 else 0.

(** Scenario C: a cycle of two nodes. *)
Definition nodesC : list Node := [node "A" "source"; node "B" "sink"].
Definition edgesC : list Edge := [edge "A" "B"; edge "B" "A"].

Definition validationC : GraphValidator.ValidationResult :=
  GraphValidator.mkValidationResult false
    [GraphValidator.mkValidationError "Graph contains cycles" "GRAPH_CYCLE_DETECTED"
       (GraphValidator.DCycle (Some ["A"; "B"; "A"]))]
    ["No source nodes found - graph may not execute properly"].

(** Scenario D: a single node whose handler throws. *)
Definition nodesD : list Node := [node "A" "thrower"].

Definition boom : Error :=
  mkError ("Handler execution failed for node type " +:+ quote +:+ "thrower"
           +:+ quote +:+ ": boom").

(** The abort scenario: a chain of three nodes; the caller aborts when [A]
    has completed. *)
Definition chainNodes : list Node := [node "A" "source"; node "B" "sink"; node "C" "sink"].

(** A cycle with a lead-in: [A] leads to the cycle of [B] and [C]. *)
Definition lassoNodes : list Node := [node "A" "source"; node "B" "sink"; node "C" "sink"].
Definition lassoEdges : list Edge := [edge "A" "B"; edge "B" "C"; edge "C" "B"].


(** A context for three nodes and the calls that record [B] as completed and
    [A] as failed. *)
Definition recordings : list (ExecutionContext.Call string) :=
  [ExecutionContext.mkCall 0 "B" "x" None;
   ExecutionContext.mkCall 0 "A" "null" (Some boom)].

(** Two edges into [C] that name the same target handle; [A] and [B] have
    recorded outputs. *)
Definition edgeInto (s t handle : string) : Edge :=
  mkEdge (s +:+ "-" +:+ t) s t None (Some handle).

Definition fanIn : ExecutionContext.t string :=
  ExecutionContext.applyCalls (ExecutionContext.new nodesB ["A"; "B"; "C"])
    [ExecutionContext.mkCall 0 "A" "x" None; ExecutionContext.mkCall 0 "B" "y" None].

(** What [sort] gives for scenario B, and [validateGraph] for scenario A. *)
Definition sortedB : list TopologicalSort.SortedNode :=
  [TopologicalSort.mkSortedNode (node "A" "source") 0;
   TopologicalSort.mkSortedNode (node "B" "source") 0;
   TopologicalSort.mkSortedNode (node "C" "sink") 1].

Definition validationA : GraphValidator.ValidationResult :=
  GraphValidator.mkValidationResult true [] [].

(** A workflow for [ExecutionEngine]: the nodes carry [data], whose [type]
    is that of the node; [A] returns, [B] throws an [Error], and [C], which
    has no handler, is fed by both.  The handler of [nuller] rejects with
    [null]. *)
Definition dataNode (i ty : string) : Node :=
  mkNode i (Some ty) (Some (mkNodeData None None)).

Definition workflowNodes : list Node :=
  [dataNode "A" "source"; dataNode "B" "thrower"; dataNode "C" "sink"].

Definition engine : ExecutionEngine.t string :=
  ExecutionEngine.registerHandler
    (ExecutionEngine.registerHandler
       (ExecutionEngine.registerHandler (ExecutionEngine.mk ∅ ∅) "source"
          (λ _ _, inl (ExecutionEngine.Defined "x")))
       "thrower"
       (λ _ _, inr (ExecutionEngine.Throws (ExecutionEngine.mkThrown (Some "boom") None))))
    "nuller" (λ _ _, inr ExecutionEngine.RejectNull).

Definition showAny (a : ExecutionEngine.Any string) : string :=
  match a with
  | ExecutionEngine.Undefined => "undefined"
  | ExecutionEngine.Null => "null"
  | ExecutionEngine.Defined v => v
  end.

Definition withInputs (n : Node) (inputData : list (ExecutionEngine.Any string)) : string :=
  join "," (showAny <$> inputData).

Definition typeError : ExecutionEngine.Thrown :=
  ExecutionEngine.mkThrown (Some "Cannot read properties of undefined (reading 'type')") None.

Definition messageOfNull : ExecutionEngine.Thrown :=
  ExecutionEngine.mkThrown (Some "Cannot read properties of null (reading 'message')") None.

Definition messageOfUndefined : ExecutionEngine.Thrown :=
  ExecutionEngine.mkThrown
    (Some "Cannot read properties of undefined (reading 'message')") None.

Definition runWorkflow (nodes : list Node) (edges : list Edge)
    : option (ExecutionEngine.ExecutionResult string * ExecutionEngine.t string * nat) :=
  ExecutionEngine.executeWorkflow (λ _, 0) type typeError withInputs
    messageOfNull messageOfUndefined (length nodes) engine 0%nat nodes edges None.

Definition workflowResults : gmap string (ExecutionEngine.NodeResult string) :=
  {[ "A" := ExecutionEngine.mkNodeResult "A" ExecutionEngine.Success
              (ExecutionEngine.Defined "x") None 0;
     "B" := ExecutionEngine.mkNodeResult "B" ExecutionEngine.Failure
              ExecutionEngine.Null (Some "boom") 0;
     "C" := ExecutionEngine.mkNodeResult "C" ExecutionEngine.Success
              (ExecutionEngine.Defined "x,null") None 0 ]}.

End Scenario.

(** * The vocabulary of the properties *)

(** ** Graphs: paths, cycles, order *)

Definition nodeIds (nodes : list Node) : list string := id <$> nodes.

(** There is an edge from [u] to [v]. *)
Definition edgeBetween (edges : list Edge) (u v : string) : Prop :=
  ∃ e, e ∈ edges ∧ source e = u ∧ target e = v.

(** A directed cycle: some id reaches itself along one or more edges. *)
Definition cyclic (edges : list Edge) : Prop :=
  ∃ x, tc (edgeBetween edges) x x.

Definition acyclic (edges : list Edge) : Prop :=
  ∀ x, ¬ tc (edgeBetween edges) x x.

(** Both endpoints of every edge are ids of nodes. *)
Definition endpointsIn (nodes : list Node) (edges : list Edge) : Prop :=
  ∀ e, e ∈ edges → source e ∈ nodeIds nodes ∧ target e ∈ nodeIds nodes.

(** [u] stands strictly before [v] in [l]. *)
Definition before (u v : string) (l : list string) : Prop :=
  ∃ l1 l2 l3, l = l1 ++ u :: l2 ++ v :: l3.

(** A path that is itself a cycle: it ends where it starts, and each of its
    ids is joined to the next by an edge. *)
Definition closedPath (edges : list Edge) (p : list string) : Prop :=
  head p = last p
  ∧ ∀ i u v, p !! i = Some u → p !! S i = Some v → edgeBetween edges u v.

(** ** Inputs and ports *)

Section InputVocabulary.
Context {Value : Type}.
Implicit Types (ctx : ExecutionContext.t Value) (e : Edge) (v : Value).

(** The source of [e] has a recorded output without error, with data [v]. *)
Definition contributes ctx e v : Prop :=
  ∃ so, ExecutionContext.outputs ctx !! source e = Some so
        ∧ ExecutionContext.error so = None
        ∧ ExecutionContext.data so = v.
End InputVocabulary.

(** The node declares a port called [handle] in the list [ports]. *)
Definition declaresPort (ports : option (list Port)) (handle : string) : Prop :=
  ∃ ps p, ports = Some ps ∧ p ∈ ps ∧ name p = handle.

(** A node [A] without [data] and an edge that leaves it through the
    handle [out]. *)
Definition bareSource : Node := mkNode "A" (Some "input") None.
Definition bareTarget : Node := mkNode "B" (Some "output") None.
Definition handleEdge : Edge := mkEdge "e1" "A" "B" (Some "out") None.

(** ** Traces of the executor *)

Section TraceVocabulary.
Context {Value : Type}.
Import GraphExecutor.


End TraceVocabulary.

(** ** Paths and accepted graphs *)

(** Each id of the path is joined to the next by an edge. *)
Definition linked (edges : list Edge) (p : list string) : Prop :=
  ∀ i u v, p !! i = Some u → p !! S i = Some v → edgeBetween edges u v.

(** The ports that the handles of an edge name are declared by the nodes at
    its ends. *)
Definition portsDeclared (nodes : list Node) (e : Edge) : Prop :=
  (∀ n h, n ∈ nodes → id n = source e → sourceHandle e = Some h →
          h ≠ EmptyString → declaresPort (data n ≫= outputs) h)
  ∧ (∀ n h, n ∈ nodes → id n = target e → targetHandle e = Some h →
            h ≠ EmptyString → declaresPort (data n ≫= inputs) h).

(** What a graph needs to pass validation. *)
Definition wellFormed (nodes : list Node) (edges : list Edge) : Prop :=
  nodes ≠ []
  ∧ (∀ n, n ∈ nodes → id n ≠ EmptyString ∧ truthyOpt (type n) = true)
  ∧ NoDup (nodeIds nodes)
  ∧ endpointsIn nodes edges
  ∧ (∀ e, e ∈ edges → portsDeclared nodes e)
  ∧ acyclic edges.

(** ** Results of the workflow engine *)

Section WorkflowVocabulary.
Context {Value : Type}.
Import ExecutionEngine.

(** The result that a run leaves for an outcome of the handler: success
    with the output; failure with [null] and the message when the handler
    threw a value other than [null] and [undefined]; and, when it rejected
    with [null] or [undefined], the result of a node still running, since
    [executeNode] then stores none. *)
Definition outcomeRecorded (r : NodeResult Value) (outcome : Any Value + Rejection)
    : Prop :=
  match outcome with
  | inl out => status r = Success ∧ output r = out ∧ error r = None
  | inr (Throws thrown) =>
      status r = Failure ∧ output r = Null ∧ error r = thrownMessage thrown
  | inr RejectNull | inr RejectUndefined =>
      status r = Running ∧ output r = Null ∧ error r = None
  end.

(** What leaves [executeNode] when the handler rejects: the value thrown,
    or the [TypeError] for reading [message] of [null] or [undefined]. *)
Definition raised (noMessageOfNull noMessageOfUndefined : Thrown) (rej : Rejection)
    : Thrown :=
  match rej with
  | RejectNull => noMessageOfNull
  | RejectUndefined => noMessageOfUndefined
  | Throws thrown => thrown
  end.

(** The entry of the error list for a node and the outcome of its handler:
    none when the handler returned, else the id of the node, the message of
    what was raised (or [Unknown error]) and its stack. *)
Definition failure (noMessageOfNull noMessageOfUndefined : Thrown) (nid : string)
    (outcome : Any Value + Rejection) : option ExecutionError :=
  match outcome with
  | inl _ => None
  | inr rej =>
      let thrown := raised noMessageOfNull noMessageOfUndefined rej in
      Some (mkExecutionError nid (orElse (thrownMessage thrown) "Unknown error")
              (thrownStack thrown))
  end.
End WorkflowVocabulary.

(** * Properties *)

(** ** The execution context *)

Section ExecutionContextFacts.
Context {Value : Type}.
Implicit Types (ctx : ExecutionContext.t Value) (e : Edge) (k : string).
Implicit Types (inputs : gmap string Value) (v : Value).

Lemma addInput_contributes ctx inputs e v :
  contributes ctx e v →
  ExecutionContext.addInput ctx inputs e
  = <[ExecutionContext.inputKey e := v]> inputs.
Proof.
  intros (so & Hso & Herr & <-). unfold ExecutionContext.addInput.
  by rewrite Hso, Herr.
Qed.

Lemma addInput_skips ctx inputs e :
  (∀ v, ¬ contributes ctx e v) → ExecutionContext.addInput ctx inputs e = inputs.
Proof.
  intros Hno. unfold ExecutionContext.addInput.
  destruct (ExecutionContext.outputs ctx !! source e) as [so|] eqn:Hso; [|done].
  destruct (ExecutionContext.error so) eqn:Herr; [done|].
  exfalso. apply (Hno (ExecutionContext.data so)). by exists so.
Qed.

Lemma contributes_dec ctx e : (∃ v, contributes ctx e v) ∨ (∀ v, ¬ contributes ctx e v).
Proof.
  unfold contributes.
  destruct (ExecutionContext.outputs ctx !! source e) as [so|] eqn:Hso.
  - destruct (ExecutionContext.error so) eqn:Herr.
    + right. intros v (so' & [= <-] & ? & _). congruence.
    + left. exists (ExecutionContext.data so), so. done.
  - right. intros v (so' & ? & _). congruence.
Qed.

Lemma foldl_addInput_lookup ctx es inputs k v :
  foldl (ExecutionContext.addInput ctx) inputs es !! k = Some v →
  inputs !! k = Some v
  ∨ ∃ e, e ∈ es ∧ ExecutionContext.inputKey e = k ∧ contributes ctx e v.
Proof.
  revert inputs. induction es as [|e es IH]; intros inputs; simpl; [by left|].
  intros H. apply IH in H as [H|(e' & ? & ? & ?)].
  - destruct (contributes_dec ctx e) as [[w Hw]|Hno].
    + rewrite (addInput_contributes _ _ _ _ Hw) in H.
      destruct (decide (ExecutionContext.inputKey e = k)) as [<-|Hne].
      * rewrite lookup_insert_eq in H. injection H as ->.
        right. exists e. split; [left|done].
      * rewrite lookup_insert_ne in H by done. by left.
    + rewrite addInput_skips in H by done. by left.
  - right. exists e'. split; [by right|done].
Qed.

Lemma foldl_addInput_is_Some ctx es inputs k :
  is_Some (inputs !! k) →
  is_Some (foldl (ExecutionContext.addInput ctx) inputs es !! k).
Proof.
  revert inputs. induction es as [|e es IH]; intros inputs H; simpl; [done|].
  apply IH. destruct (contributes_dec ctx e) as [[w Hw]|Hno].
  - rewrite (addInput_contributes _ _ _ _ Hw).
    destruct (decide (ExecutionContext.inputKey e = k)) as [<-|Hne].
    + rewrite lookup_insert_eq. eauto.
    + by rewrite lookup_insert_ne.
  - by rewrite addInput_skips.
Qed.

Lemma foldl_addInput_elem ctx es inputs e v :
  e ∈ es → contributes ctx e v →
  is_Some (foldl (ExecutionContext.addInput ctx) inputs es
           !! ExecutionContext.inputKey e).
Proof.
  revert inputs. induction es as [|e' es IH]; intros inputs Hin Hc.
  - by apply elem_of_nil in Hin.
  - simpl. apply elem_of_cons in Hin as [->|Hin]; [|by apply IH].
    apply foldl_addInput_is_Some.
    rewrite (addInput_contributes _ _ _ _ Hc), lookup_insert_eq. eauto.
Qed.

(** The key of an edge: the target handle if it is truthy, else the source
    handle if it is truthy, else the source id. *)
Lemma inputKey_cases e :
  (∀ h, targetHandle e = Some h → h ≠ EmptyString →
        ExecutionContext.inputKey e = h)
  ∧ (∀ h, truthyOpt (targetHandle e) = false → sourceHandle e = Some h →
          h ≠ EmptyString → ExecutionContext.inputKey e = h)
  ∧ (truthyOpt (targetHandle e) = false → truthyOpt (sourceHandle e) = false →
     ExecutionContext.inputKey e = source e).
Proof.
  unfold ExecutionContext.inputKey, orElse, truthyOpt, truthy.
  repeat split.
  - intros h -> Hh. by rewrite bool_decide_eq_true_2.
  - intros h Ht -> Hh. rewrite (bool_decide_eq_true_2 _ Hh).
    destruct (targetHandle e); [by rewrite Ht|done].
  - intros Ht Hs.
    destruct (targetHandle e), (sourceHandle e); by rewrite ?Ht, ?Hs.
Qed.

(** C7.  [getNodeInputs(nodeId, edges)] has an entry under a key exactly
    when some edge into [nodeId] resolves to that key and its source has a
    recorded output without error (a failed or absent source adds no entry,
    not a null one); the value stored is the data of such an edge's source;
    and the key of an edge is its target handle if present, else its
    source handle if present, else its source id. *)
Theorem getNodeInputs_entries ctx nodeId (edges : list Edge) :
  (∀ k, is_Some (ExecutionContext.getNodeInputs ctx nodeId edges !! k)
        ↔ ∃ e v, e ∈ edges ∧ target e = nodeId
                 ∧ ExecutionContext.inputKey e = k ∧ contributes ctx e v)
  ∧ (∀ k v, ExecutionContext.getNodeInputs ctx nodeId edges !! k = Some v →
            ∃ e, e ∈ edges ∧ target e = nodeId
                 ∧ ExecutionContext.inputKey e = k ∧ contributes ctx e v)
  ∧ (∀ e, (∀ h, targetHandle e = Some h → h ≠ EmptyString →
                ExecutionContext.inputKey e = h)
          ∧ (∀ h, truthyOpt (targetHandle e) = false → sourceHandle e = Some h →
                  h ≠ EmptyString → ExecutionContext.inputKey e = h)
          ∧ (truthyOpt (targetHandle e) = false →
             truthyOpt (sourceHandle e) = false →
             ExecutionContext.inputKey e = source e)).
Proof.
  assert (Hval : ∀ k v,
    ExecutionContext.getNodeInputs ctx nodeId edges !! k = Some v →
    ∃ e, e ∈ edges ∧ target e = nodeId
         ∧ ExecutionContext.inputKey e = k ∧ contributes ctx e v).
  { intros k v H. unfold ExecutionContext.getNodeInputs in H.
    apply foldl_addInput_lookup in H as [H|(e & Hin & Hk & Hc)].
    - by rewrite lookup_empty in H.
    - apply list_elem_of_filter in Hin as [? ?]. by exists e. }
  split; [|split; [done|apply inputKey_cases]].
  intros k. split.
  - intros [v H]. destruct (Hval k v H) as (e & ? & ? & ? & ?). by exists e, v.
  - intros (e & v & Hin & Ht & <- & Hc).
    unfold ExecutionContext.getNodeInputs.
    eapply foldl_addInput_elem; [|done].
    by apply list_elem_of_filter.
Qed.
End ExecutionContextFacts.

Section ProgressFacts.
Context {Value : Type}.
Implicit Types (ctx : ExecutionContext.t Value).
Implicit Types (calls : list (ExecutionContext.Call Value)).

Lemma indexOf_elem (l : list string) x :
  x ∈ l →
  ExecutionContext.indexOf l x > -1
  ∧ x :: delete (Z.to_nat (ExecutionContext.indexOf l x)) l ≡ₚ l.
Proof.
  induction l as [|y l IH]; intros Hin; [by apply elem_of_nil in Hin|].
  simpl. destruct (decide (y = x)) as [->|Hne]; [split; [lia|done]|].
  apply elem_of_cons in Hin as [->|Hin]; [done|].
  destruct (IH Hin) as [Hgt Hperm].
  destruct (decide (ExecutionContext.indexOf l x = -1)) as [Heq|_]; [lia|].
  split; [lia|].
  replace (Z.to_nat (ExecutionContext.indexOf l x + 1))
    with (S (Z.to_nat (ExecutionContext.indexOf l x))) by lia.
  simpl. rewrite Permutation_swap. by f_equiv.
Qed.

(** The three lists of the progress partition the execution order, and the
    constructor's arguments are kept. *)
Definition partitions (nodes : list Node) (order : list string) ctx : Prop :=
  let p := ExecutionContext.progress ctx in
  ExecutionContext.completed p ++ ExecutionContext.failed p
    ++ ExecutionContext.remaining p ≡ₚ order
  ∧ ExecutionContext.totalNodes p = length nodes
  ∧ ExecutionContext.nodes ctx = nodes
  ∧ ExecutionContext.executionOrder ctx = order.

Lemma new_partitions nodes order :
  partitions nodes order (ExecutionContext.new (Value:=Value) nodes order).
Proof. by repeat split. Qed.

Lemma setNodeOutput_partitions nodes order ctx now nodeId d err :
  partitions nodes order ctx →
  nodeId ∈ ExecutionContext.remaining (ExecutionContext.progress ctx) →
  partitions nodes order (ExecutionContext.setNodeOutput now ctx nodeId d err)
  ∧ nodeId :: ExecutionContext.remaining (ExecutionContext.progress
                (ExecutionContext.setNodeOutput now ctx nodeId d err))
    ≡ₚ ExecutionContext.remaining (ExecutionContext.progress ctx).
Proof.
  intros (Hperm & Htot & Hnodes & Horder) Hin.
  destruct (indexOf_elem _ _ Hin) as [Hgt Hdel].
  unfold partitions, ExecutionContext.setNodeOutput. simpl.
  rewrite decide_True by done.
  split; [|done]. repeat split; try done.
  remember (delete (Z.to_nat (ExecutionContext.indexOf
              (ExecutionContext.remaining (ExecutionContext.progress ctx)) nodeId))
              (ExecutionContext.remaining (ExecutionContext.progress ctx))) as r' eqn:Hr'.
  clear Hr'. rewrite <- Hperm, <- Hdel.
  destruct err; simpl; rewrite <- ?app_assoc; simpl;
    by rewrite <- !Permutation_middle.
Qed.

Lemma applyCalls_partitions nodes order calls ctx :
  partitions nodes order ctx →
  NoDup (ExecutionContext.callNodeId <$> calls) →
  (∀ c, c ∈ calls →
        ExecutionContext.callNodeId c
        ∈ ExecutionContext.remaining (ExecutionContext.progress ctx)) →
  partitions nodes order (ExecutionContext.applyCalls ctx calls).
Proof.
  revert ctx. induction calls as [|c calls IH]; intros ctx Hinv Hnd Hin; [done|].
  simpl. apply NoDup_cons in Hnd as [Hc Hnd].
  destruct (setNodeOutput_partitions nodes order ctx (ExecutionContext.callNow c)
              (ExecutionContext.callNodeId c) (ExecutionContext.callData c)
              (ExecutionContext.callError c) Hinv) as [Hinv' Hrem].
  { apply Hin. left. }
  apply IH; [done..|].
  intros c' Hc'. assert (Hr := Hin c' (list_elem_of_further _ _ _ Hc')).
  rewrite <- Hrem in Hr. apply elem_of_cons in Hr as [Heq|Hr]; [|done].
  exfalso. apply Hc. rewrite <- Heq. by apply list_elem_of_fmap_2.
Qed.

(** C10.  Take a context made from a node list with distinct ids and an
    execution order that lists exactly these ids.  After any sequence of
    [setNodeOutput] calls that name distinct ids of the order, the lists
    [completed], [failed] and [remaining] of [getProgress()] are pairwise
    disjoint and their lengths add up to [totalNodes]; and [clear()] gives
    back the initial state. *)
Theorem progress_partition nodes order calls :
  NoDup (id <$> nodes) →
  order ≡ₚ id <$> nodes →
  NoDup (ExecutionContext.callNodeId <$> calls) →
  (∀ c, c ∈ calls → ExecutionContext.callNodeId c ∈ order) →
  let ctx := ExecutionContext.applyCalls (ExecutionContext.new nodes order) calls in
  let p := ExecutionContext.getProgress ctx in
  (∀ x, x ∈ ExecutionContext.completed p → x ∉ ExecutionContext.failed p)
  ∧ (∀ x, x ∈ ExecutionContext.completed p → x ∉ ExecutionContext.remaining p)
  ∧ (∀ x, x ∈ ExecutionContext.failed p → x ∉ ExecutionContext.remaining p)
  ∧ (length (ExecutionContext.completed p) + length (ExecutionContext.failed p)
     + length (ExecutionContext.remaining p) = ExecutionContext.totalNodes p)%nat
  ∧ ExecutionContext.clear ctx = ExecutionContext.new nodes order
  ∧ ExecutionContext.completed (ExecutionContext.progress (ExecutionContext.clear ctx)) = []
  ∧ ExecutionContext.failed (ExecutionContext.progress (ExecutionContext.clear ctx)) = []
  ∧ ExecutionContext.remaining (ExecutionContext.progress (ExecutionContext.clear ctx)) = order
  ∧ ExecutionContext.aborted (ExecutionContext.clear ctx) = false.
Proof.
  intros Hids Horder Hcalls Hin ctx p.
  subst p. unfold ExecutionContext.getProgress.
  destruct (applyCalls_partitions nodes order calls (ExecutionContext.new nodes order))
    as (Hperm & Htot & Hnodes & Hord); [apply new_partitions|done|done|].
  fold ctx in Hperm, Htot, Hnodes, Hord.
  set (p := ExecutionContext.progress ctx) in *.
  assert (Hnd : NoDup (ExecutionContext.completed p ++ ExecutionContext.failed p
                       ++ ExecutionContext.remaining p)).
  { rewrite Hperm, Horder. done. }
  apply NoDup_app in Hnd as (_ & Hcf & Hnd).
  apply NoDup_app in Hnd as (_ & Hfr & _).
  assert (Hclear : ExecutionContext.clear ctx = ExecutionContext.new nodes order).
  { unfold ExecutionContext.clear, ExecutionContext.new. by rewrite Hnodes, Hord. }
  split_and!.
  - intros x Hx Hf. apply (Hcf x Hx). apply elem_of_app. by left.
  - intros x Hx Hr. apply (Hcf x Hx). apply elem_of_app. by right.
  - done.
  - apply Permutation_length in Hperm. rewrite !length_app in Hperm.
    rewrite Htot. rewrite Horder, length_fmap in Hperm. lia.
  - done.
  - by rewrite Hclear.
  - by rewrite Hclear.
  - by rewrite Hclear.
  - by rewrite Hclear.
Qed.
End ProgressFacts.

(** ** The validator: port checks *)

Lemma truthy_spec s : truthy s = true ↔ s ≠ EmptyString.
Proof. unfold truthy. apply bool_decide_eq_true. Qed.

Section PortFacts.
Import GraphValidator.

Lemma notOpt_hasPort ports handle :
  notOpt (hasPort ports handle) = true ↔ ¬ declaresPort ports handle.
Proof.
  unfold notOpt, hasPort, declaresPort. destruct ports as [ps|]; simpl.
  - rewrite negb_true_iff. split.
    + intros Hex (ps' & p & [= <-] & Hin & Hname).
      assert (existsb (λ p, bool_decide (name p = handle)) ps = true); [|congruence].
      apply existsb_exists. exists p. split; [by apply list_elem_of_In|].
      by apply bool_decide_eq_true_2.
    + intros Hno. apply not_true_is_false. intros Hex.
      apply existsb_exists in Hex as (p & Hin & Hp). apply Hno.
      exists ps, p. split_and!; [done|by apply list_elem_of_In|].
      by apply bool_decide_eq_true in Hp.
  - split; [|done]. intros _ (ps & p & ? & _). done.
Qed.

Ltac segment H :=
  repeat match type of H with
  | _ ∈ (if ?c then _ else _) => destruct c eqn:?
  | _ ∈ match ?x with _ => _ end => destruct x eqn:?
  | _ ∈ [] => by apply elem_of_nil in H
  | _ ∈ [_] => apply list_elem_of_singleton in H; subst
  end.

Lemma validateEdge_source_port edge graph err :
  err ∈ validateEdge edge graph → code err = "EDGE_INVALID_SOURCE_PORT" →
  ∃ handle node,
    sourceHandle edge = Some handle ∧ handle ≠ EmptyString
    ∧ findNode (nodes graph) (source edge) = Some node
    ∧ ¬ declaresPort (data node ≫= outputs) handle
    ∧ err = mkValidationError "Invalid source port" "EDGE_INVALID_SOURCE_PORT"
              (DPort (edgeId edge) handle).
Proof.
  unfold validateEdge. rewrite !elem_of_app.
  intros [H|[H|[H|[H|[H|H]]]]] Hcode; segment H; try discriminate Hcode.
  eexists _, _. split_and!; try done.
  - by apply truthy_spec.
  - by apply notOpt_hasPort.
Qed.

Lemma validateEdge_target_port edge graph err :
  err ∈ validateEdge edge graph → code err = "EDGE_INVALID_TARGET_PORT" →
  ∃ handle node,
    targetHandle edge = Some handle ∧ handle ≠ EmptyString
    ∧ findNode (nodes graph) (target edge) = Some node
    ∧ ¬ declaresPort (data node ≫= inputs) handle
    ∧ err = mkValidationError "Invalid target port" "EDGE_INVALID_TARGET_PORT"
              (DPort (edgeId edge) handle).
Proof.
  unfold validateEdge. rewrite !elem_of_app.
  intros [H|[H|[H|[H|[H|H]]]]] Hcode; segment H; try discriminate Hcode.
  eexists _, _. split_and!; try done.
  - by apply truthy_spec.
  - by apply notOpt_hasPort.
Qed.

(** C9, as the code has it.  For an edge with a source (target) handle whose
    source (target) node is in the graph, [validateEdge] reports
    [EDGE_INVALID_SOURCE_PORT] ([EDGE_INVALID_TARGET_PORT]) exactly when the
    node's data declares no output (input) port of that name; a node
    without port metadata declares none, so the error is reported for it.
    There is no port check only when the handle is absent or empty or the
    endpoint node is not found. *)
Theorem validateEdge_port_errors edge graph :
  (mkValidationError "Invalid source port" "EDGE_INVALID_SOURCE_PORT"
     (DPort (edgeId edge) (default EmptyString (sourceHandle edge)))
   ∈ validateEdge edge graph
   ↔ ∃ handle node,
       sourceHandle edge = Some handle ∧ handle ≠ EmptyString
       ∧ findNode (nodes graph) (source edge) = Some node
       ∧ ¬ declaresPort (data node ≫= outputs) handle)
  ∧ (mkValidationError "Invalid target port" "EDGE_INVALID_TARGET_PORT"
       (DPort (edgeId edge) (default EmptyString (targetHandle edge)))
     ∈ validateEdge edge graph
     ↔ ∃ handle node,
         targetHandle edge = Some handle ∧ handle ≠ EmptyString
         ∧ findNode (nodes graph) (target edge) = Some node
         ∧ ¬ declaresPort (data node ≫= inputs) handle)
  ∧ (∀ err, err ∈ validateEdge edge graph →
            code err = "EDGE_INVALID_SOURCE_PORT" →
            truthyOpt (sourceHandle edge) = true
            ∧ is_Some (findNode (nodes graph) (source edge)))
  ∧ (∀ err, err ∈ validateEdge edge graph →
            code err = "EDGE_INVALID_TARGET_PORT" →
            truthyOpt (targetHandle edge) = true
            ∧ is_Some (findNode (nodes graph) (target edge))).
Proof.
  split_and!.
  - split.
    + intros H. apply validateEdge_source_port in H as (h & n & ? & ? & ? & ? & _); [|done].
      by exists h, n.
    + intros (h & n & Hh & Hne & Hfind & Hno).
      unfold validateEdge. rewrite !elem_of_app. do 4 right. left.
      rewrite Hh, Hfind. simpl.
      apply truthy_spec in Hne. rewrite Hne.
      apply notOpt_hasPort in Hno. rewrite Hno. by apply list_elem_of_singleton.
  - split.
    + intros H. apply validateEdge_target_port in H as (h & n & ? & ? & ? & ? & _); [|done].
      by exists h, n.
    + intros (h & n & Hh & Hne & Hfind & Hno).
      unfold validateEdge. rewrite !elem_of_app. do 5 right.
      rewrite Hh, Hfind. simpl.
      apply truthy_spec in Hne. rewrite Hne.
      apply notOpt_hasPort in Hno. rewrite Hno. by apply list_elem_of_singleton.
  - intros err H Hc.
    apply validateEdge_source_port in H as (h & n & -> & Hne & -> & _); [|done].
    split; [|by eexists]. simpl. by apply truthy_spec.
  - intros err H Hc.
    apply validateEdge_target_port in H as (h & n & -> & Hne & -> & _); [|done].
    split; [|by eexists]. simpl. by apply truthy_spec.
Qed.

(** C9, as the claim states it, fails: the source node [A] declares no port
    metadata, the edge names the handle [out], and validation reports
    [EDGE_INVALID_SOURCE_PORT] for the edge. *)
Lemma validateEdge_no_metadata_reports :
  data bareSource = None
  ∧ validateEdge handleEdge (mkGraph None [bareSource; bareTarget] [handleEdge])
    = [mkValidationError "Invalid source port" "EDGE_INVALID_SOURCE_PORT"
         (DPort "e1" "out")]
  ∧ (errors <$> validateGraph (mkGraph None [bareSource; bareTarget] [handleEdge]))
    = Some [mkValidationError "Invalid source port" "EDGE_INVALID_SOURCE_PORT"
              (DPort "e1" "out")].
Proof. split_and!; [done|by vm_compute..]. Qed.
End PortFacts.

(** ** Maps in insertion order *)

Section JsMapFacts.
Context {V : Type}.
Implicit Types (m : JsMap.t V) (k : string) (v : V).

Lemma get_set_eq m k v : JsMap.get (JsMap.set m k v) k = Some v.
Proof.
  induction m as [|[k' v'] m IH]; csimpl.
  - by rewrite decide_True.
  - destruct (decide (k' = k)); csimpl; [by rewrite decide_True|].
    by rewrite decide_False.
Qed.

Lemma get_set_ne m k k' v :
  k ≠ k' → JsMap.get (JsMap.set m k v) k' = JsMap.get m k'.
Proof.
  intros Hne. induction m as [|[k0 v0] m IH]; csimpl.
  - by rewrite decide_False.
  - destruct (decide (k0 = k)) as [->|]; csimpl.
    + by rewrite !decide_False.
    + destruct (decide (k0 = k')); [done|apply IH].
Qed.

Lemma get_is_Some m k : is_Some (JsMap.get m k) ↔ k ∈ JsMap.keys m.
Proof.
  unfold JsMap.keys. induction m as [|[k' v'] m IH]; csimpl.
  - split; [by intros [? ?]|by intros ?%elem_of_nil].
  - rewrite elem_of_cons. destruct (decide (k' = k)) as [->|].
    + split; [by left|by eexists].
    + rewrite IH. intuition congruence.
Qed.

Lemma keys_set m k v :
  JsMap.keys (JsMap.set m k v)
  = if decide (k ∈ JsMap.keys m) then JsMap.keys m else JsMap.keys m ++ [k].
Proof.
  unfold JsMap.keys. induction m as [|[k' v'] m IH]; csimpl.
  - done.
  - destruct (decide (k' = k)) as [->|Hne]; csimpl.
    + rewrite decide_True; [done|left].
    + rewrite IH. destruct (decide (k ∈ m.*1)).
      * rewrite decide_True; [done|by right].
      * rewrite decide_False; [done|]. rewrite elem_of_cons. intuition congruence.
Qed.

Lemma NoDup_keys_set m k v :
  NoDup (JsMap.keys m) → NoDup (JsMap.keys (JsMap.set m k v)).
Proof.
  intros Hnd. rewrite keys_set. case_decide; [done|].
  apply NoDup_app. split_and!; [done| |apply NoDup_singleton].
  intros x Hx ->%list_elem_of_singleton. done.
Qed.

Lemma get_elem_of m k v :
  NoDup (JsMap.keys m) → (k, v) ∈ m → JsMap.get m k = Some v.
Proof.
  unfold JsMap.keys. induction m as [|[k' v'] m IH]; csimpl; intros Hnd Hin.
  - by apply elem_of_nil in Hin.
  - apply NoDup_cons in Hnd as [Hk' Hnd].
    apply elem_of_cons in Hin as [[= <- <-]|Hin]; [by rewrite decide_True|].
    rewrite decide_False; [by apply IH|].
    intros ->. apply Hk'. by apply (list_elem_of_fmap_2 fst) in Hin.
Qed.

Lemma length_set m k v : (length m ≤ length (JsMap.set m k v))%nat.
Proof.
  induction m as [|[k' v'] m IH]; csimpl; [lia|].
  destruct (decide (k' = k)); csimpl; lia.
Qed.
End JsMapFacts.

(** ** The scheduler: [sort] always returns *)

Section SortTotal.
Import TopologicalSort.
Implicit Types (deg : JsMap.t Z) (queue : list QueueItem).

Lemma degree_set_eq deg k d : degree (JsMap.set deg k d) k = d.
Proof. unfold degree. by rewrite get_set_eq. Qed.

Lemma degree_set_ne deg k k' d : k ≠ k' → degree (JsMap.set deg k d) k' = degree deg k'.
Proof. intros. unfold degree. by rewrite get_set_ne. Qed.

(** The number of keys whose degree is positive. *)
Definition positives deg : nat := length (filter (λ kd, 0 < kd.2) deg).

Definition indicator (P : Prop) `{!Decision P} : nat := if decide P then 1 else 0.

Lemma positives_set deg k d :
  (positives (JsMap.set deg k d) + indicator (0 < degree deg k)%Z
   = positives deg + indicator (0 < d)%Z)%nat.
Proof.
  unfold positives, indicator, degree.
  induction deg as [|[k' d'] deg IH]; cbn [JsMap.set JsMap.get].
  - rewrite filter_cons, filter_nil. simpl. repeat case_decide; simpl; lia.
  - destruct (decide (k' = k)) as [->|Hne].
    + rewrite !filter_cons. simpl. repeat case_decide; simpl; lia.
    + rewrite !filter_cons. cbn [snd].
      destruct (decide (0 < d')); cbn [length]; lia.
Qed.

(** What the loop still has to do: the queue and the keys that may still
    enter it. *)
Definition measure (st : JsMap.t Z * list QueueItem) : nat :=
  (positives st.1 + length st.2)%nat.

Lemma visitNeighbor_measure level st neighborId :
  (measure (visitNeighbor level st neighborId) ≤ measure st)%nat.
Proof.
  destruct st as [deg queue]. unfold measure, visitNeighbor. simpl.
  pose proof (positives_set deg neighborId (degree deg neighborId - 1)) as H.
  unfold indicator in H.
  destruct (decide (degree deg neighborId - 1 = 0)) as [Heq|Hne].
  - rewrite length_app. simpl. repeat case_decide; lia.
  - repeat case_decide; lia.
Qed.

Lemma visitNeighbors_measure level neighbors st :
  (measure (foldl (visitNeighbor level) st neighbors) ≤ measure st)%nat.
Proof.
  revert st. induction neighbors as [|n ns IH]; intros st; simpl; [done|].
  etrans; [apply IH|apply visitNeighbor_measure].
Qed.

Lemma loop_total fuel m deg queue result :
  (measure (deg, queue) ≤ fuel)%nat → is_Some (loop fuel m deg queue result).
Proof.
  revert deg queue result.
  induction fuel as [|fuel IH]; intros deg queue result Hm;
    destruct queue as [|current queue]; simpl; try by eexists.
  - unfold measure in Hm. simpl in Hm. lia.
  - apply IH.
    pose proof (visitNeighbors_measure (itemLevel current)
                  (default [] (adjacencyList m !! itemId current)) (deg, queue)) as H.
    unfold measure in *. simpl in *. destruct (foldl _ _ _). simpl in *. lia.
Qed.

Lemma initialQueue_measure deg :
  (measure (deg, initialQueue deg) ≤ length deg)%nat.
Proof.
  unfold measure, initialQueue, positives. simpl. rewrite length_fmap.
  induction deg as [|[k d] deg IH]; [done|].
  rewrite !filter_cons. cbn [snd].
  repeat case_decide; cbn [length]; lia.
Qed.

(** [sort] returns a result on every input. *)
Lemma sort_total nodes edges : is_Some (sort nodes edges).
Proof. unfold sort. apply loop_total, initialQueue_measure. Qed.
End SortTotal.

Lemma foldl_invariant {A B} (P : A → Prop) (f : A → B → A) (l : list B) (a : A) :
  P a → (∀ a x, x ∈ l → P a → P (f a x)) → P (foldl f a l).
Proof.
  revert a. induction l as [|x l IH]; intros a Ha Hstep; simpl; [done|].
  apply IH.
  - apply Hstep; [left|done].
  - intros a' y Hy. apply Hstep. by right.
Qed.

(** ** The scheduler: no node is emitted twice *)

Section SortNoDup.
Import TopologicalSort.
Implicit Types (deg : JsMap.t Z) (queue : list QueueItem) (D : list string).

Lemma nodeMap_buildMaps nodes edges k n :
  nodeMap (buildMaps nodes edges) !! k = Some n → id n = k ∧ n ∈ nodes.
Proof.
  unfold buildMaps.
  assert (Hedges : ∀ m, nodeMap (foldl addEdge m edges) = nodeMap m).
  { intros m. apply (foldl_invariant (λ m', nodeMap m' = nodeMap m)); [done|].
    by intros m' e _ <-. }
  rewrite Hedges.
  apply (foldl_invariant (λ m, nodeMap m !! k = Some n → id n = k ∧ n ∈ nodes)).
  - simpl. by rewrite lookup_empty.
  - intros m x Hx IH. simpl.
    destruct (decide (id x = k)) as [<-|Hne].
    + rewrite lookup_insert_eq. by intros [= <-].
    + by rewrite lookup_insert_ne.
Qed.

Lemma keys_buildMaps_NoDup nodes edges :
  NoDup (JsMap.keys (inDegree (buildMaps nodes edges))).
Proof.
  unfold buildMaps.
  apply (foldl_invariant (λ m, NoDup (JsMap.keys (inDegree m)))).
  - apply (foldl_invariant (λ m, NoDup (JsMap.keys (inDegree m)))).
    + apply NoDup_nil_2.
    + intros m x _ H. by apply NoDup_keys_set.
  - intros m x _ H. by apply NoDup_keys_set.
Qed.

(** Every id that is or was in the queue has a degree that stays at most 0,
    so it is not enqueued again. *)
Definition settled D deg queue : Prop :=
  NoDup (D ++ (itemId <$> queue))
  ∧ ∀ v, v ∈ D ++ (itemId <$> queue) → degree deg v ≤ 0.

Lemma visitNeighbor_settled level D deg queue neighborId :
  settled D deg queue →
  settled D (visitNeighbor level (deg, queue) neighborId).1
            (visitNeighbor level (deg, queue) neighborId).2.
Proof.
  intros [Hnd Hle]. unfold visitNeighbor. simpl.
  assert (Hdeg : ∀ v, v ∈ D ++ (itemId <$> queue) →
            degree (JsMap.set deg neighborId (degree deg neighborId - 1)) v ≤ 0).
  { intros v Hv. destruct (decide (neighborId = v)) as [->|Hne].
    - rewrite degree_set_eq. specialize (Hle v Hv). lia.
    - rewrite degree_set_ne by done. by apply Hle. }
  destruct (decide (degree deg neighborId - 1 = 0)) as [Heq|Hne]; [|done].
  assert (Hfresh : neighborId ∉ D ++ (itemId <$> queue)).
  { intros Hin. specialize (Hle _ Hin). lia. }
  split.
  - rewrite fmap_app, app_assoc. simpl.
    apply NoDup_app. split_and!; [done| |apply NoDup_singleton].
    intros x Hx ->%list_elem_of_singleton. done.
  - intros v. rewrite fmap_app, app_assoc. simpl.
    intros [Hv| ->%list_elem_of_singleton]%elem_of_app; [by apply Hdeg|].
    rewrite degree_set_eq. lia.
Qed.

Lemma visitNeighbors_settled level D neighbors deg queue :
  settled D deg queue →
  settled D (foldl (visitNeighbor level) (deg, queue) neighbors).1
            (foldl (visitNeighbor level) (deg, queue) neighbors).2.
Proof.
  intros H.
  apply (foldl_invariant (λ st, settled D st.1 st.2)); [done|].
  intros [deg' queue'] n _ H'. by apply visitNeighbor_settled.
Qed.

Lemma loop_NoDup fuel m deg queue result D r :
  (∀ k n, nodeMap m !! k = Some n → id n = k) →
  settled D deg queue →
  getExecutionOrder result `sublist_of` D →
  loop fuel m deg queue result = Some r →
  NoDup (getExecutionOrder r).
Proof.
  intros Hmap. revert deg queue result D.
  induction fuel as [|fuel IH]; intros deg queue result D Hs Hsub;
    destruct queue as [|current queue]; simpl; try done.
  - intros [= <-]. destruct Hs as [Hnd _].
    rewrite app_nil_r in Hnd. by eapply sublist_NoDup.
  - intros [= <-]. destruct Hs as [Hnd _].
    rewrite app_nil_r in Hnd. by eapply sublist_NoDup.
  - apply (IH _ _ _ (D ++ [itemId current])).
    + apply visitNeighbors_settled. destruct Hs as [Hnd Hle].
      split; [by rewrite <- app_assoc|].
      intros v Hv. apply Hle. by rewrite <- app_assoc in Hv.
    + destruct (nodeMap m !! itemId current) as [n|] eqn:Hn.
      * unfold getExecutionOrder. rewrite fmap_app. simpl.
        rewrite (Hmap _ _ Hn). by apply sublist_app.
      * by apply sublist_inserts_r.
Qed.

(** The order that [sort] returns has no repeated id, and its nodes are
    nodes of the input. *)
Lemma sort_NoDup nodes edges sorted :
  sort nodes edges = Some sorted → NoDup (getExecutionOrder sorted).
Proof.
  unfold sort. apply (loop_NoDup _ _ _ _ _ []).
  - intros k n H. by apply nodeMap_buildMaps in H as [? _].
  - pose proof (keys_buildMaps_NoDup nodes edges) as Hnd.
    set (deg := inDegree (buildMaps nodes edges)) in *.
    split; simpl.
    + unfold initialQueue. rewrite <- list_fmap_compose.
      apply (sublist_NoDup _ (JsMap.keys deg)); [done|].
      unfold JsMap.keys.
      apply fmap_sublist, sublist_filter.
    + intros v Hv. unfold initialQueue in Hv.
      rewrite <- list_fmap_compose in Hv.
      apply list_elem_of_fmap in Hv as ([k d] & -> & Hkd).
      apply list_elem_of_filter in Hkd as [Hd Hkd]. simpl in *.
      unfold degree. rewrite (get_elem_of _ _ _ Hnd Hkd). simpl. lia.
  - apply sublist_nil_l.
Qed.
End SortNoDup.


(** ** Graphs: facts about paths, cycles and order *)

Section GraphFacts.
Implicit Types (edges : list Edge) (l : list string).

Lemma before_elem_of u v l : before u v l → u ∈ l ∧ v ∈ l.
Proof.
  intros (l1 & l2 & l3 & ->). split.
  - apply elem_of_app. right. left.
  - apply elem_of_app. right. right. apply elem_of_app. right. left.
Qed.

Lemma before_app_r u v l k : before u v l → before u v (l ++ k).
Proof.
  intros (l1 & l2 & l3 & ->). exists l1, l2, (l3 ++ k).
  by rewrite <- !app_assoc, <- !app_comm_cons, <- app_assoc.
Qed.

Lemma before_snoc u v l : u ∈ l → before u v (l ++ [v]).
Proof.
  intros (l1 & l2 & ->)%list_elem_of_split. exists l1, l2, [].
  by rewrite <- app_assoc.
Qed.

Lemma NoDup_split_unique l1 l2 k1 k2 (x : string) :
  NoDup (l1 ++ x :: l2) → l1 ++ x :: l2 = k1 ++ x :: k2 → l1 = k1 ∧ l2 = k2.
Proof.
  revert k1. induction l1 as [|a l1 IH]; intros k1 Hnd Heq.
  - destruct k1 as [|b k1]; simpl in *.
    + by injection Heq as ->.
    + injection Heq as <- ->. apply NoDup_cons in Hnd as [Hx _].
      exfalso. apply Hx, elem_of_app. right. left.
  - destruct k1 as [|b k1]; simpl in *.
    + injection Heq as -> <-. apply NoDup_cons in Hnd as [Hx _].
      exfalso. apply Hx, elem_of_app. right. left.
    + injection Heq as <- Heq. apply NoDup_cons in Hnd as [_ Hnd].
      destruct (IH k1 Hnd Heq) as [-> ->]. done.
Qed.

Lemma before_trans u v w l :
  NoDup l → before u v l → before v w l → before u w l.
Proof.
  intros Hnd (a1 & a2 & a3 & Ha) (b1 & b2 & b3 & Hb).
  assert (Heq : (a1 ++ u :: a2) ++ v :: a3 = b1 ++ v :: b2 ++ w :: b3).
  { rewrite <- Hb, Ha. by rewrite <- app_assoc. }
  apply NoDup_split_unique in Heq as [<- ->].
  - exists a1, (a2 ++ v :: b2), b3. rewrite Hb.
    by rewrite <- !app_assoc.
  - rewrite <- app_assoc. simpl. by rewrite <- Ha.
Qed.

Lemma before_irrefl u l : NoDup l → ¬ before u u l.
Proof.
  intros Hnd (l1 & l2 & l3 & ->).
  apply NoDup_app in Hnd as (_ & _ & Hnd).
  apply NoDup_cons in Hnd as [Hu _]. apply Hu, elem_of_app. right. left.
Qed.

(** An order in which every edge into an emitted id comes from an earlier
    id puts a whole path before its end, so it holds no id of a cycle. *)
Lemma ordered_path edges l u v :
  NoDup l →
  (∀ e, e ∈ edges → target e ∈ l → before (source e) (target e) l) →
  tc (edgeBetween edges) u v → v ∈ l → before u v l.
Proof.
  intros Hnd Hord Hpath. induction Hpath as [u v (e & He & <- & <-)|u w v (e & He & <- & <-) Hpath IH].
  - intros Hv. by apply Hord.
  - intros Hv. specialize (IH Hv).
    apply before_trans with (target e); [done| |done].
    apply Hord; [done|]. by apply before_elem_of in IH as [? _].
Qed.

Lemma ordered_no_cycle edges l x :
  NoDup l →
  (∀ e, e ∈ edges → target e ∈ l → before (source e) (target e) l) →
  tc (edgeBetween edges) x x → x ∉ l.
Proof.
  intros Hnd Hord Hcyc Hx.
  by apply (before_irrefl x l Hnd), (ordered_path edges).
Qed.

(** In a finite set without cycle some member has no predecessor in the
    set. *)
Lemma acyclic_minimal edges l :
  acyclic edges → l ≠ [] →
  ¬ ¬ ∃ m, m ∈ l ∧ ∀ u, u ∈ l → ¬ tc (edgeBetween edges) u m.
Proof.
  intros Hac. induction l as [|a l IH]; intros Hne Hno; [done|].
  destruct l as [|b l].
  - apply Hno. exists a. split; [left|].
    intros u ->%list_elem_of_singleton. apply Hac.
  - apply IH; [done|]. intros (m & Hm & Hmin).
    assert (Hem : ¬ ¬ (tc (edgeBetween edges) a m ∨ ¬ tc (edgeBetween edges) a m)) by tauto.
    apply Hem. intros [Ham|Ham]; apply Hno.
    + exists a. split; [left|].
      intros u [->|Hu]%elem_of_cons; [apply Hac|].
      intros Hua. apply (Hmin u Hu). by etrans.
    + exists m. split; [by right|].
      intros u [->|Hu]%elem_of_cons; [done|by apply Hmin].
Qed.

(** So a set in which every member has a predecessor in the set is empty when
    the graph has no cycle. *)
Lemma acyclic_no_closed_set edges l :
  acyclic edges →
  (∀ v, v ∈ l → ∃ u, u ∈ l ∧ edgeBetween edges u v) →
  l = [].
Proof.
  intros Hac Hpred. destruct l as [|a l]; [done|]. exfalso.
  apply (acyclic_minimal edges (a :: l)); [done..|].
  intros (m & Hm & Hmin).
  destruct (Hpred m Hm) as (u & Hu & Hedge).
  apply (Hmin u Hu). by apply tc_once.
Qed.

(** A rank that grows along every edge shows that there is no cycle. *)
Lemma ranked_acyclic edges (rank : string → nat) :
  (∀ e, e ∈ edges → (rank (source e) < rank (target e))%nat) → acyclic edges.
Proof.
  intros Hrank.
  assert (H : ∀ u v, tc (edgeBetween edges) u v → (rank u < rank v)%nat).
  { induction 1 as [u v (e & He & <- & <-)|u w v (e & He & <- & <-) _ IH].
    - by apply Hrank.
    - specialize (Hrank e He). lia. }
  intros x Hx. apply H in Hx. lia.
Qed.
End GraphFacts.

(** ** The scheduler: what the three maps hold *)

Section BuildMapsFacts.
Import TopologicalSort.
Implicit Types (m : Maps) (deg : JsMap.t Z) (edges : list Edge) (nodes : list Node).

(** The targets of the edges that leave [k], in the order of the edges. *)
Definition targetsFrom (edges : list Edge) (k : string) : list string :=
  target <$> filter (λ e, source e = k) edges.

Lemma elem_of_keys_set {V} (mp : JsMap.t V) k v x :
  x ∈ JsMap.keys (JsMap.set mp k v) ↔ x ∈ JsMap.keys mp ∨ x = k.
Proof.
  rewrite keys_set. case_decide.
  - split; [by left|]. by intros [?| ->].
  - rewrite elem_of_app, list_elem_of_singleton. done.
Qed.

Lemma get_Some_elem_of {V} (mp : JsMap.t V) k v :
  JsMap.get mp k = Some v → (k, v) ∈ mp.
Proof.
  induction mp as [|[k' v'] mp IH]; simpl; [done|].
  case_decide as Hk.
  - intros [= ->]. subst. left.
  - intros H. right. by apply IH.
Qed.

Lemma adjacencyList_initNodes nodes m k :
  adjacencyList (foldl initNode m nodes) !! k
  = if decide (k ∈ nodeIds nodes) then Some [] else adjacencyList m !! k.
Proof.
  unfold nodeIds. revert m. induction nodes as [|n nodes IH]; intros m; csimpl.
  - done.
  - rewrite IH. simpl. destruct (decide (k ∈ id <$> nodes)) as [Hin|Hin].
    + rewrite decide_True; [done|by right].
    + destruct (decide (id n = k)) as [<-|Hne].
      * rewrite lookup_insert_eq. rewrite decide_True; [done|left].
      * rewrite lookup_insert_ne by done.
        rewrite decide_False; [done|]. rewrite not_elem_of_cons. done.
Qed.

Lemma adjacencyList_addEdges edges m k :
  adjacencyList (foldl addEdge m edges) !! k
  = (λ l, l ++ targetsFrom edges k) <$> adjacencyList m !! k.
Proof.
  unfold targetsFrom. revert m. induction edges as [|e edges IH]; intros m; simpl.
  - destruct (adjacencyList m !! k); simpl; [|done]. by rewrite app_nil_r.
  - rewrite IH. simpl. rewrite filter_cons.
    destruct (decide (source e = k)) as [<-|Hne].
    + rewrite lookup_alter_eq. destruct (adjacencyList m !! source e); simpl; [|done].
      by rewrite <- app_assoc.
    + by rewrite lookup_alter_ne.
Qed.

Lemma adjacencyList_buildMaps nodes edges k :
  adjacencyList (buildMaps nodes edges) !! k
  = if decide (k ∈ nodeIds nodes) then Some (targetsFrom edges k) else None.
Proof.
  unfold buildMaps. rewrite adjacencyList_addEdges, adjacencyList_initNodes.
  simpl. case_decide; [done|]. by rewrite lookup_empty.
Qed.

Lemma degree_initNodes nodes m v :
  degree (inDegree m) v = 0 → degree (inDegree (foldl initNode m nodes)) v = 0.
Proof.
  intros H. apply (foldl_invariant (λ m', degree (inDegree m') v = 0)); [done|].
  intros m' n _ H'. simpl. destruct (decide (id n = v)) as [<-|Hne].
  - by rewrite degree_set_eq.
  - by rewrite degree_set_ne.
Qed.

Lemma degree_addEdges edges m v :
  degree (inDegree (foldl addEdge m edges)) v
  = degree (inDegree m) v + Z.of_nat (length (filter (λ e, target e = v) edges)).
Proof.
  revert m. induction edges as [|e edges IH]; intros m; simpl; [lia|].
  rewrite IH. simpl. rewrite filter_cons.
  destruct (decide (target e = v)) as [<-|Hne].
  - rewrite degree_set_eq. simpl. lia.
  - rewrite degree_set_ne by done. lia.
Qed.

(** The initial in-degree of an id is the number of edges into it. *)
Lemma degree_buildMaps nodes edges v :
  degree (inDegree (buildMaps nodes edges)) v
  = Z.of_nat (length (filter (λ e, target e = v) edges)).
Proof.
  unfold buildMaps. rewrite degree_addEdges, degree_initNodes; [lia|done].
Qed.

Lemma keys_buildMaps nodes edges v :
  v ∈ JsMap.keys (inDegree (buildMaps nodes edges))
  ↔ v ∈ nodeIds nodes ∨ v ∈ target <$> edges.
Proof.
  unfold buildMaps, nodeIds.
  assert (Hn : ∀ m, v ∈ JsMap.keys (inDegree (foldl initNode m nodes))
                    ↔ v ∈ JsMap.keys (inDegree m) ∨ v ∈ id <$> nodes).
  { induction nodes as [|n nodes IH]; intros m; csimpl.
    - rewrite elem_of_nil. tauto.
    - rewrite IH. simpl. rewrite elem_of_keys_set, elem_of_cons. tauto. }
  assert (He : ∀ m, v ∈ JsMap.keys (inDegree (foldl addEdge m edges))
                    ↔ v ∈ JsMap.keys (inDegree m) ∨ v ∈ target <$> edges).
  { induction edges as [|e edges IH]; intros m; csimpl.
    - rewrite elem_of_nil. tauto.
    - rewrite IH. simpl. rewrite elem_of_keys_set, elem_of_cons. tauto. }
  rewrite He, Hn. simpl. unfold JsMap.keys. csimpl. rewrite elem_of_nil. tauto.
Qed.

(** The ids that start in the queue: the keys of degree 0. *)
Lemma elem_of_initialQueue deg v :
  NoDup (JsMap.keys deg) →
  v ∈ itemId <$> initialQueue deg ↔ v ∈ JsMap.keys deg ∧ degree deg v = 0.
Proof.
  intros Hnd. unfold initialQueue. rewrite <- list_fmap_compose. split.
  - intros ([k d] & -> & Hkd)%list_elem_of_fmap.
    apply list_elem_of_filter in Hkd as [Hd Hkd]. simpl in *. split.
    + by apply (list_elem_of_fmap_2 fst) in Hkd.
    + unfold degree. by rewrite (get_elem_of _ _ _ Hnd Hkd).
  - intros [Hk Hd]. apply get_is_Some in Hk as [d Hget].
    unfold degree in Hd. rewrite Hget in Hd. simpl in Hd. subst d.
    apply list_elem_of_fmap. exists (v, 0). split; [done|].
    apply list_elem_of_filter. split; [done|by apply get_Some_elem_of].
Qed.
End BuildMapsFacts.

(** ** The scheduler on a graph whose edges join nodes *)

Section KahnInvariant.
Import TopologicalSort.
Variable nodes : list Node.
Variable edges : list Edge.
Hypothesis Hwf : endpointsIn nodes edges.

(** How often [v] occurs in a list of neighbours. *)
Definition occurrences (v : string) (ns : list string) : nat :=
  length (filter (λ x, x = v) ns).

(** The number of edges into [v] whose source is not in [E]. *)
Definition pending (E : list string) (v : string) : nat :=
  length (filter (λ e, target e = v ∧ source e ∉ E) edges).

Lemma occurrences_cons v n ns :
  occurrences v (n :: ns)
  = ((if decide (n = v) then 1 else 0) + occurrences v ns)%nat.
Proof. unfold occurrences. rewrite filter_cons. by case_decide. Qed.

Lemma occurrences_pos v ns : (0 < occurrences v ns)%nat → v ∈ ns.
Proof.
  unfold occurrences. intros H.
  destruct (filter (λ x, x = v) ns) as [|x l] eqn:Hf; [simpl in H; lia|].
  assert (Hx : x ∈ filter (λ x, x = v) ns) by (rewrite Hf; left).
  apply list_elem_of_filter in Hx as [-> ?]. done.
Qed.

Lemma elem_of_targetsFrom c v :
  v ∈ targetsFrom edges c → ∃ e, e ∈ edges ∧ source e = c ∧ target e = v.
Proof.
  unfold targetsFrom. intros (e & -> & He)%list_elem_of_fmap.
  apply list_elem_of_filter in He as [? ?]. by exists e.
Qed.

Lemma pending_snoc E c v :
  c ∉ E →
  pending E v = (pending (E ++ [c]) v + occurrences v (targetsFrom edges c))%nat.
Proof.
  intros Hc. unfold pending, occurrences, targetsFrom. clear Hwf.
  induction edges as [|e es IH]; [done|].
  rewrite !filter_cons.
  destruct (decide (source e = c)) as [Hs|Hs]; csimpl; rewrite ?filter_cons;
    repeat case_decide; simpl; try lia; exfalso;
    rewrite ?not_elem_of_app, ?list_elem_of_singleton in *;
    intuition congruence.
Qed.

Lemma pending_zero E v e :
  pending E v = 0%nat → e ∈ edges → target e = v → source e ∈ E.
Proof.
  unfold pending. intros H He Ht.
  destruct (decide (source e ∈ E)) as [|Hn]; [done|]. exfalso.
  assert (Hin : e ∈ filter (λ e, target e = v ∧ source e ∉ E) edges).
  { by apply list_elem_of_filter. }
  destruct (filter _ edges); [by apply elem_of_nil in Hin|simpl in H; lia].
Qed.

Lemma pending_pos E v :
  pending E v ≠ 0%nat → ∃ e, e ∈ edges ∧ target e = v ∧ source e ∉ E.
Proof.
  unfold pending. intros H.
  destruct (filter (λ e, target e = v ∧ source e ∉ E) edges) as [|e l] eqn:Hf; [done|].
  assert (He : e ∈ filter (λ e, target e = v ∧ source e ∉ E) edges) by (rewrite Hf; left).
  apply list_elem_of_filter in He as [[? ?] ?]. by exists e.
Qed.

(** What [neighbors.forEach] does to the degrees and to the queue, when no
    degree is smaller than the number of decrements it gets. *)
Lemma visitNeighbors_spec level ns deg queue :
  (∀ v, Z.of_nat (occurrences v ns) ≤ degree deg v) →
  (∀ v, degree (foldl (visitNeighbor level) (deg, queue) ns).1 v
        = degree deg v - Z.of_nat (occurrences v ns))
  ∧ ∃ l, (foldl (visitNeighbor level) (deg, queue) ns).2
         = queue ++ ((λ v, mkQueueItem v (level + 1)) <$> l)
         ∧ NoDup l
         ∧ ∀ v, v ∈ l ↔ (0 < occurrences v ns)%nat
                        ∧ degree deg v = Z.of_nat (occurrences v ns).
Proof.
  revert deg queue. induction ns as [|n ns IH]; intros deg queue Hle.
  - simpl. split; [intros v; unfold occurrences; simpl; lia|].
    exists []. split_and!; [by rewrite app_nil_r|constructor|].
    intros v. unfold occurrences. simpl. split; [by intros ?%elem_of_nil|lia].
  - assert (Hn := Hle n). rewrite occurrences_cons, decide_True in Hn by done.
    cbn [foldl].
    set (deg1 := JsMap.set deg n (degree deg n - 1)).
    assert (Hstep : visitNeighbor level (deg, queue) n
                    = (deg1, if decide (degree deg n - 1 = 0)
                             then queue ++ [mkQueueItem n (level + 1)]
                             else queue)) by done.
    rewrite Hstep. clear Hstep.
    assert (Hdeg1 : ∀ v, degree deg1 v
                         = if decide (n = v) then degree deg v - 1 else degree deg v).
    { intros v. unfold deg1. case_decide as Hv.
      - subst v. by rewrite degree_set_eq.
      - by rewrite degree_set_ne. }
    assert (Hle1 : ∀ v, Z.of_nat (occurrences v ns) ≤ degree deg1 v).
    { intros v. specialize (Hle v). rewrite occurrences_cons in Hle.
      rewrite Hdeg1. case_decide; lia. }
    destruct (decide (degree deg n - 1 = 0)) as [Hone|Hone].
    + destruct (IH deg1 (queue ++ [mkQueueItem n (level + 1)]) Hle1)
        as (Hd & l & Hq & Hnd & Hl).
      split.
      * intros v. rewrite Hd, Hdeg1, occurrences_cons. case_decide; lia.
      * exists (n :: l). split_and!.
        -- rewrite Hq. csimpl. by rewrite <- app_assoc.
        -- apply NoDup_cons. split; [|done].
           intros Hin. apply Hl in Hin as [Hpos Heq].
           rewrite Hdeg1, decide_True in Heq by done. lia.
        -- intros v. rewrite elem_of_cons, Hl, Hdeg1, occurrences_cons.
           case_decide as Hv; [subst v|].
           ++ split; [intros _; lia|by left].
           ++ split.
              ** intros [?|[? ?]]; [done|]. split; lia.
              ** intros [? ?]. right. split; lia.
    + destruct (IH deg1 queue Hle1) as (Hd & l & Hq & Hnd & Hl).
      split.
      * intros v. rewrite Hd, Hdeg1, occurrences_cons. case_decide; lia.
      * exists l. split_and!; [done..|].
        intros v. rewrite Hl, Hdeg1, occurrences_cons.
        case_decide as Hv; [subst v|]; split; intros [? ?]; split; lia.
Qed.
(** What holds of the degrees, the queue and the result at every turn of the
    loop: no id is in the result or the queue twice; the degree of an id is
    the number of edges into it from ids not yet emitted; an id of a node is
    in the result or the queue exactly when its degree is 0; and every edge
    into an emitted id comes from an id emitted earlier. *)
Definition kahnInvariant (deg : JsMap.t Z) (queue : list QueueItem)
    (result : list SortedNode) : Prop :=
  let E := getExecutionOrder result in
  let Q := itemId <$> queue in
  NoDup (E ++ Q)
  ∧ (∀ v, degree deg v = Z.of_nat (pending E v))
  ∧ (∀ v, v ∈ nodeIds nodes → (v ∈ E ++ Q ↔ degree deg v = 0))
  ∧ (∀ v, v ∈ E ++ Q → v ∈ nodeIds nodes)
  ∧ (∀ e, e ∈ edges → target e ∈ E → before (source e) (target e) E)
  ∧ (∀ sn, sn ∈ result → node sn ∈ nodes).

Lemma nodeMap_is_Some k :
  k ∈ nodeIds nodes → is_Some (nodeMap (buildMaps nodes edges) !! k).
Proof.
  unfold buildMaps.
  assert (Hedges : ∀ m, nodeMap (foldl addEdge m edges) = nodeMap m).
  { intros m. apply (foldl_invariant (λ m', nodeMap m' = nodeMap m)); [done|].
    by intros m' e _ <-. }
  rewrite Hedges. clear Hedges Hwf. unfold nodeIds.
  generalize (mkMaps ∅ ∅ []).
  induction nodes as [|n ns IH]; intros m Hk; [by apply elem_of_nil in Hk|].
  csimpl in Hk. apply elem_of_cons in Hk as [->|Hk]; simpl.
  - apply (foldl_invariant (λ m', is_Some (nodeMap m' !! id n))).
    + simpl. rewrite lookup_insert_eq. by eexists.
    + intros m' x _ Hm'. simpl. destruct (decide (id x = id n)) as [->|Hne].
      * rewrite lookup_insert_eq. by eexists.
      * by rewrite lookup_insert_ne.
  - by apply IH.
Qed.

Lemma kahn_step deg current queue result n :
  kahnInvariant deg (current :: queue) result →
  nodeMap (buildMaps nodes edges) !! itemId current = Some n →
  kahnInvariant
    (foldl (visitNeighbor (itemLevel current)) (deg, queue)
       (default [] (adjacencyList (buildMaps nodes edges) !! itemId current))).1
    (foldl (visitNeighbor (itemLevel current)) (deg, queue)
       (default [] (adjacencyList (buildMaps nodes edges) !! itemId current))).2
    (result ++ [mkSortedNode n (itemLevel current)]).
Proof.
  intros (Hnd & Hdeg & Hzero & Hids & Hord & Hres) Hn.
  apply nodeMap_buildMaps in Hn as [Hid Hnin].
  set (E := getExecutionOrder result) in *.
  set (Q := itemId <$> queue).
  set (c := itemId current) in *.
  assert (HEQ : itemId <$> current :: queue = c :: Q) by done.
  rewrite HEQ in Hnd, Hzero, Hids. clear HEQ.
  assert (Hcids : c ∈ nodeIds nodes).
  { apply Hids, elem_of_app. right. left. }
  assert (HcE : c ∉ E).
  { apply NoDup_app in Hnd as (_ & Hd & _). intros Hin. apply (Hd c Hin). left. }
  rewrite adjacencyList_buildMaps, decide_True by done. simpl default.
  assert (Hle : ∀ v, Z.of_nat (occurrences v (targetsFrom edges c)) ≤ degree deg v).
  { intros v. rewrite Hdeg, (pending_snoc E c v HcE). lia. }
  destruct (visitNeighbors_spec (itemLevel current) _ deg queue Hle)
    as (Hd & l & Hq & Hndl & Hl).
  rewrite Hq. clear Hq.
  assert (HE' : getExecutionOrder (result ++ [mkSortedNode n (itemLevel current)])
                = E ++ [c]).
  { unfold getExecutionOrder, E. rewrite fmap_app. simpl. by rewrite Hid. }
  assert (HQ' : itemId <$> queue ++ ((λ v, mkQueueItem v (itemLevel current + 1)) <$> l)
                = Q ++ l).
  { rewrite fmap_app, <- list_fmap_compose. f_equal.
    clear. induction l as [|x l IH]; csimpl; [done|]. by rewrite IH. }
  unfold kahnInvariant. rewrite HE', HQ'. clear HE' HQ'.
  assert (Hall : ∀ v, v ∈ (E ++ [c]) ++ Q ++ l ↔ v ∈ E ++ c :: Q ∨ v ∈ l).
  { intros v. rewrite !elem_of_app, !elem_of_cons, elem_of_nil. tauto. }
  assert (Hlids : ∀ v, v ∈ l → v ∈ nodeIds nodes).
  { intros v [Hpos _]%Hl. apply occurrences_pos, elem_of_targetsFrom in Hpos
      as (e & He & _ & <-). by apply Hwf. }
  split_and!.
  - replace ((E ++ [c]) ++ Q ++ l) with ((E ++ c :: Q) ++ l)
      by (by rewrite <- !app_assoc).
    apply NoDup_app. split_and!; [done| |done].
    intros v Hv Hvl. assert (Hvids := Hlids v Hvl).
    apply Hl in Hvl as [Hpos Heq]. apply Hzero in Hv; [lia|done].
  - intros v. rewrite Hd, Hdeg, (pending_snoc E c v HcE). lia.
  - intros v Hv. rewrite Hall, Hd, (Hzero v Hv), Hl.
    specialize (Hle v). lia.
  - intros v [Hv|Hv]%Hall; [by apply Hids|by apply Hlids].
  - intros e He [Ht|Ht%list_elem_of_singleton]%elem_of_app.
    + by apply before_app_r, Hord.
    + rewrite Ht. apply before_snoc. apply (pending_zero E c e); [|done..].
      assert (Hc0 : degree deg c = 0).
      { apply Hzero; [done|]. apply elem_of_app. right. left. }
      rewrite Hdeg in Hc0. lia.
  - intros sn [Hsn| ->%list_elem_of_singleton]%elem_of_app; [by apply Hres|done].
Qed.

Lemma kahn_loop fuel deg queue result r :
  kahnInvariant deg queue result →
  loop fuel (buildMaps nodes edges) deg queue result = Some r →
  ∃ deg', kahnInvariant deg' [] r.
Proof.
  revert deg queue result.
  induction fuel as [|fuel IH]; intros deg queue result Hinv;
    destruct queue as [|current queue]; simpl; try done.
  - intros [= <-]. by exists deg.
  - intros [= <-]. by exists deg.
  - destruct (nodeMap_is_Some (itemId current)) as [n Hn].
    { destruct Hinv as (_ & _ & _ & Hids & _). apply Hids, elem_of_app.
      right. left. }
    rewrite Hn. apply IH. by apply kahn_step.
Qed.

Lemma kahn_initial :
  kahnInvariant (inDegree (buildMaps nodes edges))
    (initialQueue (inDegree (buildMaps nodes edges))) [].
Proof.
  pose proof (keys_buildMaps_NoDup nodes edges) as Hnd.
  unfold kahnInvariant. simpl. split_and!.
  - unfold initialQueue. rewrite <- list_fmap_compose.
    apply (sublist_NoDup _ (JsMap.keys (inDegree (buildMaps nodes edges)))); [done|].
    unfold JsMap.keys. apply fmap_sublist, sublist_filter.
  - intros v. rewrite degree_buildMaps. unfold pending. do 2 f_equal.
    apply list_filter_iff. intros e. split; [|by intros [? _]].
    intros Ht. split; [done|apply not_elem_of_nil].
  - intros v Hv. rewrite (elem_of_initialQueue _ _ Hnd), keys_buildMaps. tauto.
  - intros v [Hv _]%(elem_of_initialQueue _ _ Hnd).
    apply keys_buildMaps in Hv as [Hv|Hv]; [done|].
    apply list_elem_of_fmap in Hv as (e & -> & He). by apply Hwf.
  - intros e _ Ht. by apply elem_of_nil in Ht.
  - intros sn Hsn. by apply elem_of_nil in Hsn.
Qed.

(** What [sort] returns on a graph whose edges join nodes: an order without
    repetition, made of nodes of the input, in which every edge into an
    emitted node comes from a node emitted earlier, and which leaves out
    exactly the ids still waiting for a predecessor. *)
Lemma sort_invariant sorted :
  sort nodes edges = Some sorted →
  let E := getExecutionOrder sorted in
  NoDup E
  ∧ (∀ v, v ∈ E → v ∈ nodeIds nodes)
  ∧ (∀ sn, sn ∈ sorted → node sn ∈ nodes)
  ∧ (∀ e, e ∈ edges → target e ∈ E → before (source e) (target e) E)
  ∧ (∀ v, v ∈ nodeIds nodes → v ∉ E →
          ∃ e, e ∈ edges ∧ target e = v ∧ source e ∉ E).
Proof.
  intros Hsort. unfold sort in Hsort.
  apply kahn_loop in Hsort as (deg & Hnd & Hdeg & Hzero & Hids & Hord & Hres);
    [|apply kahn_initial].
  simpl in *. rewrite app_nil_r in *. split_and!; try done.
  intros v Hv HvE. apply pending_pos. intros Hp.
  apply HvE, Hzero; [done|]. rewrite Hdeg, Hp. done.
Qed.
End KahnInvariant.

(** ** The scheduler: acyclic and cyclic graphs *)

Section SortResults.
Import TopologicalSort.

Lemma tc_edge_target edges x y :
  tc (edgeBetween edges) x y → ∃ e, e ∈ edges ∧ target e = y.
Proof.
  induction 1 as [x y (e & He & _ & Ht)|x w y _ _ IH]; [by exists e|done].
Qed.

(** C1.  On an acyclic graph whose nodes have distinct ids and whose edges
    join nodes, [sort] returns every node exactly once (the nodes of the
    result are a permutation of the input, and no id is repeated), and for
    every edge the source stands strictly before the target in the order. *)
Theorem sort_acyclic_topological nodes edges :
  NoDup (nodeIds nodes) →
  endpointsIn nodes edges →
  acyclic edges →
  ∃ sorted,
    sort nodes edges = Some sorted
    ∧ node <$> sorted ≡ₚ nodes
    ∧ NoDup (getExecutionOrder sorted)
    ∧ ∀ e, e ∈ edges → before (source e) (target e) (getExecutionOrder sorted).
Proof.
  intros Hids Hwf Hac.
  destruct (sort_total nodes edges) as [sorted Hsort].
  exists sorted. split; [done|].
  destruct (sort_invariant nodes edges Hwf sorted Hsort)
    as (Hnd & Hsub & Hres & Hord & Hwait).
  set (E := getExecutionOrder sorted) in *.
  assert (Hall : ∀ v, v ∈ nodeIds nodes → v ∈ E).
  { assert (Hnone : filter (λ v, v ∉ E) (nodeIds nodes) = []).
    { apply (acyclic_no_closed_set edges); [done|].
      intros v [HvE Hv]%list_elem_of_filter.
      destruct (Hwait v Hv HvE) as (e & He & Ht & Hs).
      exists (source e). split.
      - apply list_elem_of_filter. split; [done|]. by apply Hwf.
      - by exists e. }
    intros v Hv. destruct (decide (v ∈ E)) as [|HvE]; [done|]. exfalso.
    assert (Hin : v ∈ filter (λ v, v ∉ E) (nodeIds nodes))
      by (by apply list_elem_of_filter).
    rewrite Hnone in Hin. by apply elem_of_nil in Hin. }
  split_and!; [|done|].
  - apply submseteq_length_Permutation.
    + apply NoDup_submseteq.
      * apply (NoDup_fmap_1 id). by rewrite <- list_fmap_compose.
      * intros n (sn & -> & Hsn)%list_elem_of_fmap. by apply Hres.
    + rewrite length_fmap.
      assert (Hperm : E ≡ₚ nodeIds nodes) by (apply NoDup_Permutation; naive_solver).
      apply Permutation_length in Hperm. unfold E, getExecutionOrder, nodeIds in Hperm.
      rewrite !length_fmap in Hperm. lia.
  - intros e He. apply Hord; [done|]. by apply Hall, Hwf.
Qed.

End SortResults.

(** ** The validator: [detectCycles] always returns *)

Section DfsTotal.
Import GraphValidator.
Variable edges : list Edge.
Variable U : gset string.
Hypothesis HU : ∀ e, e ∈ edges → target e ∈ U.
Implicit Types (st : DfsState).

Lemma visitEdges_total (rec : string → DfsState → option (bool * DfsState))
    (bound : nat) nodeId out st :
  (∀ t st, t ∈ U → t ∉ visited st → (size (U ∖ visited st) ≤ bound)%nat →
           ∃ b st', rec t st = Some (b, st') ∧ visited st ⊆ visited st') →
  (∀ e, e ∈ out → target e ∈ U) →
  (size (U ∖ visited st) ≤ bound)%nat →
  ∃ b st', visitEdges rec nodeId out st = Some (b, st') ∧ visited st ⊆ visited st'.
Proof.
  intros Hrec. revert st. induction out as [|e out IH]; intros st Hout Hsize; simpl.
  - by eexists _, _.
  - assert (Hout' : ∀ e', e' ∈ out → target e' ∈ U).
    { intros e' He'. apply Hout. by right. }
    destruct (decide (target e ∉ visited st)) as [Hnew|Hold].
    + destruct (Hrec (target e) st) as (b & st' & -> & Hsub); [apply Hout; left|done..|].
      destruct b; [by eexists _, _|].
      destruct (IH st' Hout') as (b & st'' & -> & Hsub').
      * etrans; [|exact Hsize]. apply subseteq_size. set_solver.
      * exists b, st''. split; [done|]. set_solver.
    + destruct (decide (target e ∈ recursionStack st)); [by eexists _, _|].
      by apply IH.
Qed.

Lemma dfs_total fuel nodeId st :
  nodeId ∈ U → nodeId ∉ visited st → (size (U ∖ visited st) ≤ fuel)%nat →
  ∃ b st', dfs fuel edges nodeId st = Some (b, st') ∧ visited st ⊆ visited st'.
Proof.
  revert nodeId st. induction fuel as [|fuel IH]; intros nodeId st Hin Hnew Hsize.
  - assert (Hempty : U ∖ visited st ≡ ∅) by (apply size_empty_iff; lia).
    set_solver.
  - simpl.
    destruct (visitEdges_total (dfs fuel edges) fuel nodeId
                (filter (λ e, source e = nodeId) edges)
                {| visited := {[nodeId]} ∪ visited st;
                   recursionStack := {[nodeId]} ∪ recursionStack st;
                   path := path st ++ [nodeId] |})
      as (b & st' & Hres & Hsub).
    + intros t st0 Ht Hnew0 Hsize0. by apply IH.
    + intros e [_ He]%list_elem_of_filter. by apply HU.
    + simpl. assert (Hlt : (size (U ∖ ({[nodeId]} ∪ visited st))
                            < size (U ∖ visited st))%nat); [|lia].
      apply subset_size. set_solver.
    + exists b, st'. split; [done|]. simpl in Hsub. set_solver.
Qed.

Lemma checkEach_total fuel nodes st :
  (∀ n, n ∈ nodes → id n ∈ U) → (size U ≤ fuel)%nat →
  is_Some (checkEach fuel edges nodes st).
Proof.
  intros Hnodes Hsize. revert st.
  induction nodes as [|n nodes IH]; intros st; simpl; [by eexists|].
  assert (Hnodes' : ∀ n', n' ∈ nodes → id n' ∈ U).
  { intros n' Hn'. apply Hnodes. by right. }
  destruct (decide (id n ∉ visited st)) as [Hnew|Hold]; [|by apply IH].
  destruct (dfs_total fuel (id n) st) as (b & st' & -> & _); [apply Hnodes; left|done| |].
  - etrans; [|exact Hsize]. apply subseteq_size. set_solver.
  - destruct b; [by eexists|by apply IH].
Qed.
End DfsTotal.

Lemma size_list_to_set_le (l : list string) :
  (size (list_to_set l : gset string) ≤ length l)%nat.
Proof.
  induction l as [|x l IH]; [by rewrite list_to_set_nil, size_empty|].
  rewrite list_to_set_cons, size_union_alt, size_singleton. cbn [length].
  assert ((size (list_to_set l ∖ {[x]} : gset string)
           ≤ size (list_to_set l : gset string))%nat); [|lia].
  apply subseteq_size. set_solver.
Qed.

(** [detectCycles], [validateGraph] and [validate] return on every input. *)
Lemma detectCycles_total graph : is_Some (GraphValidator.detectCycles graph).
Proof.
  unfold GraphValidator.detectCycles.
  apply (checkEach_total _
           (list_to_set (nodeIds (GraphValidator.nodes graph)
                         ++ (target <$> GraphValidator.edges graph)))).
  - intros e He. apply elem_of_list_to_set, elem_of_app. right.
    by apply list_elem_of_fmap_2.
  - intros n Hn. apply elem_of_list_to_set, elem_of_app. left.
    by apply (list_elem_of_fmap_2 id).
  - etrans; [apply size_list_to_set_le|].
    rewrite length_app. unfold nodeIds. rewrite !length_fmap. lia.
Qed.

Lemma validateGraph_total graph : is_Some (GraphValidator.validateGraph graph).
Proof.
  unfold GraphValidator.validateGraph.
  destruct (GraphValidator.nodes graph); [by eexists|].
  destruct (detectCycles_total graph) as [r ->]. by eexists.
Qed.

(** ** The scheduler: the nodes that [sort] returns *)

Section SortNodes.
Variable nodes : list Node.
Variable edges : list Edge.

(** The nodes that [sort] returns are nodes of the input, so each id of the
    order is found among them. *)
Lemma loop_nodes fuel deg queue result r :
  (∀ sn, sn ∈ result → TopologicalSort.node sn ∈ nodes) →
  TopologicalSort.loop fuel (TopologicalSort.buildMaps nodes edges) deg queue result
  = Some r →
  ∀ sn, sn ∈ r → TopologicalSort.node sn ∈ nodes.
Proof.
  revert deg queue result.
  induction fuel as [|fuel IH]; intros deg queue result Hres;
    destruct queue as [|current queue]; simpl; try done.
  - by intros [= <-].
  - by intros [= <-].
  - apply IH.
    destruct (TopologicalSort.nodeMap _ !! _) as [n|] eqn:Hn; [|done].
    intros sn [Hsn| ->%list_elem_of_singleton]%elem_of_app; [by apply Hres|].
    simpl. by apply nodeMap_buildMaps in Hn as [_ ?].
Qed.

Lemma sort_found sorted m :
  TopologicalSort.sort nodes edges = Some sorted →
  m ∈ TopologicalSort.getExecutionOrder sorted → is_Some (findNode nodes m).
Proof.
  intros Hsort (sn & -> & Hsn)%list_elem_of_fmap.
  assert (Hin : TopologicalSort.node sn ∈ nodes).
  { eapply loop_nodes; [|exact Hsort|done]. by intros ? ?%elem_of_nil. }
  unfold findNode.
  destruct (List.find _ nodes) as [n|] eqn:Hfind; [by eexists|].
  apply list_elem_of_In in Hin.
  apply (find_none _ _ Hfind) in Hin. by rewrite bool_decide_eq_true_2 in Hin.
Qed.
End SortNodes.

(** ** The executor *)

Section ExecutorFacts.
Context {Value : Type}.
Variable notAFunction : Error.
Variable abortOn : GraphExecutor.Event Value → bool.
Variable throwOn : GraphExecutor.Event Value → option (Error + Value).

Import GraphExecutor.

Local Abbreviation execute := (GraphExecutor.execute notAFunction abortOn throwOn).

Implicit Types (ex : GraphExecutor.t Value) (ev : Event Value).

(** A call on an executor that is not running ends in the outer [catch]:
    [onError] gets the [TypeError], the promise is rejected (with the
    [TypeError], or with what [onError] threw), and the executor is idle
    again, with the context it had. *)
Lemma execute_idle nodes edges ctx :
  execute nodes edges (mk ctx false)
  = (OnError notAFunction
       :: (if abortOn (OnError notAFunction) then [CallAbort] else []),
     Rejected (default (inl notAFunction) (throwOn (OnError notAFunction))),
     mk (if abortOn (OnError notAFunction) then ExecutionContext.abort <$> ctx else ctx)
        false).
Proof.
  unfold GraphExecutor.execute, notifyExecutor. simpl.
  by destruct (abortOn (OnError notAFunction)).
Qed.

Lemma execute_running nodes edges ctx :
  execute nodes edges (mk ctx true)
  = ([], Rejected (inl (mkError "Graph execution already in progress")), mk ctx true).
Proof. done. Qed.

(** Nothing but [onError] with the [TypeError], and the caller's answer to
    it, is in the trace of a call. *)
Lemma execute_trace nodes edges ex ev :
  ev ∈ (execute nodes edges ex).1.1 → ev = OnError notAFunction ∨ ev = CallAbort.
Proof.
  destruct ex as [ctx [|]].
  - rewrite execute_running. simpl. by intros ?%elem_of_nil.
  - rewrite execute_idle. simpl. intros [->|Hev]%elem_of_cons; [by left|].
    right. destruct (abortOn _); [by apply list_elem_of_singleton in Hev|].
    by apply elem_of_nil in Hev.
Qed.




(** C4, as the code has it.  On scenario C [validateGraph] reports the
    cycle, but [execute] never asks it: the error that [onError] gets, and
    with which the call fails, is the [TypeError] of the call of
    [GraphValidator.validate], not the validation errors.  In every call,
    whatever the graph, [onError] gets no other error; no node starts, as
    the claim has it. *)
Theorem execute_validation_unreached :
  GraphValidator.validateGraph
    (GraphValidator.mkGraph None Scenario.nodesC Scenario.edgesC)
  = Some Scenario.validationC
  ∧ Scenario.run Scenario.quiet Scenario.nodesC Scenario.edgesC
    = ([OnError Scenario.missingValidate],
       Rejected (inl Scenario.missingValidate), Scenario.idle)
  ∧ ∀ nodes edges ex,
      (∀ e, OnError e ∈ (execute nodes edges ex).1.1 → e = notAFunction)
      ∧ (∀ n, OnNodeExecute n ∉ (execute nodes edges ex).1.1)
      ∧ (execute nodes edges (mk (context ex) false)).1.2
        = Rejected (default (inl notAFunction) (throwOn (OnError notAFunction))).
Proof.
  split_and!; [by vm_compute|by vm_compute|].
  intros nodes edges ex. split_and!.
  - intros e [[= ->]|?]%execute_trace; done.
  - intros n [?|?]%execute_trace; done.
  - by rewrite execute_idle.
Qed.


End ExecutorFacts.


(** ** ExecutionEngine: the scheduler with the deficit check *)

Lemma foldl_related {A B C} (R : A → B → Prop) (f : A → C → A) (g : B → C → B)
    (l : list C) (a : A) (b : B) :
  R a b → (∀ a b x, R a b → R (f a x) (g b x)) → R (foldl f a l) (foldl g b l).
Proof.
  intros Hab Hstep. revert a b Hab.
  induction l as [|x l IH]; intros a b Hab; simpl; [done|]. by apply IH, Hstep.
Qed.

Section EngineFacts.
Variable nodes : list Node.
Variable edges : list Edge.
Hypothesis Hwf : endpointsIn nodes edges.

Lemma engine_buildMaps :
  ExecutionEngine.graph (ExecutionEngine.buildMaps nodes edges)
  = TopologicalSort.adjacencyList (TopologicalSort.buildMaps nodes edges)
  ∧ ExecutionEngine.inDegree (ExecutionEngine.buildMaps nodes edges)
    = TopologicalSort.inDegree (TopologicalSort.buildMaps nodes edges).
Proof.
  unfold ExecutionEngine.buildMaps, TopologicalSort.buildMaps.
  apply (foldl_related
           (λ m1 m2, ExecutionEngine.graph m1 = TopologicalSort.adjacencyList m2
                     ∧ ExecutionEngine.inDegree m1 = TopologicalSort.inDegree m2)).
  - apply (foldl_related
             (λ m1 m2, ExecutionEngine.graph m1 = TopologicalSort.adjacencyList m2
                       ∧ ExecutionEngine.inDegree m1 = TopologicalSort.inDegree m2)).
    + done.
    + intros m1 m2 n [Hg Hd]. simpl. by rewrite Hg, Hd.
  - intros m1 m2 e [Hg Hd]. simpl. unfold TopologicalSort.degree. by rewrite Hg, Hd.
Qed.

Lemma degreeOrOne_degree (deg : JsMap.t Z) k :
  1 ≤ TopologicalSort.degree deg k →
  ExecutionEngine.degreeOrOne deg k = TopologicalSort.degree deg k.
Proof.
  unfold ExecutionEngine.degreeOrOne, TopologicalSort.degree.
  destruct (JsMap.get deg k) as [d|]; simpl; [|lia].
  intros Hd. by rewrite decide_False by lia.
Qed.

(** As long as no degree is smaller than the number of decrements it gets,
    the two loops over the neighbours do the same. *)
Lemma engine_visitNeighbors level ns (deg : JsMap.t Z)
    (queue : list TopologicalSort.QueueItem) :
  (∀ v, Z.of_nat (occurrences v ns) ≤ TopologicalSort.degree deg v) →
  foldl ExecutionEngine.visitNeighbor (deg, TopologicalSort.itemId <$> queue) ns
  = ((foldl (TopologicalSort.visitNeighbor level) (deg, queue) ns).1,
     TopologicalSort.itemId
       <$> (foldl (TopologicalSort.visitNeighbor level) (deg, queue) ns).2).
Proof.
  revert deg queue. induction ns as [|n ns IH]; intros deg queue Hle; [done|].
  assert (Hn := Hle n). rewrite occurrences_cons, decide_True in Hn by done.
  cbn [foldl].
  assert (Hstep : ExecutionEngine.visitNeighbor (deg, TopologicalSort.itemId <$> queue) n
                  = ((TopologicalSort.visitNeighbor level (deg, queue) n).1,
                     TopologicalSort.itemId
                       <$> (TopologicalSort.visitNeighbor level (deg, queue) n).2)).
  { unfold ExecutionEngine.visitNeighbor, TopologicalSort.visitNeighbor. simpl.
    rewrite degreeOrOne_degree by lia.
    case_decide; [|done]. by rewrite fmap_app. }
  rewrite Hstep.
  destruct (TopologicalSort.visitNeighbor level (deg, queue) n) as [deg1 queue1] eqn:Hv.
  simpl. apply IH.
  intros v. specialize (Hle v). rewrite occurrences_cons in Hle.
  unfold TopologicalSort.visitNeighbor in Hv. simpl in Hv. injection Hv as <- _.
  destruct (decide (n = v)) as [->|Hne].
  - rewrite degree_set_eq. lia.
  - rewrite degree_set_ne by done. lia.
Qed.

Lemma kahn_neighbors_le deg current queue result v :
  kahnInvariant nodes edges deg (current :: queue) result →
  Z.of_nat (occurrences v (targetsFrom edges (TopologicalSort.itemId current)))
  ≤ TopologicalSort.degree deg v.
Proof.
  intros (Hnd & Hdeg & _).
  rewrite Hdeg, (pending_snoc edges _ (TopologicalSort.itemId current) v); [lia|].
  apply NoDup_app in Hnd as (_ & Hd & _). intros Hin. apply (Hd _ Hin). left.
Qed.

(** On a graph whose edges join nodes the loop of [ExecutionEngine] emits
    the ids of the nodes that the loop of [TopologicalSort] emits. *)
Lemma engine_loop fuel deg queue result :
  kahnInvariant nodes edges deg queue result →
  ExecutionEngine.loop fuel
    (TopologicalSort.adjacencyList (TopologicalSort.buildMaps nodes edges))
    deg (TopologicalSort.itemId <$> queue) (TopologicalSort.getExecutionOrder result)
  = TopologicalSort.getExecutionOrder
      <$> TopologicalSort.loop fuel (TopologicalSort.buildMaps nodes edges)
            deg queue result.
Proof.
  revert deg queue result.
  induction fuel as [|fuel IH]; intros deg queue result Hinv;
    destruct queue as [|current queue]; try done.
  cbn [fmap list_fmap ExecutionEngine.loop TopologicalSort.loop].
  assert (Hc : TopologicalSort.itemId current ∈ nodeIds nodes).
  { destruct Hinv as (_ & _ & _ & Hids & _). apply Hids, elem_of_app. right. left. }
  destruct (nodeMap_is_Some nodes edges _ Hc) as [n Hn].
  rewrite Hn.
  rewrite (engine_visitNeighbors (TopologicalSort.itemLevel current)).
  2:{ intros v. rewrite adjacencyList_buildMaps, decide_True by done. simpl.
      by eapply kahn_neighbors_le. }
  simpl.
  rewrite <- IH by (by apply kahn_step).
  f_equal. unfold TopologicalSort.getExecutionOrder. rewrite fmap_app. simpl.
  by apply nodeMap_buildMaps in Hn as [-> _].
Qed.

Lemma length_inDegree :
  (length (TopologicalSort.inDegree (TopologicalSort.buildMaps nodes edges))
   ≤ length nodes)%nat.
Proof.
  pose proof (keys_buildMaps_NoDup nodes edges) as Hnd.
  assert (H : JsMap.keys (TopologicalSort.inDegree (TopologicalSort.buildMaps nodes edges))
              ⊆+ nodeIds nodes).
  { apply NoDup_submseteq; [done|]. intros v [?|Hv]%keys_buildMaps; [done|].
    apply list_elem_of_fmap in Hv as (e & -> & He). by apply Hwf. }
  apply submseteq_length in H. unfold JsMap.keys, nodeIds in H.
  by rewrite !length_fmap in H.
Qed.

(** With enough fuel for one turn per node the loop of [TopologicalSort]
    ends, and on a graph with a cycle it has emitted fewer nodes than
    there are. *)
Lemma loop_cyclic_deficit fuel :
  cyclic edges → (length nodes ≤ fuel)%nat →
  ∃ sorted,
    TopologicalSort.loop fuel (TopologicalSort.buildMaps nodes edges)
      (TopologicalSort.inDegree (TopologicalSort.buildMaps nodes edges))
      (TopologicalSort.initialQueue
         (TopologicalSort.inDegree (TopologicalSort.buildMaps nodes edges))) []
    = Some sorted
    ∧ (length sorted < length nodes)%nat.
Proof.
  intros [x Hx] Hfuel.
  destruct (loop_total fuel (TopologicalSort.buildMaps nodes edges)
              (TopologicalSort.inDegree (TopologicalSort.buildMaps nodes edges))
              (TopologicalSort.initialQueue
                 (TopologicalSort.inDegree (TopologicalSort.buildMaps nodes edges))) [])
    as [sorted Hloop].
  { etrans; [apply initialQueue_measure|]. pose proof length_inDegree. lia. }
  exists sorted. split; [done|].
  destruct (kahn_loop nodes edges Hwf _ _ _ _ _ (kahn_initial nodes edges Hwf) Hloop)
    as (deg & Hnd & _ & _ & Hids & Hord & _).
  simpl in *. rewrite app_nil_r in *.
  set (E := TopologicalSort.getExecutionOrder sorted) in *.
  assert (HxE : x ∉ E) by (by apply (ordered_no_cycle edges)).
  assert (Hxids : x ∈ nodeIds nodes).
  { destruct (tc_edge_target _ _ _ Hx) as (e & He & <-). by apply Hwf. }
  assert (Hle : (length (x :: E) ≤ length (nodeIds nodes))%nat).
  { apply submseteq_length, NoDup_submseteq.
    - by apply NoDup_cons.
    - intros v [->|Hv]%elem_of_cons; [done|by apply Hids]. }
  unfold E, TopologicalSort.getExecutionOrder, nodeIds in Hle. simpl in Hle.
  rewrite !length_fmap in Hle. lia.
Qed.

(** The scheduler of [ExecutionEngine], called without entry node on a graph
    with a cycle, throws the cycle error. *)
Lemma engine_rejects_cycle fuel :
  cyclic edges → (length nodes ≤ fuel)%nat →
  ExecutionEngine.getExecutionOrder fuel nodes edges None
  = Some (inr ExecutionEngine.cycleError).
Proof.
  intros Hcyc Hfuel.
  destruct (loop_cyclic_deficit fuel Hcyc Hfuel) as (sorted & Hloop & Hlt).
  unfold ExecutionEngine.getExecutionOrder.
  destruct engine_buildMaps as [-> ->].
  pose proof (engine_loop fuel _ _ [] (kahn_initial nodes edges Hwf)) as Heng.
  rewrite Hloop in Heng. simpl in Heng.
  assert (Hq : (filter (λ kd, kd.2 = 0)
                  (TopologicalSort.inDegree (TopologicalSort.buildMaps nodes edges))).*1
               = TopologicalSort.itemId
                   <$> TopologicalSort.initialQueue
                         (TopologicalSort.inDegree (TopologicalSort.buildMaps nodes edges))).
  { unfold TopologicalSort.initialQueue. by rewrite <- list_fmap_compose. }
  rewrite Hq, Heng. simpl.
  unfold TopologicalSort.getExecutionOrder. rewrite length_fmap.
  by rewrite decide_True.
Qed.
End EngineFacts.


(** ** The validator: every cycle among the nodes is found *)

Section DfsComplete.
Import GraphValidator.
Variable edges : list Edge.
Implicit Types (st : DfsState).

(** [dfs] has returned from [u]: it is visited and no longer on the
    recursion stack. *)
Definition finished st (u : string) : Prop :=
  u ∈ visited st ∧ u ∉ recursionStack st.

(** The ids from which [dfs] has returned lie on no cycle, and every edge
    from one of them leads to another of them. *)
Definition finishedClosed st : Prop :=
  ∀ u, finished st u →
       (∀ e, e ∈ edges → source e = u → finished st (target e))
       ∧ ¬ tc (edgeBetween edges) u u.

Lemma finished_reach st u x :
  finishedClosed st → finished st u → tc (edgeBetween edges) u x → finished st x.
Proof.
  intros HJ Hu Hpath.
  induction Hpath as [u x (e & He & <- & <-)|u y x (e & He & <- & <-) _ IH].
  - by apply (HJ _ Hu).
  - apply IH. by apply (HJ _ Hu).
Qed.

Lemma tc_first_edge u v :
  tc (edgeBetween edges) u v →
  ∃ e, e ∈ edges ∧ source e = u
       ∧ (target e = v ∨ tc (edgeBetween edges) (target e) v).
Proof.
  destruct 1 as [u v (e & He & <- & <-)|u y v (e & He & <- & <-) Hrest].
  - exists e. split_and!; [done..|by left].
  - exists e. split_and!; [done..|by right].
Qed.

(** What a call of [dfs] that finds no cycle leaves behind. *)
Definition returnsFalse (rec : string → DfsState → option (bool * DfsState)) : Prop :=
  ∀ t st st',
    rec t st = Some (false, st') →
    t ∉ visited st → recursionStack st ⊆ visited st → finishedClosed st →
    visited st ⊆ visited st' ∧ t ∈ visited st'
    ∧ recursionStack st' = recursionStack st ∧ finishedClosed st'.

Lemma visitEdges_false rec nodeId out st st' :
  returnsFalse rec →
  visitEdges rec nodeId out st = Some (false, st') →
  recursionStack st ⊆ visited st → finishedClosed st →
  ∃ st_end,
    visited st' = visited st_end
    ∧ recursionStack st' = recursionStack st_end ∖ {[nodeId]}
    ∧ visited st ⊆ visited st_end
    ∧ recursionStack st_end = recursionStack st
    ∧ finishedClosed st_end
    ∧ ∀ e, e ∈ out → finished st_end (target e).
Proof.
  intros Hrec. revert st.
  induction out as [|e out IH]; intros st Hrun Hstack HJ; simpl in Hrun.
  - injection Hrun as <-. exists st. split_and!; try done.
    by intros e ?%elem_of_nil.
  - destruct (decide (target e ∉ visited st)) as [Hnew|Hold].
    + destruct (rec (target e) st) as [[[] st1]|] eqn:Hcall; try done.
      destruct (Hrec _ _ _ Hcall Hnew Hstack HJ) as (Hsub & Hin & Hst & HJ1).
      destruct (IH st1 Hrun) as (st_end & Hv & Hs & Hsub' & Hst' & HJ' & Hout);
        [set_solver|done|].
      exists st_end. split_and!; try done; [set_solver|congruence|].
      intros e' [->|He']%elem_of_cons; [|by apply Hout].
      split; [set_solver|]. rewrite Hst', Hst. set_solver.
    + destruct (decide (target e ∈ recursionStack st)) as [Hon|Hoff]; [done|].
      destruct (IH st Hrun Hstack HJ) as (st_end & Hv & Hs & Hsub' & Hst' & HJ' & Hout).
      exists st_end. split_and!; try done.
      intros e' [->|He']%elem_of_cons; [|by apply Hout].
      split; [|by rewrite Hst']. apply dec_stable in Hold. set_solver.
Qed.

Lemma dfs_false fuel : returnsFalse (dfs fuel edges).
Proof.
  induction fuel as [|fuel IH]; intros n st st' Hrun Hnew Hstack HJ; [done|].
  simpl in Hrun.
  apply (visitEdges_false _ _ _ _ _ IH) in Hrun
    as (st_end & Hv & Hs & Hsub & Hst & HJ' & Hout); simpl in *.
  - assert (Hnstack : n ∉ recursionStack st) by set_solver.
    assert (Hstack' : recursionStack st' = recursionStack st).
    { rewrite Hs, Hst. set_solver. }
    split_and!; [set_solver|set_solver|done|].
    intros u [Hu Hnu].
    destruct (decide (u = n)) as [->|Hne].
    + assert (Hedges : ∀ e, e ∈ edges → source e = n → finished st_end (target e)).
      { intros e He Hsrc. apply Hout. by apply list_elem_of_filter. }
      split.
      * intros e He Hsrc. destruct (Hedges e He Hsrc) as [? ?].
        split; [by rewrite Hv|]. rewrite Hs. set_solver.
      * intros Hcyc.
        assert (Hfin : finished st_end n).
        { destruct (tc_first_edge _ _ Hcyc) as (e & He & Hsrc & [Htgt|Hrest]).
          - rewrite <- Htgt. by apply Hedges.
          - apply (finished_reach st_end (target e)); [done|by apply Hedges|done]. }
        destruct Hfin as [_ Hoff]. rewrite Hst in Hoff. set_solver.
    + assert (Hfin : finished st_end u).
      { split; [by rewrite <- Hv|]. rewrite Hst. rewrite Hstack' in Hnu. set_solver. }
      destruct (HJ' u Hfin) as [Hcl Hac]. split; [|done].
      intros e He Hsrc. destruct (Hcl e He Hsrc) as [? ?].
      split; [by rewrite Hv|]. rewrite Hs. set_solver.
  - set_solver.
  - intros u [Hu Hnu]. simpl in *.
    assert (Hfin : finished st u) by (split; set_solver).
    destruct (HJ u Hfin) as [Hcl Hac]. split; [|done].
    intros e He Hsrc. destruct (Hcl e He Hsrc) as [? ?]. split; simpl; set_solver.
Qed.

Lemma checkEach_false fuel nodes st r :
  checkEach fuel edges nodes st = Some r → hasCycle r = false →
  recursionStack st = ∅ → finishedClosed st →
  ∀ n, n ∈ nodes → ¬ tc (edgeBetween edges) (id n) (id n).
Proof.
  revert st. induction nodes as [|n nodes IH]; intros st Hrun Hr Hstack HJ;
    [by intros ? ?%elem_of_nil|].
  simpl in Hrun. destruct (decide (id n ∉ visited st)) as [Hnew|Hold].
  - destruct (dfs fuel edges (id n) st) as [[[] st']|] eqn:Hcall; try done.
    { by injection Hrun as <-. }
    destruct (dfs_false fuel _ _ _ Hcall Hnew) as (Hsub & Hin & Hst & HJ');
      [set_solver|done|].
    intros n' [->|Hn']%elem_of_cons.
    + apply (HJ' (id n)). split; [done|]. rewrite Hst, Hstack. set_solver.
    + apply (IH st' Hrun Hr); [by rewrite Hst|done..].
  - intros n' [->|Hn']%elem_of_cons.
    + apply (HJ (id n)). apply dec_stable in Hold. split; [done|].
      rewrite Hstack. set_solver.
    + by apply (IH st Hrun Hr).
Qed.

Lemma checkEach_true fuel nodes st r :
  checkEach fuel edges nodes st = Some r → hasCycle r = true →
  ∃ p, r = mkCycleResult true (Some p).
Proof.
  revert st. induction nodes as [|n nodes IH]; intros st Hrun Hr; simpl in Hrun.
  - by injection Hrun as <-.
  - destruct (decide (id n ∉ visited st)); [|by eapply IH].
    destruct (dfs fuel edges (id n) st) as [[[] st']|]; try done; [|by eapply IH].
    injection Hrun as <-. by eexists.
Qed.
End DfsComplete.

(** On a graph whose edges join nodes, a cycle makes [detectCycles] answer
    that there is one, and validation fail with [GRAPH_CYCLE_DETECTED]. *)
Lemma detectCycles_complete gid nodes edges :
  endpointsIn nodes edges → cyclic edges →
  ∃ p, GraphValidator.detectCycles (GraphValidator.mkGraph gid nodes edges)
       = Some (GraphValidator.mkCycleResult true (Some p)).
Proof.
  intros Hwf [x Hx].
  destruct (detectCycles_total (GraphValidator.mkGraph gid nodes edges)) as [r Hr].
  rewrite Hr. unfold GraphValidator.detectCycles in Hr. simpl in Hr.
  destruct (GraphValidator.hasCycle r) eqn:Hc.
  - destruct (checkEach_true _ _ _ _ _ Hr Hc) as [p ->]. by exists p.
  - exfalso.
    assert (Hxn : x ∈ nodeIds nodes).
    { destruct (tc_edge_target _ _ _ Hx) as (e & He & <-). by apply Hwf. }
    apply list_elem_of_fmap in Hxn as (n & -> & Hn).
    apply (checkEach_false _ _ _ _ _ Hr Hc) with n; try done.
    intros u [Hu _]. simpl in Hu. set_solver.
Qed.

Lemma validateGraph_cyclic gid nodes edges :
  endpointsIn nodes edges → cyclic edges →
  ∃ validation p,
    GraphValidator.validateGraph (GraphValidator.mkGraph gid nodes edges)
    = Some validation
    ∧ GraphValidator.valid validation = false
    ∧ GraphValidator.mkValidationError "Graph contains cycles" "GRAPH_CYCLE_DETECTED"
        (GraphValidator.DCycle (Some p))
      ∈ GraphValidator.errors validation.
Proof.
  intros Hwf Hcyc.
  destruct (detectCycles_complete gid nodes edges Hwf Hcyc) as [p Hp].
  unfold GraphValidator.validateGraph. simpl.
  destruct nodes as [|n nodes].
  - exfalso. destruct Hcyc as [x Hx].
    destruct (tc_edge_target _ _ _ Hx) as (e & He & _).
    destruct (Hwf e He) as [Hs _]. by apply elem_of_nil in Hs.
  - rewrite Hp. simpl. eexists _, p. split; [done|]. simpl. split.
    + apply bool_decide_eq_false. intros Heq.
      apply app_eq_nil in Heq as [_ Heq]. by apply app_eq_nil in Heq as [_ Heq].
    + rewrite !elem_of_app. right. right. left.
Qed.

(** ** Cyclic graphs and the schedulers *)




(** ** The path that the validator reports *)

(** C8.  On the cycle with a lead-in ([A] to [B], [B] to [C], [C] to [B])
    [validateGraph] fails with [GRAPH_CYCLE_DETECTED], as validation does on
    every graph with a cycle ([validateGraph_cyclic]); but the path it carries is the whole
    stack of the search followed by the node that closes the cycle,
    [A; B; C; B]: every id is joined to the next by an edge, yet the path
    starts at [A] and ends at [B], so it is not itself a cycle. *)
Theorem validateGraph_lasso_path :
  cyclic Scenario.lassoEdges
  ∧ GraphValidator.validateGraph
      (GraphValidator.mkGraph None Scenario.lassoNodes Scenario.lassoEdges)
    = Some (GraphValidator.mkValidationResult false
              [GraphValidator.mkValidationError "Graph contains cycles"
                 "GRAPH_CYCLE_DETECTED"
                 (GraphValidator.DCycle (Some ["A"; "B"; "C"; "B"]))]
              [])
  ∧ (∀ i u v, ["A"; "B"; "C"; "B"] !! i = Some u →
              ["A"; "B"; "C"; "B"] !! S i = Some v →
              edgeBetween Scenario.lassoEdges u v)
  ∧ ¬ closedPath Scenario.lassoEdges ["A"; "B"; "C"; "B"].
Proof.
  split_and!.
  - exists "B". apply tc_l with "C"; [|apply tc_once].
    + exists (Scenario.edge "B" "C"). split_and!; [right; left|done|done].
    + exists (Scenario.edge "C" "B"). split_and!; [right; right; left|done|done].
  - by vm_compute.
  - intros [|[|[|[|i]]]] u v; simpl; intros [= <-] [= <-].
    + exists (Scenario.edge "A" "B"). split_and!; [left|done|done].
    + exists (Scenario.edge "B" "C"). split_and!; [right; left|done|done].
    + exists (Scenario.edge "C" "B"). split_and!; [right; right; left|done|done].
  - by intros [? _].
Qed.

(** ** The scenarios, checked *)

(** Scenario B satisfies the premises of the sorting theorem: [A] and [B]
    come before [C]. *)
Lemma sort_scenario_B :
  NoDup (nodeIds Scenario.nodesB)
  ∧ endpointsIn Scenario.nodesB Scenario.edgesB
  ∧ acyclic Scenario.edgesB
  ∧ ∃ sorted,
      TopologicalSort.sort Scenario.nodesB Scenario.edgesB = Some sorted
      ∧ TopologicalSort.node <$> sorted ≡ₚ Scenario.nodesB
      ∧ NoDup (TopologicalSort.getExecutionOrder sorted)
      ∧ ∀ e, e ∈ Scenario.edgesB →
             before (source e) (target e) (TopologicalSort.getExecutionOrder sorted).
Proof.
  assert (H1 : NoDup (nodeIds Scenario.nodesB)) by compute_done.
  assert (H2 : endpointsIn Scenario.nodesB Scenario.edgesB).
  { unfold endpointsIn. apply Forall_forall. compute_done. }
  assert (H3 : acyclic Scenario.edgesB).
  { apply (ranked_acyclic _ Scenario.rankB), Forall_forall. compute_done. }
  refine (conj H1 (conj H2 (conj H3 _))).
  exact (sort_acyclic_topological Scenario.nodesB Scenario.edgesB H1 H2 H3).
Defined.



(** A context for the three nodes of the chain in which [B] is recorded as
    completed and [A] as failed. *)
Lemma progress_of_recordings :
  NoDup (id <$> Scenario.chainNodes)
  ∧ ["A"; "B"; "C"] ≡ₚ id <$> Scenario.chainNodes
  ∧ NoDup (ExecutionContext.callNodeId <$> Scenario.recordings)
  ∧ (∀ c, c ∈ Scenario.recordings → ExecutionContext.callNodeId c ∈ ["A"; "B"; "C"])
  ∧ let ctx := ExecutionContext.applyCalls
                 (ExecutionContext.new Scenario.chainNodes ["A"; "B"; "C"])
                 Scenario.recordings in
    let p := ExecutionContext.getProgress ctx in
    (∀ x, x ∈ ExecutionContext.completed p → x ∉ ExecutionContext.failed p)
    ∧ (∀ x, x ∈ ExecutionContext.completed p → x ∉ ExecutionContext.remaining p)
    ∧ (∀ x, x ∈ ExecutionContext.failed p → x ∉ ExecutionContext.remaining p)
    ∧ (length (ExecutionContext.completed p) + length (ExecutionContext.failed p)
       + length (ExecutionContext.remaining p) = ExecutionContext.totalNodes p)%nat
    ∧ ExecutionContext.clear ctx
      = ExecutionContext.new Scenario.chainNodes ["A"; "B"; "C"]
    ∧ ExecutionContext.completed (ExecutionContext.progress (ExecutionContext.clear ctx))
      = []
    ∧ ExecutionContext.failed (ExecutionContext.progress (ExecutionContext.clear ctx))
      = []
    ∧ ExecutionContext.remaining (ExecutionContext.progress (ExecutionContext.clear ctx))
      = ["A"; "B"; "C"]
    ∧ ExecutionContext.aborted (ExecutionContext.clear ctx) = false.
Proof.
  assert (H1 : NoDup (id <$> Scenario.chainNodes)) by compute_done.
  assert (H2 : ["A"; "B"; "C"] ≡ₚ id <$> Scenario.chainNodes) by done.
  assert (H3 : NoDup (ExecutionContext.callNodeId <$> Scenario.recordings))
    by compute_done.
  assert (H4 : ∀ c, c ∈ Scenario.recordings →
                    ExecutionContext.callNodeId c ∈ ["A"; "B"; "C"]).
  { apply Forall_forall. compute_done. }
  refine (conj H1 (conj H2 (conj H3 (conj H4 _)))).
  exact (progress_partition Scenario.chainNodes ["A"; "B"; "C"] Scenario.recordings
           H1 H2 H3 H4).
Defined.

(** * Further properties of the code *)

(** ** ExecutionContext: inputs, records and counts *)

Section ContextExtras.
Context {Value : Type}.
Implicit Types (ctx : ExecutionContext.t Value) (e : Edge) (k : string).
Implicit Types (inputs : gmap string Value) (v : Value).

Lemma foldl_addInput_other ctx es inputs k :
  (∀ e v, e ∈ es → contributes ctx e v → ExecutionContext.inputKey e ≠ k) →
  foldl (ExecutionContext.addInput ctx) inputs es !! k = inputs !! k.
Proof.
  revert inputs. induction es as [|e es IH]; intros inputs Hne; simpl; [done|].
  rewrite IH by (intros e' v' ?; apply Hne; by right).
  destruct (contributes_dec ctx e) as [[w Hw]|Hno].
  - rewrite (addInput_contributes _ _ _ _ Hw), lookup_insert_ne; [done|].
    apply (Hne e w); [left|done].
  - by rewrite addInput_skips.
Qed.

(** When several edges into a node resolve to the same key, the entry holds
    the data of the last of them whose source has a recorded output without
    error: [inputs.set] overwrites. *)
Theorem getNodeInputs_last_wins ctx nodeId l1 e l2 v :
  target e = nodeId →
  contributes ctx e v →
  (∀ e' v', e' ∈ l2 → target e' = nodeId → contributes ctx e' v' →
            ExecutionContext.inputKey e' ≠ ExecutionContext.inputKey e) →
  ExecutionContext.getNodeInputs ctx nodeId (l1 ++ e :: l2)
  !! ExecutionContext.inputKey e = Some v.
Proof.
  intros Ht Hc Hlater. unfold ExecutionContext.getNodeInputs.
  rewrite filter_app, filter_cons_True by done.
  rewrite foldl_app. cbn [foldl].
  rewrite foldl_addInput_other.
  - by rewrite (addInput_contributes _ _ _ _ Hc), lookup_insert_eq.
  - intros e' v' [? ?]%list_elem_of_filter ?. by apply (Hlater e' v').
Qed.

(** What [setNodeOutput] records is what [getNodeOutput] returns for that
    node, whatever was recorded for it before; the records of the other
    nodes are not touched. *)
Theorem setNodeOutput_getNodeOutput now ctx nodeId d err m :
  ExecutionContext.getNodeOutput
    (ExecutionContext.setNodeOutput now ctx nodeId d err) m
  = if decide (m = nodeId)
    then Some (ExecutionContext.mkNodeOutput nodeId d now err)
    else ExecutionContext.getNodeOutput ctx m.
Proof.
  unfold ExecutionContext.getNodeOutput, ExecutionContext.setNodeOutput. simpl.
  destruct (decide (m = nodeId)) as [->|Hne].
  - by rewrite lookup_insert_eq.
  - by rewrite lookup_insert_ne.
Qed.

Lemma addInput_failed now ctx nodeId d err inputs e :
  ExecutionContext.addInput
    (ExecutionContext.setNodeOutput now ctx nodeId d (Some err)) inputs e
  = if decide (source e = nodeId) then inputs
    else ExecutionContext.addInput ctx inputs e.
Proof.
  unfold ExecutionContext.addInput, ExecutionContext.setNodeOutput. simpl.
  destruct (decide (source e = nodeId)) as [->|Hne].
  - by rewrite lookup_insert_eq.
  - by rewrite lookup_insert_ne.
Qed.

(** Once a node is recorded with an error, every node gets the inputs it
    would get if the edges that leave the failed node were not there: the
    failure hides also an output recorded for the node before. *)
Theorem setNodeOutput_error_hides_edges now ctx nodeId d err m (edges : list Edge) :
  ExecutionContext.getNodeInputs
    (ExecutionContext.setNodeOutput now ctx nodeId d (Some err)) m edges
  = ExecutionContext.getNodeInputs ctx m (filter (λ e, source e ≠ nodeId) edges).
Proof.
  unfold ExecutionContext.getNodeInputs.
  generalize (∅ : gmap string Value).
  induction edges as [|e edges IH]; intros inputs; [done|].
  rewrite !filter_cons.
  destruct (decide (target e = m)) as [Ht|Ht];
    destruct (decide (source e ≠ nodeId)) as [Hs|Hs].
  - rewrite filter_cons_True by done. cbn [foldl].
    rewrite IH, addInput_failed. by rewrite decide_False.
  - cbn [foldl]. rewrite IH, addInput_failed.
    rewrite decide_True; [done|]. by destruct (decide (source e = nodeId)).
  - rewrite filter_cons_False by done. apply IH.
  - apply IH.
Qed.

Lemma indexOf_not_elem (l : list string) x :
  x ∉ l → ExecutionContext.indexOf l x = -1.
Proof.
  induction l as [|y l IH]; [done|].
  intros [Hne Hl]%not_elem_of_cons. simpl.
  rewrite decide_False by done. rewrite (IH Hl). by rewrite decide_True.
Qed.

(** [indexOf] finds the first occurrence. *)
Lemma indexOf_first (l : list string) x :
  x ∈ l →
  ∃ l1 l2, l = l1 ++ x :: l2 ∧ (x ∉ l1)
           ∧ ExecutionContext.indexOf l x = Z.of_nat (length l1).
Proof.
  induction l as [|y l IH]; intros Hin; [by apply elem_of_nil in Hin|].
  simpl. destruct (decide (y = x)) as [->|Hne].
  - exists [], l. split_and!; [done|apply not_elem_of_nil|done].
  - apply elem_of_cons in Hin as [->|Hin]; [done|].
    destruct (IH Hin) as (l1 & l2 & -> & Hnot & Hidx).
    exists (y :: l1), l2. split_and!; [done| |].
    + apply not_elem_of_cons. split; [congruence|done].
    + rewrite Hidx. rewrite decide_False by lia. simpl length. lia.
Qed.

(** [setNodeOutput] leaves [totalNodes] as it is and appends the node to
    [completed] when there is no error and to [failed] when there is one,
    the other of the two lists staying as it is.  It takes the node out of
    [remaining] only when it is there, and then its first occurrence alone:
    recording a node that is not remaining (a second record for the same
    node, or an id that is not in the execution order) leaves [remaining] as
    it is, so the three lists then hold one id more than before. *)
Theorem setNodeOutput_counts now ctx nodeId d err :
  ExecutionContext.totalNodes
    (ExecutionContext.progress (ExecutionContext.setNodeOutput now ctx nodeId d err))
  = ExecutionContext.totalNodes (ExecutionContext.progress ctx)
  ∧ ExecutionContext.completed
      (ExecutionContext.progress (ExecutionContext.setNodeOutput now ctx nodeId d err))
    = match err with
      | None => ExecutionContext.completed (ExecutionContext.progress ctx) ++ [nodeId]
      | Some _ => ExecutionContext.completed (ExecutionContext.progress ctx)
      end
  ∧ ExecutionContext.failed
      (ExecutionContext.progress (ExecutionContext.setNodeOutput now ctx nodeId d err))
    = match err with
      | None => ExecutionContext.failed (ExecutionContext.progress ctx)
      | Some _ => ExecutionContext.failed (ExecutionContext.progress ctx) ++ [nodeId]
      end
  ∧ (nodeId ∈ ExecutionContext.remaining (ExecutionContext.progress ctx) →
     ∃ l1 l2,
       ExecutionContext.remaining (ExecutionContext.progress ctx) = l1 ++ nodeId :: l2
       ∧ (nodeId ∉ l1)
       ∧ ExecutionContext.remaining
           (ExecutionContext.progress
              (ExecutionContext.setNodeOutput now ctx nodeId d err))
         = l1 ++ l2)
  ∧ (nodeId ∉ ExecutionContext.remaining (ExecutionContext.progress ctx) →
     ExecutionContext.remaining
       (ExecutionContext.progress (ExecutionContext.setNodeOutput now ctx nodeId d err))
     = ExecutionContext.remaining (ExecutionContext.progress ctx)).
Proof.
  split_and!.
  - done.
  - unfold ExecutionContext.setNodeOutput. simpl. by destruct err.
  - unfold ExecutionContext.setNodeOutput. simpl. by destruct err.
  - intros Hin. destruct (indexOf_first _ _ Hin) as (l1 & l2 & Hsplit & Hnot & Hidx).
    exists l1, l2. split_and!; [done..|].
    unfold ExecutionContext.setNodeOutput. simpl.
    rewrite Hidx, decide_True by lia. rewrite Nat2Z.id, Hsplit.
    apply delete_middle.
  - intros Hnot. unfold ExecutionContext.setNodeOutput. simpl.
    rewrite (indexOf_not_elem _ _ Hnot). by rewrite decide_False.
Qed.

Lemma foldl_addInput_clear ctx es inputs :
  foldl (ExecutionContext.addInput (ExecutionContext.clear ctx)) inputs es = inputs.
Proof.
  revert inputs. induction es as [|e es IH]; intros inputs; [done|].
  simpl. rewrite IH. unfold ExecutionContext.addInput. simpl.
  by rewrite lookup_empty.
Qed.

(** [clear()] forgets every record and the abort: afterwards no node has an
    output, no node has an input, the context is not aborted, and clearing
    again changes nothing. *)
Theorem clear_forgets ctx nodeId (edges : list Edge) :
  ExecutionContext.getNodeOutput (ExecutionContext.clear ctx) nodeId = None
  ∧ ExecutionContext.getNodeInputs (ExecutionContext.clear ctx) nodeId edges = ∅
  ∧ ExecutionContext.isAborted (ExecutionContext.clear (ExecutionContext.abort ctx))
    = false
  ∧ ExecutionContext.clear (ExecutionContext.abort ctx) = ExecutionContext.clear ctx
  ∧ ExecutionContext.clear (ExecutionContext.clear ctx) = ExecutionContext.clear ctx.
Proof.
  split_and!; [apply lookup_empty|apply foldl_addInput_clear|done..].
Qed.
End ContextExtras.

(** ** The validator: what [detectCycles] reports is there *)

Section LinkedFacts.
Variable edges : list Edge.
Implicit Types (p q : list string).

Lemma linked_nil : linked edges [].
Proof. by intros i u v ?. Qed.

Lemma linked_singleton x : linked edges [x].
Proof. intros [|i] u v ? ?; done. Qed.

Lemma linked_snoc p v :
  linked edges p →
  (p = [] ∨ ∃ u, last p = Some u ∧ edgeBetween edges u v) →
  linked edges (p ++ [v]).
Proof.
  intros Hp Hlast i u w Hu Hw.
  destruct (decide (S i < length p)%nat) as [Hlt|Hge].
  - rewrite lookup_app_l in Hu by lia. rewrite lookup_app_l in Hw by lia.
    by apply (Hp i).
  - destruct Hlast as [->|(u' & Hu' & Hedge)].
    + destruct i; simpl in *; [done|]. by destruct i.
    + assert (Hi : S i = length p).
      { apply lookup_lt_Some in Hw. rewrite length_app in Hw. simpl in Hw. lia. }
      rewrite lookup_app_r in Hw by lia.
      replace (S i - length p)%nat with 0%nat in Hw by lia. injection Hw as <-.
      rewrite lookup_app_l in Hu by lia.
      rewrite last_lookup in Hu'.
      replace (pred (length p)) with i in Hu' by lia. congruence.
Qed.

Lemma linked_tail x p : linked edges (x :: p) → linked edges p.
Proof. intros H i u v Hu Hv. by apply (H (S i)). Qed.

Lemma linked_drop n p : linked edges p → linked edges (drop n p).
Proof.
  intros H i u v Hu Hv. rewrite lookup_drop in Hu, Hv.
  apply (H (n + i)%nat); [done|]. by rewrite <- Nat.add_succ_r.
Qed.

(** A linked path with at least two ids joins its first id to its last. *)
Lemma linked_tc x mid y :
  linked edges (x :: mid ++ [y]) → tc (edgeBetween edges) x y.
Proof.
  revert x. induction mid as [|z mid IH]; intros x H.
  - apply tc_once. by apply (H 0%nat).
  - apply tc_l with z; [by apply (H 0%nat)|].
    apply IH. by apply linked_tail in H.
Qed.
End LinkedFacts.

Section DfsSound.
Import GraphValidator.
Variable edges : list Edge.
Implicit Types (st : DfsState).

(** The path is the stack of the search: linked, without repetition, and
    holding exactly the ids of the recursion stack, all of them visited. *)
Definition onStack st : Prop :=
  linked edges (path st)
  ∧ recursionStack st ≡ list_to_set (path st)
  ∧ recursionStack st ⊆ visited st
  ∧ NoDup (path st).

(** A search that found no cycle leaves the path and the stack as they
    were. *)
Definition restored (p : list string) (stack visit : gset string) st' : Prop :=
  path st' = p ∧ recursionStack st' ≡ stack
  ∧ visit ⊆ visited st' ∧ onStack st'.

Definition soundSearch (rec : string → DfsState → option (bool * DfsState)) : Prop :=
  ∀ t st b st',
    onStack st → t ∉ visited st →
    (path st = [] ∨ ∃ u, last (path st) = Some u ∧ edgeBetween edges u t) →
    rec t st = Some (b, st') →
    if b
    then ∃ q x, path st' = path st ++ t :: q ++ [x] ∧ x ∈ path st ++ t :: q
                ∧ linked edges (path st') ∧ NoDup (path st ++ t :: q)
    else restored (path st) (recursionStack st) (visited st) st'.

Lemma visitEdges_sound rec nodeId out st p0 b st' :
  soundSearch rec →
  onStack st → path st = p0 ++ [nodeId] →
  (∀ e, e ∈ out → e ∈ edges ∧ source e = nodeId) →
  visitEdges rec nodeId out st = Some (b, st') →
  if b
  then ∃ q x, path st' = path st ++ q ++ [x] ∧ x ∈ path st ++ q
              ∧ linked edges (path st') ∧ NoDup (path st ++ q)
  else path st' = p0
       ∧ recursionStack st' ≡ recursionStack st ∖ {[nodeId]}
       ∧ visited st ⊆ visited st'.
Proof.
  intros Hrec. revert st.
  induction out as [|e out IH]; intros st Hst Hpath Hout; simpl.
  - intros [= <- <-]. simpl. rewrite Hpath, removelast_last. by split_and!.
  - assert (Hlast : last (path st) = Some nodeId) by (by rewrite Hpath, last_snoc).
    assert (Hedge : edgeBetween edges nodeId (target e)).
    { destruct (Hout e) as [? ?]; [left|]. by exists e. }
    assert (Hout' : ∀ e', e' ∈ out → e' ∈ edges ∧ source e' = nodeId).
    { intros e' ?. apply Hout. by right. }
    destruct (decide (target e ∉ visited st)) as [Hnew|Hold].
    + destruct (rec (target e) st) as [[[] st1]|] eqn:Hcall; [| |done].
      * intros [= <- <-].
        apply Hrec in Hcall; [|done|done|right; by exists nodeId].
        destruct Hcall as (q & x & Hp & Hx & Hl & Hnd).
        exists (target e :: q), x. done.
      * apply Hrec in Hcall; [|done|done|right; by exists nodeId].
        destruct Hcall as (Hp & Hs & Hv & Hst1).
        intros Hrest. apply IH in Hrest; [|done|by rewrite Hp|done].
        destruct b.
        -- destruct Hrest as (q & x & Hp' & Hx & Hl & Hnd).
           exists q, x. by rewrite <- Hp.
        -- destruct Hrest as (Hp' & Hs' & Hv').
           split_and!; [done|by rewrite Hs', Hs|set_solver].
    + destruct (decide (target e ∈ recursionStack st)) as [Hin|Hnotin].
      * intros [= <- <-]. simpl. destruct Hst as (Hl & Hs & Hsub & Hnd).
        exists [], (target e). rewrite !app_nil_r. split_and!; [done| | |done].
        -- rewrite Hs in Hin. by apply elem_of_list_to_set in Hin.
        -- apply linked_snoc; [done|]. right. by exists nodeId.
      * by apply IH.
Qed.

Lemma dfs_sound fuel : soundSearch (dfs fuel edges).
Proof.
  induction fuel as [|fuel IH]; intros t st b st' Hst Ht Hlast; [done|].
  simpl. intros Hrun.
  destruct Hst as (Hl & Hs & Hsub & Hnd).
  assert (Htp : t ∉ path st).
  { intros Hin. apply Ht, Hsub. rewrite Hs. by apply elem_of_list_to_set. }
  eapply (visitEdges_sound _ _ _ _ (path st)) in Hrun; [|done| |done|].
  - simpl in Hrun. destruct b.
    + destruct Hrun as (q & x & Hp & Hx & Hl' & Hnd').
      exists q, x. by rewrite <- !app_assoc in Hp, Hx, Hnd'.
    + destruct Hrun as (Hp & Hs' & Hv). simpl in Hs', Hv.
      assert (Hstack : recursionStack st' ≡ recursionStack st).
      { rewrite Hs'. assert (t ∉ recursionStack st); [|set_solver].
        rewrite Hs. by rewrite elem_of_list_to_set. }
      split_and!; [done|done|set_solver|].
      split_and!.
      * by rewrite Hp.
      * by rewrite Hstack, Hp.
      * rewrite Hstack. set_solver.
      * by rewrite Hp.
  - split_and!; simpl.
    + by apply linked_snoc.
    + rewrite list_to_set_app_L, Hs. set_solver.
    + set_solver.
    + apply NoDup_app. split_and!; [done| |apply NoDup_singleton].
      intros x Hx ->%list_elem_of_singleton. done.
  - intros e [? ?]%list_elem_of_filter. done.
Qed.

(** The path that [checkEach] reports ends in an id that it already holds,
    and is linked. *)
Lemma checkEach_sound fuel nodes st r :
  onStack st → path st = [] →
  checkEach fuel edges nodes st = Some r →
  if hasCycle r
  then ∃ q x, cycle r = Some (q ++ [x]) ∧ x ∈ q
              ∧ linked edges (q ++ [x]) ∧ NoDup q
  else cycle r = None.
Proof.
  revert st. induction nodes as [|n nodes IH]; intros st Hst Hpath; simpl.
  - by intros [= <-].
  - destruct (decide (id n ∉ visited st)) as [Hnew|Hold]; [|by apply IH].
    destruct (dfs fuel edges (id n) st) as [[[] st1]|] eqn:Hcall; [| |done].
    + intros [= <-]. simpl.
      apply dfs_sound in Hcall; [|done|done|by left].
      destruct Hcall as (q & x & Hp & Hx & Hl & Hnd).
      rewrite Hpath in Hp, Hx, Hnd. simpl in Hp, Hx, Hnd.
      exists (id n :: q), x. rewrite Hp in Hl |- *. done.
    + apply dfs_sound in Hcall; [|done|done|by left].
      destruct Hcall as (Hp & Hs & Hv & Hst1).
      apply IH; [done|]. by rewrite Hp.
Qed.
End DfsSound.

Lemma lasso_split edges (q : list string) x :
  x ∈ q → linked edges (q ++ [x]) →
  ∃ lead mid, q = lead ++ x :: mid
              ∧ closedPath edges (x :: mid ++ [x])
              ∧ tc (edgeBetween edges) x x.
Proof.
  intros (lead & mid & ->)%list_elem_of_split Hl.
  exists lead, mid. split; [done|].
  assert (Hc : linked edges (x :: mid ++ [x])).
  { apply (linked_drop _ (length lead)) in Hl.
    by rewrite <- app_assoc, drop_app_length in Hl. }
  split; [|by apply (linked_tc _ _ mid)].
  split; [|done]. change (x :: mid ++ [x]) with ((x :: mid) ++ [x]).
  by rewrite last_snoc.
Qed.

Lemma onStack_initial edges :
  onStack edges (GraphValidator.mkDfsState ∅ ∅ []).
Proof. split_and!; [apply linked_nil|done|done|constructor]. Qed.

(** When [detectCycles] answers that there is a cycle, there is one, and
    the path it returns shows it: a lead-in without repetition from the node
    where the search started, followed by a closed path; each id of the
    whole path is joined to the next by an edge.  This holds for every
    graph, also one with dangling edges or repeated ids. *)
Theorem detectCycles_reports_lasso graph r :
  GraphValidator.detectCycles graph = Some r →
  GraphValidator.hasCycle r = true →
  ∃ lead x mid,
    GraphValidator.cycle r = Some (lead ++ x :: mid ++ [x])
    ∧ NoDup (lead ++ x :: mid)
    ∧ linked (GraphValidator.edges graph) (lead ++ x :: mid ++ [x])
    ∧ closedPath (GraphValidator.edges graph) (x :: mid ++ [x])
    ∧ cyclic (GraphValidator.edges graph).
Proof.
  intros Hrun Hc. unfold GraphValidator.detectCycles in Hrun.
  apply checkEach_sound in Hrun; [|apply onStack_initial|done].
  rewrite Hc in Hrun. destruct Hrun as (q & x & Hp & Hx & Hl & Hnd).
  destruct (lasso_split _ _ _ Hx Hl) as (lead & mid & -> & Hclosed & Htc).
  exists lead, x, mid. rewrite <- app_assoc in Hp, Hl.
  split_and!; [done..|]. by exists x.
Qed.

(** On a graph whose edges join nodes [detectCycles] returns, and it
    answers that there is a cycle exactly when there is one. *)
Theorem detectCycles_decides gid nodes edges :
  endpointsIn nodes edges →
  ∃ r, GraphValidator.detectCycles (GraphValidator.mkGraph gid nodes edges) = Some r
       ∧ (GraphValidator.hasCycle r = true ↔ cyclic edges).
Proof.
  intros Hwf.
  destruct (detectCycles_total (GraphValidator.mkGraph gid nodes edges)) as [r Hr].
  exists r. split; [done|]. split.
  - intros Hc. unfold GraphValidator.detectCycles in Hr.
    apply checkEach_sound in Hr; [|apply onStack_initial|done].
    rewrite Hc in Hr. destruct Hr as (q & x & _ & Hx & Hl & _).
    destruct (lasso_split _ _ _ Hx Hl) as (_ & _ & _ & _ & Htc). by exists x.
  - intros Hcyc.
    destruct (detectCycles_complete gid nodes edges Hwf Hcyc) as [p Hp].
    rewrite Hp in Hr. by injection Hr as <-.
Qed.

(** ** The validator: the graphs that pass *)

Section ValidatorAccepts.
Import GraphValidator.

Lemma findNode_Some nodes k n : findNode nodes k = Some n → n ∈ nodes ∧ id n = k.
Proof.
  unfold findNode. intros H. apply find_some in H as [Hin Hid].
  split; [by apply list_elem_of_In|]. by apply bool_decide_eq_true in Hid.
Qed.

Lemma findNode_is_Some nodes k : is_Some (findNode nodes k) ↔ k ∈ nodeIds nodes.
Proof.
  split.
  - intros [n [Hin <-]%findNode_Some]. by apply list_elem_of_fmap_2.
  - intros (n & -> & Hin)%list_elem_of_fmap. unfold findNode.
    destruct (List.find _ nodes) as [m|] eqn:Hfind; [by eexists|].
    apply list_elem_of_In in Hin.
    apply (find_none _ _ Hfind) in Hin. by rewrite bool_decide_eq_true_2 in Hin.
Qed.

Lemma findNode_NoDup nodes n :
  NoDup (nodeIds nodes) → n ∈ nodes → findNode nodes (id n) = Some n.
Proof.
  unfold findNode, nodeIds.
  induction nodes as [|m nodes IH]; intros Hnd Hin; [by apply elem_of_nil in Hin|].
  rewrite fmap_cons in Hnd. apply NoDup_cons in Hnd as [Hm Hnd]. simpl.
  destruct (decide (id m = id n)) as [Heq|Hne].
  - rewrite bool_decide_eq_true_2 by done.
    apply elem_of_cons in Hin as [->|Hin]; [done|].
    exfalso. apply Hm. rewrite Heq. by apply list_elem_of_fmap_2.
  - rewrite bool_decide_eq_false_2 by done.
    apply elem_of_cons in Hin as [->|Hin]; [done|]. by apply IH.
Qed.

(** No node shares its id with another one exactly when the ids are
    distinct. *)
Lemma unique_ids_NoDup nodes :
  (∀ n, n ∈ nodes → (length (filter (λ m, id m = id n) nodes) ≤ 1)%nat)
  ↔ NoDup (nodeIds nodes).
Proof.
  unfold nodeIds. induction nodes as [|m nodes IH].
  - split; [constructor|]. by intros _ n ?%elem_of_nil.
  - rewrite fmap_cons, NoDup_cons. split.
    + intros H. split.
      * intros (n & Hid & Hin)%list_elem_of_fmap.
        specialize (H m). rewrite filter_cons_True in H by done.
        assert (Hn : n ∈ filter (λ m', id m' = id m) nodes)
          by (by apply list_elem_of_filter).
        destruct (filter _ nodes); [by apply elem_of_nil in Hn|].
        simpl in H. assert (m ∈ m :: nodes) by left. specialize (H ltac:(done)). lia.
      * apply IH. intros n Hn. specialize (H n ltac:(by right)).
        rewrite filter_cons in H. destruct (decide (id m = id n)); simpl in H; lia.
    + intros [Hm Hnd] n Hn. rewrite filter_cons.
      destruct (decide (id m = id n)) as [Heq|Hne].
      * destruct (filter (λ m', id m' = id n) nodes) as [|x l] eqn:Hf; [done|].
        exfalso. assert (Hx : x ∈ filter (λ m', id m' = id n) nodes)
          by (rewrite Hf; left).
        apply list_elem_of_filter in Hx as [Hid Hx].
        apply Hm. rewrite Heq, <- Hid. by apply list_elem_of_fmap_2.
      * apply elem_of_cons in Hn as [->|Hn]; [done|].
        by apply (proj2 IH).
Qed.

Lemma concat_fmap_nil {A B} (f : A → list B) (l : list A) :
  concat (f <$> l) = [] ↔ ∀ x, x ∈ l → f x = [].
Proof.
  induction l as [|a l IH]; simpl.
  - split; [by intros _ x ?%elem_of_nil|done].
  - rewrite app_nil, IH. split.
    + intros [Ha Hl] x [->|Hx]%elem_of_cons; [done|by apply Hl].
    + intros H. split; [apply H; left|]. intros x Hx. apply H. by right.
Qed.

Lemma validateNode_nil node graph :
  validateNode node graph = []
  ↔ id node ≠ EmptyString ∧ truthyOpt (type node) = true
    ∧ (length (filter (λ n, id n = id node) (nodes graph)) ≤ 1)%nat.
Proof.
  unfold validateNode, validateNodeConfig. rewrite !app_nil.
  rewrite <- truthy_spec.
  destruct (truthy (id node)), (truthyOpt (type node));
    destruct (decide (1 < length _)%nat); destruct (data node);
    split; intros H; destruct_and?; split_and?; (done || lia).
Qed.

Lemma hasPort_declares ports handle :
  notOpt (hasPort ports handle) = false ↔ declaresPort ports handle.
Proof.
  split.
  - intros H. unfold notOpt, hasPort in H. destruct ports as [ps|]; [|done].
    simpl in H. apply negb_false_iff, existsb_exists in H as (p & Hin & Hp).
    exists ps, p. split_and!; [done|by apply list_elem_of_In|].
    by apply bool_decide_eq_true in Hp.
  - intros H. destruct (notOpt (hasPort ports handle)) eqn:Hn; [|done].
    by apply notOpt_hasPort in Hn.
Qed.

Lemma validateEdge_nil edge graph :
  validateEdge edge graph = []
  ↔ source edge ≠ EmptyString ∧ target edge ≠ EmptyString
    ∧ is_Some (findNode (nodes graph) (source edge))
    ∧ is_Some (findNode (nodes graph) (target edge))
    ∧ (∀ h n, sourceHandle edge = Some h → h ≠ EmptyString →
              findNode (nodes graph) (source edge) = Some n →
              declaresPort (data n ≫= outputs) h)
    ∧ (∀ h n, targetHandle edge = Some h → h ≠ EmptyString →
              findNode (nodes graph) (target edge) = Some n →
              declaresPort (data n ≫= inputs) h).
Proof.
  unfold validateEdge. rewrite !app_nil, <- !truthy_spec. split.
  - intros (Hs & Ht & Hfs & Hft & Hps & Hpt).
    destruct (truthy (source edge)); [|done].
    destruct (truthy (target edge)); [|done].
    destruct (findNode (nodes graph) (source edge)) as [sn|]; [|done].
    destruct (findNode (nodes graph) (target edge)) as [tn|]; [|done].
    split_and!; [done|done|by eexists|by eexists| |].
    + intros h n Hh Hne [= <-]. rewrite Hh in Hps.
      apply truthy_spec in Hne. rewrite Hne in Hps.
      apply hasPort_declares. by destruct (notOpt _).
    + intros h n Hh Hne [= <-]. rewrite Hh in Hpt.
      apply truthy_spec in Hne. rewrite Hne in Hpt.
      apply hasPort_declares. by destruct (notOpt _).
  - intros (-> & -> & [sn Hsn] & [tn Htn] & Hps & Hpt).
    rewrite Hsn, Htn. split_and!; try done.
    + destruct (sourceHandle edge) as [h|] eqn:Hh; [|done].
      destruct (truthy h) eqn:Hne; [|done].
      apply truthy_spec in Hne.
      by rewrite (proj2 (hasPort_declares _ _) (Hps h sn eq_refl Hne Hsn)).
    + destruct (targetHandle edge) as [h|] eqn:Hh; [|done].
      destruct (truthy h) eqn:Hne; [|done].
      apply truthy_spec in Hne.
      by rewrite (proj2 (hasPort_declares _ _) (Hpt h tn eq_refl Hne Htn)).
Qed.
End ValidatorAccepts.

Lemma valid_wellFormed gid nodes edges :
  ∃ r, GraphValidator.validateGraph (GraphValidator.mkGraph gid nodes edges) = Some r
       ∧ (GraphValidator.valid r = true ↔ wellFormed nodes edges).
Proof.
  unfold GraphValidator.validateGraph. simpl.
  destruct nodes as [|n0 nodes'] eqn:Hnodes.
  { eexists. split; [done|]. simpl. split; [done|]. by intros [? _]. }
  rewrite <- Hnodes. assert (Hne : nodes ≠ []) by (by rewrite Hnodes).
  clear Hnodes n0 nodes'.
  destruct (detectCycles_total (GraphValidator.mkGraph gid nodes edges)) as [cr Hcr].
  rewrite Hcr. simpl. eexists. split; [done|]. simpl.
  rewrite bool_decide_eq_true, !app_nil, !concat_fmap_nil.
  assert (Hcycle : GraphValidator.hasCycle cr = true → cyclic edges).
  { intros Hc. unfold GraphValidator.detectCycles in Hcr. simpl in Hcr.
    apply checkEach_sound in Hcr; [|apply onStack_initial|done].
    rewrite Hc in Hcr. destruct Hcr as (q & x & _ & Hx & Hl & _).
    destruct (lasso_split _ _ _ Hx Hl) as (_ & _ & _ & _ & Htc). by exists x. }
  split.
  - intros (Hn & He & Hc).
    assert (Hnd : NoDup (nodeIds nodes)).
    { apply unique_ids_NoDup. intros n Hin.
      by apply Hn, validateNode_nil in Hin as (_ & _ & ?). }
    assert (Hwf : endpointsIn nodes edges).
    { intros e Hin. apply He, validateEdge_nil in Hin as (_ & _ & Hs & Ht & _).
      by rewrite <- !findNode_is_Some. }
    split_and!; [done| |done|done| |].
    + intros n Hin. by apply Hn, validateNode_nil in Hin as (? & ? & _).
    + intros e Hin. apply He, validateEdge_nil in Hin as (_ & _ & _ & _ & Hps & Hpt).
      split; intros n h Hn' Hid Hh Hh'.
      * apply Hps; [done..|]. simpl. rewrite <- Hid. by apply findNode_NoDup.
      * apply Hpt; [done..|]. simpl. rewrite <- Hid. by apply findNode_NoDup.
    + intros x Hx. destruct (GraphValidator.hasCycle cr) eqn:Hhc; [done|].
      destruct (detectCycles_complete gid nodes edges Hwf) as [p Hp]; [by exists x|].
      rewrite Hp in Hcr. injection Hcr as <-. done.
  - intros (_ & Hn & Hnd & Hwf & Hports & Hac). split_and!.
    + intros n Hin. apply validateNode_nil. destruct (Hn n Hin) as [? ?].
      split_and!; [done..|]. simpl. by apply unique_ids_NoDup.
    + intros e Hin. apply validateEdge_nil. simpl.
      destruct (Hwf e Hin) as [Hs Ht]. destruct (Hports e Hin) as [Hps Hpt].
      apply findNode_is_Some in Hs as Hs', Ht as Ht'.
      split_and!; [| |done|done| |].
      * intros Heq. rewrite Heq in Hs.
        apply list_elem_of_fmap in Hs as (n & Hid & Hin'). by apply (Hn n Hin').
      * intros Heq. rewrite Heq in Ht.
        apply list_elem_of_fmap in Ht as (n & Hid & Hin'). by apply (Hn n Hin').
      * intros h n Hh Hh' [? ?]%findNode_Some. by apply Hps.
      * intros h n Hh Hh' [? ?]%findNode_Some. by apply Hpt.
    + destruct (GraphValidator.hasCycle cr) eqn:Hhc; [|done].
      destruct (Hcycle eq_refl) as [x Hx]. by apply Hac in Hx.
Qed.

(** [validateGraph] always returns, and it accepts exactly the graphs that
    have a node, whose nodes have an id and a type and distinct ids, whose
    edges join nodes through ports that these declare, and that have no
    cycle; [canExecute] gives the same answer, and warnings play no part. *)
Theorem validateGraph_accepts gid nodes edges :
  ∃ r, GraphValidator.validateGraph (GraphValidator.mkGraph gid nodes edges) = Some r
       ∧ GraphValidator.canExecute (GraphValidator.mkGraph gid nodes edges)
         = Some (GraphValidator.valid r)
       ∧ (GraphValidator.valid r = true ↔ wellFormed nodes edges)
       ∧ (GraphValidator.valid r = true ↔ GraphValidator.errors r = []).
Proof.
  destruct (valid_wellFormed gid nodes edges) as (r & Hr & Hiff).
  exists r. unfold GraphValidator.canExecute. rewrite Hr.
  split_and!; [done..|].
  unfold GraphValidator.validateGraph in Hr.
  destruct (GraphValidator.nodes _); [by injection Hr as <-|].
  destruct (GraphValidator.detectCycles _); [|done].
  injection Hr as <-. apply bool_decide_eq_true.
Qed.

(** ** The scheduler: levels *)

Section SortLevels.
Import TopologicalSort.
Variable nodes : list Node.
Variable edges : list Edge.
Hypothesis Hwf : endpointsIn nodes edges.
Implicit Types (R Q : list (string * nat)) (queue : list QueueItem).
Implicit Types (result : list SortedNode).

(** The ids with their levels: of the nodes emitted, and of the queue. *)
Definition emitted result : list (string * nat) :=
  (λ sn, (id (node sn), level sn)) <$> result.

Definition waiting queue : list (string * nat) :=
  (λ q, (itemId q, itemLevel q)) <$> queue.

(** Levels grow along the result and the queue, the levels in the queue
    differ by one at most, every edge into an id with a level comes from an
    id emitted at a lower level, and an id at a level above zero has such an
    edge from the level just below. *)
Definition leveled R Q : Prop :=
  StronglySorted (λ a b, a.2 ≤ b.2)%nat (R ++ Q)
  ∧ (∀ a b, a ∈ Q → b ∈ Q → (b.2 ≤ a.2 + 1)%nat)
  ∧ (∀ a e, a ∈ R ++ Q → e ∈ edges → target e = a.1 →
            ∃ b, b ∈ R ∧ b.1 = source e ∧ (b.2 < a.2)%nat)
  ∧ (∀ a, a ∈ R ++ Q →
          a.2 = 0%nat
          ∨ ∃ e b, e ∈ edges ∧ target e = a.1 ∧ b ∈ R ∧ b.1 = source e
                   ∧ a.2 = S b.2).

Lemma emitted_ids result : (emitted result).*1 = getExecutionOrder result.
Proof. unfold emitted, getExecutionOrder. by rewrite <- list_fmap_compose. Qed.

Lemma constant_level_sorted (l : list string) (k : nat) :
  StronglySorted (λ a b : string * nat, a.2 ≤ b.2)%nat ((λ v, (v, k)) <$> l).
Proof.
  induction l as [|x l IH]; csimpl; constructor; [done|].
  apply Forall_forall. by intros a (y & -> & _)%list_elem_of_fmap.
Qed.

Lemma level_step deg current queue result n :
  kahnInvariant nodes edges deg (current :: queue) result →
  leveled (emitted result) (waiting (current :: queue)) →
  nodeMap (buildMaps nodes edges) !! itemId current = Some n →
  leveled
    (emitted (result ++ [mkSortedNode n (itemLevel current)]))
    (waiting
       (foldl (visitNeighbor (itemLevel current)) (deg, queue)
          (default [] (adjacencyList (buildMaps nodes edges) !! itemId current))).2).
Proof.
  intros (Hnd & Hdeg & Hzero & Hids & Hord & Hres) (Hs & Hspan & Hpred & Hone) Hn.
  apply nodeMap_buildMaps in Hn as [Hid Hnin].
  set (c := itemId current) in *. set (L := itemLevel current) in *.
  set (E := getExecutionOrder result) in *.
  assert (Hcids : c ∈ nodeIds nodes).
  { apply Hids, elem_of_app. right. left. }
  assert (HcE : c ∉ E).
  { apply NoDup_app in Hnd as (_ & Hd & _). intros Hin. apply (Hd c Hin). left. }
  rewrite adjacencyList_buildMaps, decide_True by done. simpl default.
  assert (Hle : ∀ v, Z.of_nat (occurrences v (targetsFrom edges c)) ≤ degree deg v).
  { intros v. rewrite Hdeg, (pending_snoc edges E c v HcE). lia. }
  destruct (visitNeighbors_spec L _ deg queue Hle) as (Hd & l & Hq & Hndl & Hl).
  rewrite Hq. clear Hq.
  set (R := emitted result) in *. set (Q := waiting queue).
  set (N := (λ v, (v, (L + 1)%nat)) <$> l).
  assert (HR' : emitted (result ++ [mkSortedNode n L]) = R ++ [(c, L)]).
  { unfold emitted, R. rewrite fmap_app. simpl. by rewrite Hid. }
  assert (HQ0 : waiting (current :: queue) = (c, L) :: Q) by done.
  assert (HQ' : waiting (queue ++ ((λ v, mkQueueItem v (L + 1)) <$> l)) = Q ++ N).
  { unfold waiting, Q, N. by rewrite fmap_app, <- list_fmap_compose. }
  rewrite HR', HQ'. rewrite HQ0 in Hs, Hspan, Hpred, Hone. clear HR' HQ' HQ0.
  assert (Hall : (R ++ [(c, L)]) ++ Q ++ N = (R ++ (c, L) :: Q) ++ N).
  { by rewrite <- !app_assoc. }
  unfold leveled. rewrite Hall. clear Hall.
  assert (HRle : ∀ b, b ∈ R → (b.2 ≤ L)%nat).
  { intros b Hb. apply (StronglySorted_app_1_elem_of _ _ _ b (c, L)) in Hs;
      [done|done|left]. }
  assert (HQge : ∀ a, a ∈ Q → (L ≤ a.2)%nat).
  { intros a Ha. apply StronglySorted_app_1_r, StronglySorted_inv in Hs as [_ Hs].
    rewrite Forall_forall in Hs. by apply (Hs a). }
  assert (HNlevel : ∀ a, a ∈ N → a.2 = (L + 1)%nat ∧ a.1 ∈ l).
  { by intros a (v & -> & Hv)%list_elem_of_fmap. }
  assert (Hincl : ∀ b, b ∈ R → b ∈ R ++ [(c, L)]).
  { intros b Hb. apply elem_of_app. by left. }
  split_and!.
  - apply StronglySorted_app_2; [|done|apply constant_level_sorted].
    intros a b Ha [-> _]%HNlevel.
    apply elem_of_app in Ha as [Ha|Ha]; [apply HRle in Ha; lia|].
    specialize (Hspan (c, L) a ltac:(left) Ha). simpl in Hspan. lia.
  - intros a b [Ha|Ha]%elem_of_app [Hb|Hb]%elem_of_app.
    + apply Hspan; by right.
    + apply HNlevel in Hb as [-> _]. apply HQge in Ha. lia.
    + apply HNlevel in Ha as [-> _].
      specialize (Hspan (c, L) b ltac:(left) ltac:(by right)). simpl in Hspan. lia.
    + apply HNlevel in Ha as [-> _]. apply HNlevel in Hb as [-> _]. lia.
  - intros a e [Ha|Ha]%elem_of_app He Ht.
    + destruct (Hpred a e Ha He Ht) as (b & Hb & ? & ?). exists b. auto.
    + apply HNlevel in Ha as [HaL Hal]. apply Hl in Hal as [Hpos Heq].
      assert (Hp0 : pending edges (E ++ [c]) a.1 = 0%nat).
      { specialize (Hdeg a.1). rewrite (pending_snoc edges E c _ HcE) in Hdeg. lia. }
      apply (pending_zero edges _ _ e Hp0 He) in Ht as Hsrc.
      apply elem_of_app in Hsrc as [Hsrc|Hsrc%list_elem_of_singleton].
      * unfold E in Hsrc. rewrite <- emitted_ids in Hsrc.
        apply list_elem_of_fmap in Hsrc as (b & Hb1 & Hb).
        exists b. split_and!; [by apply Hincl|done|]. apply HRle in Hb. lia.
      * exists (c, L). split_and!; [|done|simpl; lia].
        apply elem_of_app. right. left.
  - intros a [Ha|Ha]%elem_of_app.
    + destruct (Hone a Ha) as [?|(e & b & ? & ? & ? & ? & ?)]; [by left|].
      right. exists e, b. auto.
    + apply HNlevel in Ha as [HaL Hal]. apply Hl in Hal as [Hpos _].
      apply occurrences_pos, elem_of_targetsFrom in Hpos as (e & He & Hs' & Ht').
      right. exists e, (c, L). split_and!; [done|done| |done|simpl; lia].
      apply elem_of_app. right. left.
Qed.

Lemma level_loop fuel deg queue result r :
  kahnInvariant nodes edges deg queue result →
  leveled (emitted result) (waiting queue) →
  loop fuel (buildMaps nodes edges) deg queue result = Some r →
  leveled (emitted r) [].
Proof.
  revert deg queue result.
  induction fuel as [|fuel IH]; intros deg queue result Hinv Hlev;
    destruct queue as [|current queue]; simpl; try done.
  - by intros [= <-].
  - by intros [= <-].
  - destruct (nodeMap_is_Some nodes edges (itemId current)) as [n Hn].
    { destruct Hinv as (_ & _ & _ & Hids & _). apply Hids, elem_of_app.
      right. left. }
    rewrite Hn. apply IH; [by apply kahn_step|by apply level_step].
Qed.

Lemma level_initial :
  leveled [] (waiting (initialQueue (inDegree (buildMaps nodes edges)))).
Proof.
  set (deg := inDegree (buildMaps nodes edges)).
  assert (Hq : waiting (initialQueue deg)
               = (λ v, (v, 0%nat)) <$> (filter (λ kd, kd.2 = 0) deg).*1).
  { unfold waiting, initialQueue. by rewrite <- !list_fmap_compose. }
  rewrite Hq. clear Hq.
  assert (Hzero : ∀ a, a ∈ (λ v, (v, 0%nat)) <$> (filter (λ kd, kd.2 = 0) deg).*1 →
                       a.2 = 0%nat ∧ degree deg a.1 = 0).
  { intros a (v & -> & (kd & -> & [Hd Hin]%list_elem_of_filter)%list_elem_of_fmap)
      %list_elem_of_fmap.
    split; [done|]. simpl. unfold degree.
    destruct kd as [k d]. simpl in *. subst d.
    assert (Hget : JsMap.get deg k = Some 0); [|by rewrite Hget].
    apply get_elem_of; [apply keys_buildMaps_NoDup|done]. }
  split_and!; simpl.
  - apply constant_level_sorted.
  - intros a b [-> _]%Hzero [-> _]%Hzero. lia.
  - intros a e [_ Hd]%Hzero He Ht. exfalso.
    unfold deg in Hd. rewrite degree_buildMaps in Hd.
    assert (Hin : e ∈ filter (λ e, target e = a.1) edges)
      by (by apply list_elem_of_filter).
    destruct (filter _ edges); [by apply elem_of_nil in Hin|]. simpl in Hd. lia.
  - intros a [-> _]%Hzero. by left.
Qed.
End SortLevels.

Lemma StronglySorted_fmap_inv {A B} (f : A → B) (R1 : relation A) (R2 : relation B)
    (l : list A) :
  (∀ x y, R2 (f x) (f y) → R1 x y) →
  StronglySorted R2 (f <$> l) → StronglySorted R1 l.
Proof.
  intros HR. induction l as [|x l IH]; csimpl; [constructor|].
  intros [Hl Hx]%StronglySorted_inv. constructor; [by apply IH|].
  rewrite Forall_forall in Hx. apply Forall_forall. intros y Hy.
  apply HR, Hx. by apply list_elem_of_fmap_2.
Qed.

(** The levels that [sort] gives, on a graph whose edges join nodes: they
    grow along the result; every edge into an emitted node comes from a
    node emitted at a lower level; a node has level 0 exactly when no edge
    leads to it; and a node at a higher level has an edge from a node at the
    level just below. *)
Theorem sort_levels nodes edges sorted :
  endpointsIn nodes edges →
  TopologicalSort.sort nodes edges = Some sorted →
  StronglySorted (λ a b, TopologicalSort.level a ≤ TopologicalSort.level b)%nat sorted
  ∧ (∀ sn e, sn ∈ sorted → e ∈ edges → target e = id (TopologicalSort.node sn) →
             ∃ sn', sn' ∈ sorted ∧ id (TopologicalSort.node sn') = source e
                    ∧ (TopologicalSort.level sn' < TopologicalSort.level sn)%nat)
  ∧ (∀ sn, sn ∈ sorted →
           TopologicalSort.level sn = 0%nat
           ↔ ∀ e, e ∈ edges → target e ≠ id (TopologicalSort.node sn))
  ∧ (∀ sn, sn ∈ sorted → TopologicalSort.level sn ≠ 0%nat →
           ∃ e sn', e ∈ edges ∧ target e = id (TopologicalSort.node sn)
                    ∧ sn' ∈ sorted ∧ id (TopologicalSort.node sn') = source e
                    ∧ TopologicalSort.level sn = S (TopologicalSort.level sn')).
Proof.
  intros Hwf Hsort. unfold TopologicalSort.sort in Hsort.
  apply (level_loop nodes edges Hwf) in Hsort as (Hs & _ & Hpred & Hone);
    [|by apply kahn_initial|apply level_initial].
  rewrite app_nil_r in Hs, Hpred, Hone.
  assert (Hin : ∀ sn, sn ∈ sorted →
    (id (TopologicalSort.node sn), TopologicalSort.level sn) ∈ emitted sorted).
  { intros sn Hsn. unfold emitted.
    by apply (list_elem_of_fmap_2
                (λ sn, (id (TopologicalSort.node sn), TopologicalSort.level sn))). }
  assert (Hout : ∀ b, b ∈ emitted sorted →
    ∃ sn, sn ∈ sorted ∧ b.1 = id (TopologicalSort.node sn)
          ∧ b.2 = TopologicalSort.level sn).
  { intros b (sn & -> & Hsn)%list_elem_of_fmap. by exists sn. }
  assert (Hlower : ∀ sn e, sn ∈ sorted → e ∈ edges →
    target e = id (TopologicalSort.node sn) →
    ∃ sn', sn' ∈ sorted ∧ id (TopologicalSort.node sn') = source e
           ∧ (TopologicalSort.level sn' < TopologicalSort.level sn)%nat).
  { intros sn e Hsn He Ht.
    destruct (Hpred _ e (Hin sn Hsn) He Ht) as (b & Hb & Hb1 & Hb2).
    destruct (Hout b Hb) as (sn' & Hsn' & H1 & H2). simpl in Hb2.
    exists sn'. split_and!; [done|congruence|lia]. }
  assert (Hbelow : ∀ sn, sn ∈ sorted → TopologicalSort.level sn ≠ 0%nat →
    ∃ e sn', e ∈ edges ∧ target e = id (TopologicalSort.node sn)
             ∧ sn' ∈ sorted ∧ id (TopologicalSort.node sn') = source e
             ∧ TopologicalSort.level sn = S (TopologicalSort.level sn')).
  { intros sn Hsn Hne.
    destruct (Hone _ (Hin sn Hsn)) as [?|(e & b & He & Ht & Hb & Hb1 & Hb2)]; [done|].
    destruct (Hout b Hb) as (sn' & Hsn' & H1 & H2). simpl in Ht, Hb2.
    exists e, sn'. split_and!; [done|done|done|congruence|lia]. }
  split_and!; [|done| |done].
  - apply (StronglySorted_fmap_inv
             (λ sn, (id (TopologicalSort.node sn), TopologicalSort.level sn))
             _ (λ a b, a.2 ≤ b.2)%nat); [done|apply Hs].
  - intros sn Hsn. split.
    + intros H0 e He Ht. destruct (Hlower sn e Hsn He) as (? & _ & _ & ?); [done|lia].
    + intros Hno. destruct (decide (TopologicalSort.level sn = 0%nat)) as [|Hne]; [done|].
      destruct (Hbelow sn Hsn Hne) as (e & _ & He & Ht & _). by destruct (Hno e He).
Qed.

(** ** The scheduler: grouping by level *)

Section GroupByLevel.
Import TopologicalSort.
Implicit Types (m : list (nat * list Node)) (sorted : list SortedNode).

Lemma pushAt_keys m l n :
  (pushAt m l n).*1 = if decide (l ∈ m.*1) then m.*1 else m.*1 ++ [l].
Proof.
  induction m as [|[l' ns] m IH]; [done|]. cbn [pushAt].
  destruct (decide (l' = l)) as [->|Hne]; rewrite !fmap_cons; cbn [fst].
  - rewrite decide_True; [done|left].
  - rewrite IH. destruct (decide (l ∈ m.*1)) as [Hin|Hnot].
    + rewrite decide_True; [done|by right].
    + rewrite decide_False; [done|]. by intros [->|?]%elem_of_cons.
Qed.

Lemma elem_of_pushAt m l n l' ns :
  NoDup m.*1 →
  (l', ns) ∈ pushAt m l n
  ↔ (l' ≠ l ∧ (l', ns) ∈ m)
    ∨ (l' = l ∧ ((∃ ns0, (l, ns0) ∈ m ∧ ns = ns0 ++ [n])
                 ∨ ((l ∉ m.*1) ∧ ns = [n]))).
Proof.
  induction m as [|[k ks] m IH]; intros Hnd; cbn [pushAt].
  - rewrite list_elem_of_singleton. split.
    + intros [= -> ->]. right. split; [done|]. right.
      split; [apply not_elem_of_nil|done].
    + intros [[_ H]|[-> [(? & H & _)|[_ ->]]]];
        [by apply elem_of_nil in H..|done].
  - rewrite fmap_cons in Hnd. apply NoDup_cons in Hnd as [Hk Hnd]. cbn [fst] in Hk.
    assert (Hfresh : ∀ x, (k, x) ∉ m).
    { intros x Hin. apply Hk. by apply (list_elem_of_fmap_2 fst) in Hin. }
    destruct (decide (k = l)) as [->|Hne].
    + rewrite !elem_of_cons, fmap_cons, elem_of_cons. cbn [fst]. split.
      * intros [Heq|Hin].
        -- injection Heq as -> ->. right. split; [done|]. left.
           exists ks. split; [by left|done].
        -- left. split; [|by right]. intros ->. by apply (Hfresh ns).
      * intros [[Hne [Heq|Hin]]|[-> [(ns0 & H & ->)|[Hnot _]]]].
        -- by injection Heq as -> _.
        -- by right.
        -- apply elem_of_cons in H as [Heq|Hin]; [left; congruence|].
           by apply Hfresh in Hin.
        -- exfalso. apply Hnot. by left.
    + rewrite !elem_of_cons, (IH Hnd), fmap_cons, elem_of_cons. cbn [fst]. split.
      * intros [Heq|[[Hne' Hin]|[-> [(ns0 & Hin & ->)|[Hnot ->]]]]].
        -- injection Heq as -> ->. left. split; [done|by left].
        -- left. split; [done|by right].
        -- right. split; [done|]. left. exists ns0. split; [by right|done].
        -- right. split; [done|]. right. split; [|done].
           intros [?|?]; [congruence|done].
      * intros [[Hne' [Heq|Hin]]|[-> [(ns0 & H & ->)|[Hnot ->]]]].
        -- by left.
        -- right. left. done.
        -- apply elem_of_cons in H as [Heq|Hin]; [congruence|].
           right. right. split; [done|]. left. by exists ns0.
        -- right. right. split; [done|]. right. split; [|done].
           intros Hin. apply Hnot. by right.
Qed.

Lemma groupByLevel_snoc sorted sn :
  groupByLevel (sorted ++ [sn]) = pushAt (groupByLevel sorted) (level sn) (node sn).
Proof. unfold groupByLevel. by rewrite foldl_app. Qed.

Lemma groupByLevel_spec sorted :
  NoDup (groupByLevel sorted).*1
  ∧ ∀ l ns, (l, ns) ∈ groupByLevel sorted
            ↔ ns ≠ [] ∧ ns = node <$> filter (λ sn, level sn = l) sorted.
Proof.
  induction sorted as [|sn sorted [IHnd IH]] using rev_ind.
  - split; [constructor|]. intros l ns. split; [by intros ?%elem_of_nil|].
    by intros [? ->].
  - rewrite groupByLevel_snoc. split.
    + rewrite pushAt_keys. destruct (decide _) as [|Hnot]; [done|].
      apply NoDup_app. split_and!; [done| |apply NoDup_singleton].
      by intros x Hx ->%list_elem_of_singleton.
    + intros l ns. rewrite (elem_of_pushAt _ _ _ _ _ IHnd), filter_app, fmap_app.
      rewrite filter_cons, filter_nil.
      destruct (decide (level sn = l)) as [Hl|Hl]; csimpl.
      * subst l. split.
        -- intros [[? _]|[_ [(ns0 & Hin & ->)|[Hnot ->]]]]; [done| |].
           ++ apply IH in Hin as [_ <-]. split; [|done]. by destruct ns0.
           ++ split; [done|].
              destruct (filter (λ sn', level sn' = level sn) sorted) as [|x f] eqn:Hf;
                [done|].
              exfalso. apply Hnot.
              assert ((level sn, node <$> x :: f) ∈ groupByLevel sorted) as Hin.
              { apply IH. rewrite Hf. done. }
              by apply (list_elem_of_fmap_2 fst) in Hin.
        -- intros [_ ->]. right. split; [done|].
           destruct (filter (λ sn', level sn' = level sn) sorted) as [|x f] eqn:Hf.
           ++ right. split; [|done]. intros (p & Hp1 & Hp)%list_elem_of_fmap.
              destruct p as [l' ns']. simpl in Hp1. subst l'.
              apply IH in Hp as [Hne Hns]. rewrite Hf in Hns. done.
           ++ left. exists (node <$> x :: f). split; [|done]. apply IH.
              rewrite Hf. done.
      * rewrite app_nil_r. split.
        -- intros [[_ Hin]|[-> _]]; [by apply IH|done].
        -- intros Hin. left. split; [|by apply IH]. by intros ->.
Qed.

(** [groupByLevel] has one entry per level that occurs, and the entry of a
    level holds the nodes of that level, in the order of the sorted list. *)
Theorem groupByLevel_groups sorted :
  NoDup (groupByLevel sorted).*1
  ∧ (∀ l ns, (l, ns) ∈ groupByLevel sorted
             ↔ ns ≠ [] ∧ ns = node <$> filter (λ sn, level sn = l) sorted)
  ∧ (∀ sn, sn ∈ sorted →
           ∃ ns, (level sn, ns) ∈ groupByLevel sorted ∧ node sn ∈ ns).
Proof.
  destruct (groupByLevel_spec sorted) as [Hnd Hiff].
  split_and!; [done..|].
  intros sn Hsn. exists (node <$> filter (λ sn', level sn' = level sn) sorted).
  assert (Hin : sn ∈ filter (λ sn', level sn' = level sn) sorted)
    by (by apply list_elem_of_filter).
  split; [|by apply list_elem_of_fmap_2].
  apply Hiff. split; [|done].
  destruct (filter _ sorted); [by apply elem_of_nil in Hin|done].
Qed.
End GroupByLevel.

Lemma groupByLevel_key sorted l :
  l ∈ (TopologicalSort.groupByLevel sorted).*1 →
  ∃ sn, sn ∈ sorted ∧ TopologicalSort.level sn = l.
Proof.
  intros ([l' ns] & -> & Hin)%list_elem_of_fmap.
  apply groupByLevel_spec in Hin as [Hne ->]. simpl.
  destruct (filter _ sorted) as [|sn f] eqn:Hf; [done|].
  assert (Hsn : sn ∈ filter (λ sn, TopologicalSort.level sn = l') sorted)
    by (rewrite Hf; left).
  apply list_elem_of_filter in Hsn as [? ?]. by exists sn.
Qed.

Lemma groupByLevel_keys_sorted sorted :
  StronglySorted (λ a b, TopologicalSort.level a ≤ TopologicalSort.level b)%nat sorted →
  StronglySorted lt (TopologicalSort.groupByLevel sorted).*1.
Proof.
  induction sorted as [|sn sorted IH] using rev_ind; [constructor|].
  intros (Hle & Hs & _)%StronglySorted_app.
  rewrite groupByLevel_snoc, pushAt_keys.
  destruct (decide _) as [|Hnot]; [by apply IH|].
  apply StronglySorted_app_2; [|by apply IH|repeat constructor].
  intros l l' Hl ->%list_elem_of_singleton.
  destruct (groupByLevel_key _ _ Hl) as (sn' & Hsn' & <-).
  specialize (Hle sn' sn Hsn' ltac:(left)).
  assert (TopologicalSort.level sn' ≠ TopologicalSort.level sn); [|lia].
  intros Heq. apply Hnot. by rewrite <- Heq.
Qed.

(** Grouping what [sort] returns: the levels are the keys of the map in
    increasing order, so iterating the map goes level by level, and every
    edge into a node of a group comes from a node of a group seen before. *)
Theorem groupByLevel_of_sort nodes edges sorted :
  endpointsIn nodes edges →
  TopologicalSort.sort nodes edges = Some sorted →
  StronglySorted lt (TopologicalSort.groupByLevel sorted).*1
  ∧ ∀ l ns n e,
      (l, ns) ∈ TopologicalSort.groupByLevel sorted → n ∈ ns →
      e ∈ edges → target e = id n →
      ∃ l' ns' n', (l', ns') ∈ TopologicalSort.groupByLevel sorted
                   ∧ n' ∈ ns' ∧ id n' = source e ∧ (l' < l)%nat.
Proof.
  intros Hwf Hsort. unfold TopologicalSort.sort in Hsort.
  apply (level_loop nodes edges Hwf) in Hsort as (Hs & _ & Hpred & _);
    [|by apply kahn_initial|apply level_initial].
  rewrite app_nil_r in Hs, Hpred.
  assert (Hsorted : StronglySorted
    (λ a b, TopologicalSort.level a ≤ TopologicalSort.level b)%nat sorted).
  { apply (StronglySorted_fmap_inv
             (λ sn, (id (TopologicalSort.node sn), TopologicalSort.level sn))
             _ (λ a b, a.2 ≤ b.2)%nat); [done|apply Hs]. }
  split; [by apply groupByLevel_keys_sorted|].
  intros l ns n e Hin Hn He Ht.
  apply groupByLevel_spec in Hin as [_ ->].
  apply list_elem_of_fmap in Hn as (sn & -> & [Hl Hsn]%list_elem_of_filter).
  destruct (Hpred (id (TopologicalSort.node sn), TopologicalSort.level sn) e)
    as (b & Hb & Hb1 & Hb2); [|done|done|].
  { by apply (list_elem_of_fmap_2
                (λ sn, (id (TopologicalSort.node sn), TopologicalSort.level sn))). }
  apply list_elem_of_fmap in Hb as (sn' & -> & Hsn'). simpl in Hb1, Hb2.
  exists (TopologicalSort.level sn'),
    (TopologicalSort.node
       <$> filter (λ x, TopologicalSort.level x = TopologicalSort.level sn') sorted),
    (TopologicalSort.node sn').
  assert (Hf : sn' ∈ filter (λ x, TopologicalSort.level x = TopologicalSort.level sn')
                       sorted) by (by apply list_elem_of_filter).
  split_and!; [|by apply list_elem_of_fmap_2|done|lia].
  apply groupByLevel_spec. split; [|done].
  destruct (filter _ sorted); [by apply elem_of_nil in Hf|done].
Qed.

(** ** The scheduler on any input, and after validation *)

(** [sort] returns on every input, also on one with a cycle, with dangling
    edges or with repeated ids: the order it returns has no id twice, is
    made of nodes of the input, and is not longer than the input. *)
Theorem sort_robust nodes edges :
  ∃ sorted,
    TopologicalSort.sort nodes edges = Some sorted
    ∧ NoDup (TopologicalSort.getExecutionOrder sorted)
    ∧ (∀ sn, sn ∈ sorted → TopologicalSort.node sn ∈ nodes)
    ∧ (length sorted ≤ length nodes)%nat.
Proof.
  destruct (sort_total nodes edges) as [sorted Hsort].
  exists sorted. split; [done|].
  assert (Hnd := sort_NoDup _ _ _ Hsort).
  assert (Hin : ∀ sn, sn ∈ sorted → TopologicalSort.node sn ∈ nodes).
  { eapply loop_nodes; [|exact Hsort]. by intros ? ?%elem_of_nil. }
  split_and!; [done..|].
  assert (Hle : (length (TopologicalSort.getExecutionOrder sorted)
                 ≤ length (nodeIds nodes))%nat).
  { apply submseteq_length, NoDup_submseteq; [done|].
    intros v (sn & -> & Hsn)%list_elem_of_fmap.
    by apply list_elem_of_fmap_2, Hin. }
  unfold TopologicalSort.getExecutionOrder, nodeIds in Hle.
  by rewrite !length_fmap in Hle.
Qed.

Lemma sort_all_nodes nodes edges :
  NoDup (nodeIds nodes) → endpointsIn nodes edges → acyclic edges →
  ∃ sorted,
    TopologicalSort.sort nodes edges = Some sorted
    ∧ TopologicalSort.node <$> sorted ≡ₚ nodes
    ∧ TopologicalSort.getExecutionOrder sorted ≡ₚ nodeIds nodes
    ∧ ∀ e, e ∈ edges →
           before (source e) (target e) (TopologicalSort.getExecutionOrder sorted).
Proof.
  intros Hids Hwf Hac.
  destruct (sort_total nodes edges) as [sorted Hsort].
  exists sorted. split; [done|].
  destruct (sort_invariant nodes edges Hwf sorted Hsort)
    as (Hnd & Hsub & Hres & Hord & Hwait).
  set (E := TopologicalSort.getExecutionOrder sorted) in *.
  assert (Hall : ∀ v, v ∈ nodeIds nodes → v ∈ E).
  { assert (Hnone : filter (λ v, v ∉ E) (nodeIds nodes) = []).
    { apply (acyclic_no_closed_set edges); [done|].
      intros v [HvE Hv]%list_elem_of_filter.
      destruct (Hwait v Hv HvE) as (e & He & Ht & Hs).
      exists (source e). split.
      - apply list_elem_of_filter. split; [done|]. by apply Hwf.
      - by exists e. }
    intros v Hv. destruct (decide (v ∈ E)) as [|HvE]; [done|]. exfalso.
    assert (Hin : v ∈ filter (λ v, v ∉ E) (nodeIds nodes))
      by (by apply list_elem_of_filter).
    rewrite Hnone in Hin. by apply elem_of_nil in Hin. }
  assert (Hperm : E ≡ₚ nodeIds nodes) by (apply NoDup_Permutation; naive_solver).
  split_and!; [|done|].
  - apply submseteq_length_Permutation.
    + apply NoDup_submseteq.
      * apply (NoDup_fmap_1 id). by rewrite <- list_fmap_compose.
      * intros n (sn & -> & Hsn)%list_elem_of_fmap. by apply Hres.
    + rewrite length_fmap.
      apply Permutation_length in Hperm.
      unfold E, TopologicalSort.getExecutionOrder, nodeIds in Hperm.
      rewrite !length_fmap in Hperm. lia.
  - intros e He. apply Hord; [done|]. by apply Hall, Hwf.
Qed.

(** Validation is enough for the scheduler: on a graph that [validateGraph]
    accepts, [sort] returns every node exactly once, each edge's source
    before its target. *)
Theorem validated_graph_sorts gid nodes edges r :
  GraphValidator.validateGraph (GraphValidator.mkGraph gid nodes edges) = Some r →
  GraphValidator.valid r = true →
  ∃ sorted,
    TopologicalSort.sort nodes edges = Some sorted
    ∧ TopologicalSort.node <$> sorted ≡ₚ nodes
    ∧ TopologicalSort.getExecutionOrder sorted ≡ₚ nodeIds nodes
    ∧ ∀ e, e ∈ edges →
           before (source e) (target e) (TopologicalSort.getExecutionOrder sorted).
Proof.
  intros Hr Hvalid.
  destruct (valid_wellFormed gid nodes edges) as (r' & Hr' & Hiff).
  rewrite Hr in Hr'. injection Hr' as <-.
  apply Hiff in Hvalid as (_ & _ & Hnd & Hwf & _ & Hac).
  by apply sort_all_nodes.
Qed.

(** The warning that no node is without incoming edge only comes with a
    failed validation: a graph in which every node has an incoming edge has
    a dangling edge or a cycle. *)
Theorem no_source_warning_invalid gid nodes edges r :
  GraphValidator.validateGraph (GraphValidator.mkGraph gid nodes edges) = Some r →
  "No source nodes found - graph may not execute properly"
  ∈ GraphValidator.warnings r →
  GraphValidator.valid r = false.
Proof.
  intros Hr Hwarn.
  destruct (GraphValidator.valid r) eqn:Hvalid; [exfalso|done].
  destruct (valid_wellFormed gid nodes edges) as (r' & Hr' & Hiff).
  rewrite Hr in Hr'. injection Hr' as <-.
  apply Hiff in Hvalid as (Hne & _ & _ & Hwf & _ & Hac).
  unfold GraphValidator.validateGraph in Hr. simpl in Hr.
  destruct nodes as [|n0 nodes'] eqn:Hnodes; [done|]. rewrite <- Hnodes in *.
  destruct (GraphValidator.detectCycles _); [|done].
  injection Hr as <-. simpl in Hwarn.
  apply elem_of_app in Hwarn as [Hwarn|Hwarn].
  { destruct (GraphValidator.findDisconnectedNodes _); [by apply elem_of_nil in Hwarn|].
    apply list_elem_of_singleton in Hwarn. discriminate Hwarn. }
  destruct (filter _ nodes) as [|x f] eqn:Hf; [|by apply elem_of_nil in Hwarn].
  clear Hwarn.
  assert (Hempty : nodeIds nodes = []).
  { apply (acyclic_no_closed_set edges); [done|].
    intros v (n & -> & Hn)%list_elem_of_fmap.
    destruct (existsb (λ e, bool_decide (target e = id n)) edges) eqn:Hex.
    - apply existsb_exists in Hex as (e & He%list_elem_of_In & Ht%bool_decide_eq_true).
      exists (source e). split; [by apply Hwf|]. by exists e.
    - assert (Hin : n ∈ filter
        (λ n, existsb (λ e, bool_decide (target e = id n)) edges = false) nodes)
        by (by apply list_elem_of_filter).
      rewrite Hf in Hin. by apply elem_of_nil in Hin. }
  apply Hne. by apply fmap_nil_inv in Hempty.
Qed.

(** ** Orders without repetition *)

Lemma before_in_prefix (done order : list string) s n :
  NoDup (done ++ n :: order) → before s n (done ++ n :: order) → s ∈ done.
Proof.
  intros Hnd (l1 & l2 & l3 & Heq).
  assert (Heq' : done ++ n :: order = (l1 ++ s :: l2) ++ n :: l3)
    by (by rewrite Heq, <- app_assoc).
  apply NoDup_split_unique in Heq' as [-> _]; [|done].
  apply elem_of_app. right. left.
Qed.

(** ** ExecutionEngine: the scheduler of [executeWorkflow] and [sort] *)

Lemma loop_fuel_mono fuel fuel' m deg queue result r :
  TopologicalSort.loop fuel m deg queue result = Some r → (fuel ≤ fuel')%nat →
  TopologicalSort.loop fuel' m deg queue result = Some r.
Proof.
  revert fuel' deg queue result.
  induction fuel as [|fuel IH]; intros fuel' deg queue result;
    destruct queue as [|current queue]; simpl; try done.
  - intros [= <-] _. by destruct fuel'.
  - intros [= <-] _. by destruct fuel'.
  - intros Hloop Hle. destruct fuel' as [|fuel']; [lia|]. simpl.
    apply IH; [done|lia].
Qed.

Lemma engine_sort fuel nodes edges sorted :
  endpointsIn nodes edges → (length nodes ≤ fuel)%nat →
  TopologicalSort.sort nodes edges = Some sorted →
  ExecutionEngine.getExecutionOrder fuel nodes edges None
  = Some (if decide (length sorted < length nodes)%nat
          then inr ExecutionEngine.cycleError
          else inl (TopologicalSort.getExecutionOrder sorted)).
Proof.
  intros Hwf Hfuel Hsort. unfold TopologicalSort.sort in Hsort.
  apply (loop_fuel_mono _ fuel) in Hsort;
    [|pose proof (length_inDegree nodes edges Hwf); lia].
  unfold ExecutionEngine.getExecutionOrder.
  destruct (engine_buildMaps nodes edges) as [-> ->].
  pose proof (engine_loop nodes edges Hwf fuel _ _ [] (kahn_initial nodes edges Hwf))
    as Heng.
  rewrite Hsort in Heng. simpl in Heng.
  assert (Hq : (filter (λ kd, kd.2 = 0)
                  (TopologicalSort.inDegree (TopologicalSort.buildMaps nodes edges))).*1
               = TopologicalSort.itemId
                   <$> TopologicalSort.initialQueue
                         (TopologicalSort.inDegree (TopologicalSort.buildMaps nodes edges))).
  { unfold TopologicalSort.initialQueue. by rewrite <- list_fmap_compose. }
  rewrite Hq, Heng. simpl.
  unfold TopologicalSort.getExecutionOrder. rewrite length_fmap.
  by destruct (decide _).
Qed.

(** Called without entry node on a graph whose edges join nodes, the
    scheduler of [ExecutionEngine] ends within one turn per node and emits
    the ids in the very order of [TopologicalSort.sort]; it throws the cycle
    error exactly when that order is shorter than the node list. *)
Theorem engine_agrees_with_sort fuel nodes edges :
  endpointsIn nodes edges → (length nodes ≤ fuel)%nat →
  ∃ sorted,
    TopologicalSort.sort nodes edges = Some sorted
    ∧ ExecutionEngine.getExecutionOrder fuel nodes edges None
      = Some (if decide (length sorted < length nodes)%nat
              then inr ExecutionEngine.cycleError
              else inl (TopologicalSort.getExecutionOrder sorted)).
Proof.
  intros Hwf Hfuel. destruct (sort_total nodes edges) as [sorted Hsort].
  exists sorted. split; [done|]. by apply engine_sort.
Qed.

(** On an acyclic graph with distinct ids whose edges join nodes, the
    scheduler of [ExecutionEngine], called without entry node, returns every
    id exactly once, the source of each edge before its target. *)
Theorem engine_order_acyclic fuel nodes edges :
  NoDup (nodeIds nodes) → endpointsIn nodes edges → acyclic edges →
  (length nodes ≤ fuel)%nat →
  ∃ order,
    ExecutionEngine.getExecutionOrder fuel nodes edges None = Some (inl order)
    ∧ order ≡ₚ nodeIds nodes
    ∧ ∀ e, e ∈ edges → before (source e) (target e) order.
Proof.
  intros Hnd Hwf Hac Hfuel.
  destruct (sort_all_nodes nodes edges Hnd Hwf Hac) as (sorted & Hsort & Hperm & Hp & Hord).
  exists (TopologicalSort.getExecutionOrder sorted).
  rewrite (engine_sort fuel nodes edges sorted Hwf Hfuel Hsort).
  split_and!; [|done|done].
  apply Permutation_length in Hperm. rewrite length_fmap in Hperm.
  rewrite decide_False by lia. done.
Qed.

(** With an entry node that no edge leaves (or that is not a node at all)
    the order is that id alone: the call throws the cycle error as soon as
    there is a second node, whatever the edges, and for a single node it
    returns the entry id, also when that is not the id of the node. *)
Theorem engine_entry_without_successor fuel nodes edges entry :
  entry ≠ EmptyString →
  (∀ e, e ∈ edges → source e = entry → entry ∉ nodeIds nodes) →
  ExecutionEngine.getExecutionOrder (S fuel) nodes edges (Some entry)
  = Some (if decide (1 < length nodes)%nat
          then inr ExecutionEngine.cycleError
          else inl [entry]).
Proof.
  intros Hne Hout. unfold ExecutionEngine.getExecutionOrder.
  rewrite (proj2 (truthy_spec entry) Hne).
  assert (Hnb : default [] (ExecutionEngine.graph
                              (ExecutionEngine.buildMaps nodes edges) !! entry) = []).
  { rewrite (proj1 (engine_buildMaps nodes edges)), adjacencyList_buildMaps.
    destruct (decide (entry ∈ nodeIds nodes)) as [Hin|Hnot]; [|done].
    simpl. unfold targetsFrom.
    destruct (filter (λ e, source e = entry) edges) as [|e f] eqn:Hf; [done|].
    assert (He : e ∈ filter (λ e, source e = entry) edges) by (rewrite Hf; left).
    apply list_elem_of_filter in He as [Hs He]. by destruct (Hout e He Hs). }
  simpl. rewrite Hnb. simpl.
  assert (Hloop : ∀ g d (o : list string), ExecutionEngine.loop fuel g d [] o = Some o)
    by (by destruct fuel).
  rewrite Hloop. simpl. by destruct (decide _).
Qed.

(** ** ExecutionEngine: a run of [executeWorkflow] *)

Lemma omap_nil_iff {A B} (f : A → option B) (l : list A) :
  omap f l = [] ↔ ∀ x, x ∈ l → f x = None.
Proof.
  induction l as [|x l IH]; csimpl.
  - split; [|done]. by intros _ x ?%elem_of_nil.
  - destruct (f x) eqn:Hx.
    + split; [done|]. intros Hall. specialize (Hall x). rewrite Hx in Hall.
      discriminate Hall. left.
    + rewrite IH. split.
      * intros Hall x' [->|?]%elem_of_cons; [done|by apply Hall].
      * intros Hall x' ?. apply Hall. by right.
Qed.

Lemma omap_zip_pointwise {A B C} (F : A * B → option C) (G : A → option C)
    (l : list A) (k : list B) :
  length k = length l →
  (∀ i a b, l !! i = Some a → k !! i = Some b → F (a, b) = G a) →
  omap F (zip l k) = omap G l.
Proof.
  revert k. induction l as [|a l IH]; intros [|b k] Hlen Hall; try done.
  csimpl. rewrite (Hall 0%nat a b) by done.
  rewrite (IH k); [done|by injection Hlen|].
  intros i a' b' Ha Hb. by apply (Hall (S i)).
Qed.

Section WorkflowFacts.
Context {Value : Type}.
Variable now : nat → Z.
Variable dataType : Node → option string.
Variable noData : ExecutionEngine.Thrown.
Variable defaultOutput : Node → list (ExecutionEngine.Any Value) → Value.
Variable noMessageOfNull : ExecutionEngine.Thrown.
Variable noMessageOfUndefined : ExecutionEngine.Thrown.
Variable nodes : list Node.
Variable edges : list Edge.
Import ExecutionEngine.

Local Abbreviation runHandler :=
  (ExecutionEngine.runHandler dataType noData defaultOutput).
Local Abbreviation executeNode :=
  (ExecutionEngine.executeNode now dataType noData defaultOutput
     noMessageOfNull noMessageOfUndefined).
Local Abbreviation runStep :=
  (ExecutionEngine.runStep now dataType noData defaultOutput
     noMessageOfNull noMessageOfUndefined nodes edges).
Local Abbreviation executeWorkflow :=
  (ExecutionEngine.executeWorkflow now dataType noData defaultOutput
     noMessageOfNull noMessageOfUndefined).
Local Abbreviation failure := (failure noMessageOfNull noMessageOfUndefined).

Implicit Types (eng : ExecutionEngine.t Value) (r : NodeResult Value)
  (results seen : gmap string (NodeResult Value))
  (outcome : Any Value + Rejection).

(** The inputs of a node depend on the results of the sources of its
    incoming edges only. *)
Lemma getInputData_frame results1 results2 n (es : list Edge) :
  (∀ e, e ∈ es → target e = n → results1 !! source e = results2 !! source e) →
  getInputData results1 n es = getInputData results2 n es.
Proof.
  intros Hagree. unfold getInputData. f_equal.
  apply list_fmap_ext. intros i e Hi.
  apply list_elem_of_lookup_2, list_elem_of_filter in Hi as [Ht He].
  by rewrite (Hagree e He Ht).
Qed.

Lemma runHandler_handlers eng1 eng2 node inputData :
  handlers eng1 = handlers eng2 →
  runHandler eng1 node inputData = runHandler eng2 node inputData.
Proof. intros Hh. unfold ExecutionEngine.runHandler. by rewrite Hh. Qed.

(** [executeNode] on a node without result leaves one result, under the id
    of the node, which stands for what the handler did; what it throws is
    the entry of the error list. *)
Lemma executeNode_records eng tick node res eng' tick' :
  nodeResults eng !! id node = None →
  executeNode eng tick node edges = (res, eng', tick') →
  let outcome :=
    runHandler eng node
      (getInputData (updateNodeResult (nodeResults eng) (id node) (setStatus Running))
         (id node) edges) in
  handlers eng' = handlers eng
  ∧ (∃ r, nodeResults eng' = <[id node := r]> (nodeResults eng)
          ∧ nodeId r = id node ∧ outcomeRecorded r outcome)
  ∧ failure (id node) outcome
    = match res with
      | inl _ => None
      | inr thrown =>
          Some (mkExecutionError (id node)
                  (orElse (thrownMessage thrown) "Unknown error") (thrownStack thrown))
      end.
Proof.
  intros Hfresh. unfold ExecutionEngine.executeNode. cbv zeta.
  destruct (runHandler eng node _) as [out|[| |thrown]] eqn:Hrun;
    intros [= <- <- <-]; (split; [done|]); (split; [|done]); simpl.
  - eexists. split; [unfold updateNodeResult; apply insert_insert_eq|]. done.
  - eexists. split; [unfold updateNodeResult; by rewrite Hfresh|]. done.
  - eexists. split; [unfold updateNodeResult; by rewrite Hfresh|]. done.
  - eexists. split; [unfold updateNodeResult; apply insert_insert_eq|]. done.
Qed.

(** What holds of the loop when it has gone through the ids [done], with the
    outcomes [outs] of their handlers: every one of them has its result,
    which stands for what its handler did with the inputs read from the
    results of the ids before it; no other id has a result; and the error
    list holds the failures, in order. *)
Definition ranAll eng0 (done : list string) (outs : list (Any Value + Rejection))
    (st : ExecutionEngine.t Value * nat * list ExecutionError) : Prop :=
  handlers st.1.1 = handlers eng0
  ∧ (∀ k, k ∉ done → nodeResults st.1.1 !! k = None)
  ∧ length outs = length done
  ∧ (∀ i n, done !! i = Some n →
       ∃ node r seen,
         findNode nodes n = Some node
         ∧ nodeResults st.1.1 !! n = Some r ∧ nodeId r = n
         ∧ (∀ k, k ≠ n →
                 seen !! k = if decide (k ∈ take i done)
                             then nodeResults st.1.1 !! k else None)
         ∧ outs !! i = Some (runHandler eng0 node (getInputData seen n edges))
         ∧ outcomeRecorded r (runHandler eng0 node (getInputData seen n edges)))
  ∧ st.2 = omap (λ no, failure no.1 no.2) (zip done outs).

Lemma pass_ran eng0 tick order :
  nodeResults eng0 = ∅ → NoDup order →
  (∀ n, n ∈ order → is_Some (findNode nodes n)) →
  ∃ outs, ranAll eng0 order outs (foldl runStep (eng0, tick, []) order).
Proof.
  intros Hempty. induction order as [|n done IH] using rev_ind; intros Hnd Hfound.
  { exists []. split_and!; try done.
    intros k _. simpl. rewrite Hempty. apply lookup_empty. }
  apply NoDup_app in Hnd as (Hnd & Hfresh & _).
  assert (Hn : n ∉ done) by (intros Hin; apply (Hfresh n Hin); left).
  destruct (IH Hnd (λ m Hm, Hfound m (proj2 (elem_of_app _ _ _) (or_introl Hm))))
    as [outs IH'].
  rewrite foldl_app. simpl.
  destruct (foldl runStep (eng0, tick, []) done) as [[eng tick1] errs].
  destruct IH' as (Hh & Hnone & Hlen & Hran & Herrs).
  simpl in Hh, Hnone, Hran, Herrs.
  destruct (Hfound n) as [node Hnode]; [apply elem_of_app; right; left|].
  pose proof (findNode_Some _ _ _ Hnode) as [_ Hid].
  unfold ExecutionEngine.runStep. rewrite Hnode. simpl.
  destruct (executeNode eng tick1 node edges) as [[res eng'] tick'] eqn:Hexec.
  apply executeNode_records in Hexec; [|rewrite Hid; by apply Hnone].
  cbv zeta in Hexec. rewrite Hid in Hexec.
  destruct Hexec as (Hh' & (r & Hres & Hrid & Hout) & Hfail).
  rewrite (runHandler_handlers eng eng0) in Hout, Hfail by done.
  set (seen := updateNodeResult (nodeResults eng) n (setStatus Running)) in *.
  set (o := runHandler eng0 node (getInputData seen n edges)) in *.
  assert (Hkeep : ∀ k, k ∈ done → nodeResults eng' !! k = nodeResults eng !! k).
  { intros k Hk. rewrite Hres, lookup_insert_ne; [done|]. by intros ->. }
  assert (Hnew : nodeResults eng' !! n = Some r)
    by (by rewrite Hres, lookup_insert_eq).
  assert (Hhandlers : handlers eng' = handlers eng0) by congruence.
  assert (Hnone' : ∀ k, k ∉ done ++ [n] → nodeResults eng' !! k = None).
  { intros k Hk. rewrite Hres, lookup_insert_ne.
    - apply Hnone. intros ?. apply Hk, elem_of_app. by left.
    - intros ->. apply Hk, elem_of_app. right. left. }
  assert (Hlen' : length (outs ++ [o]) = length (done ++ [n]))
    by (rewrite !length_app, Hlen; done).
  assert (Hran' : ∀ i m, (done ++ [n]) !! i = Some m →
    ∃ node r seen,
      findNode nodes m = Some node
      ∧ nodeResults eng' !! m = Some r ∧ nodeId r = m
      ∧ (∀ k, k ≠ m →
              seen !! k = if decide (k ∈ take i (done ++ [n]))
                          then nodeResults eng' !! k else None)
      ∧ (outs ++ [o]) !! i = Some (runHandler eng0 node (getInputData seen m edges))
      ∧ outcomeRecorded r (runHandler eng0 node (getInputData seen m edges))).
  { intros i m Hi. apply lookup_app_Some in Hi as [Hi|[Hge Hi]].
    - destruct (Hran i m Hi)
        as (node' & r' & seen' & Hf' & Hr' & Hid' & Hseen & Ho' & Hout').
      exists node', r', seen'. split_and!; try done.
      + rewrite Hkeep; [done|]. by eapply list_elem_of_lookup_2.
      + intros k Hk. rewrite (Hseen k Hk).
        rewrite take_app_le by (apply lookup_lt_Some in Hi; lia).
        destruct (decide (k ∈ take i done)) as [Hin|]; [|done].
        symmetry. apply Hkeep. rewrite <- (take_drop i done).
        apply elem_of_app. by left.
      + by rewrite lookup_app_l by (by apply lookup_lt_is_Some_1).
    - apply list_lookup_singleton_Some in Hi as [Hi <-].
      assert (i = length done) as -> by lia.
      exists node, r, seen. split_and!; try done.
      + intros k Hk. unfold seen, updateNodeResult.
        rewrite lookup_insert_ne by done. rewrite take_app_length.
        destruct (decide (k ∈ done)) as [Hin|Hout'].
        * symmetry. by apply Hkeep.
        * by apply Hnone.
      + rewrite <- Hlen. by rewrite list_lookup_middle. }
  assert (Herrs' : omap (λ no, failure no.1 no.2) (zip (done ++ [n]) (outs ++ [o]))
                   = errs ++ match failure n o with Some err => [err] | None => [] end).
  { rewrite zip_with_app by done. rewrite omap_app, <- Herrs. csimpl.
    by destruct (failure n o). }
  exists (outs ++ [o]).
  destruct res as [ok|thrown]; simpl.
  - split_and!; try done. simpl. rewrite Herrs', Hfail. by rewrite app_nil_r.
  - split_and!; try done. simpl. by rewrite Herrs', Hfail.
Qed.

(** When the order is a topological one, what a node read as its inputs is
    what the results give in the end. *)
Lemma ran_final_inputs eng0 order outs st :
  NoDup order → acyclic edges →
  (∀ e, e ∈ edges → before (source e) (target e) order) →
  ranAll eng0 order outs st →
  (∀ n, n ∈ order →
     ∃ node r,
       findNode nodes n = Some node
       ∧ nodeResults st.1.1 !! n = Some r ∧ nodeId r = n
       ∧ outcomeRecorded r
           (runHandler eng0 node (getInputData (nodeResults st.1.1) n edges)))
  ∧ st.2 = omap (λ nid, findNode nodes nid ≫= λ node,
                   failure nid
                     (runHandler eng0 node (getInputData (nodeResults st.1.1) nid edges)))
             order.
Proof.
  intros Hnd Hac Hord (_ & _ & Hlen & Hran & Herrs).
  assert (Hfinal : ∀ i n, order !! i = Some n →
    ∃ node r,
      findNode nodes n = Some node
      ∧ nodeResults st.1.1 !! n = Some r ∧ nodeId r = n
      ∧ outs !! i
        = Some (runHandler eng0 node (getInputData (nodeResults st.1.1) n edges))
      ∧ outcomeRecorded r
          (runHandler eng0 node (getInputData (nodeResults st.1.1) n edges))).
  { intros i n Hi.
    destruct (Hran i n Hi) as (node & r & seen & Hnode & Hr & Hid & Hseen & Ho & Hout).
    exists node, r.
    assert (Hsame : getInputData seen n edges = getInputData (nodeResults st.1.1) n edges).
    { apply getInputData_frame. intros e He Ht.
      assert (Hne : source e ≠ n).
      { intros Hs. apply (Hac n). apply tc_once. by exists e. }
      rewrite (Hseen _ Hne). rewrite decide_True; [done|].
      pose proof (take_drop_middle order i n Hi) as Hsplit.
      apply (before_in_prefix _ (drop (S i) order) _ n).
      - by rewrite Hsplit.
      - rewrite Hsplit, <- Ht. by apply Hord. }
    rewrite Hsame in Ho, Hout. by split_and!. }
  split.
  - intros n [i Hi]%list_elem_of_lookup_1.
    destruct (Hfinal i n Hi) as (node & r & ? & ? & ? & _ & ?). by exists node, r.
  - rewrite Herrs. apply omap_zip_pointwise; [done|].
    intros i n o Hi Ho.
    destruct (Hfinal i n Hi) as (node & r & Hnode & _ & _ & Ho' & _).
    rewrite Hnode. simpl. congruence.
Qed.

Lemma outcomeRecorded_success r outcome :
  outcomeRecorded r outcome →
  status r = Success ↔ failure (nodeId r) outcome = None.
Proof.
  destruct outcome as [out|[| |thrown]]; intros (Hs & _); simpl;
    rewrite Hs; by split.
Qed.

Lemma outcomeRecorded_null r outcome :
  outcomeRecorded r outcome → status r ≠ Success → output r = Null.
Proof.
  destruct outcome as [out|[| |thrown]]; intros (Hs & Ho & _) Hne; done.
Qed.

(** On an acyclic graph with distinct ids whose edges join nodes, a run
    without entry node goes through all the ids in a topological order. *)
Lemma workflow_run fuel eng tick :
  NoDup (nodeIds nodes) → endpointsIn nodes edges → acyclic edges →
  (length nodes ≤ fuel)%nat →
  ∃ order outs st,
    ExecutionEngine.getExecutionOrder fuel nodes edges None = Some (inl order)
    ∧ order ≡ₚ nodeIds nodes
    ∧ (∀ e, e ∈ edges → before (source e) (target e) order)
    ∧ executeWorkflow fuel eng tick nodes edges None
      = Some (mkExecutionResult (bool_decide (length st.2 = 0%nat))
                (nodeResults st.1.1) st.2 (now st.1.2 - now tick),
              st.1.1, S st.1.2)
    ∧ ranAll (ExecutionEngine.mk (handlers eng) ∅) order outs st.
Proof.
  intros Hnd Hwf Hac Hfuel.
  destruct (sort_all_nodes nodes edges Hnd Hwf Hac)
    as (sorted & Hsort & Hperm & Hp & Hord).
  pose proof (engine_sort fuel nodes edges sorted Hwf Hfuel Hsort) as Heng.
  rewrite decide_False in Heng
    by (apply Permutation_length in Hperm; rewrite length_fmap in Hperm; lia).
  set (order := TopologicalSort.getExecutionOrder sorted) in *.
  destruct (pass_ran (ExecutionEngine.mk (handlers eng) ∅) (S tick) order)
    as [outs Hran]; [done|by rewrite Hp| |].
  { intros n Hn. apply findNode_is_Some. by rewrite <- Hp. }
  exists order, outs,
    (foldl runStep (ExecutionEngine.mk (handlers eng) ∅, S tick, []) order).
  split_and!; try done.
  unfold ExecutionEngine.executeWorkflow. by rewrite Heng.
Qed.

(** A run on an acyclic graph with distinct ids whose edges join nodes
    returns, and leaves for every node a result that stands for the outcome
    of its handler (or of the default) on the inputs that the returned
    results give for it, the outputs recorded for the sources of its
    incoming edges in the order of the edges: success with the output;
    failure with [null] and the message when the handler threw; and a result
    still running when the handler rejected with [null] or [undefined].  No
    other id has a result, the handlers are as before, and the returned map
    is the map of the engine. *)
Theorem executeWorkflow_dataflow fuel eng tick :
  NoDup (nodeIds nodes) → endpointsIn nodes edges → acyclic edges →
  (length nodes ≤ fuel)%nat →
  ∃ res eng' tick',
    executeWorkflow fuel eng tick nodes edges None = Some (res, eng', tick')
    ∧ nodeResults eng' = returnedResults res
    ∧ handlers eng' = handlers eng
    ∧ (∀ n, n ∈ nodes →
         ∃ r, returnedResults res !! id n = Some r ∧ nodeId r = id n
              ∧ outcomeRecorded r
                  (runHandler eng n
                     (getInputData (returnedResults res) (id n) edges)))
    ∧ (∀ k, k ∉ nodeIds nodes → returnedResults res !! k = None).
Proof.
  intros Hnd Hwf Hac Hfuel.
  destruct (workflow_run fuel eng tick Hnd Hwf Hac Hfuel)
    as (order & outs & st & _ & Hperm & Hord & Hrun & Hran).
  eexists _, _, _. split; [exact Hrun|]. simpl.
  pose proof Hran as (Hh & Hnone & _ & _).
  assert (Hndo : NoDup order) by (by rewrite Hperm).
  destruct (ran_final_inputs _ order outs st Hndo Hac Hord Hran) as [Hfinal _].
  split_and!; try done.
  - intros n Hn.
    destruct (Hfinal (id n)) as (node & r & Hnode & Hr & Hid & Hout).
    { rewrite Hperm. unfold nodeIds. by apply list_elem_of_fmap_2. }
    rewrite (findNode_NoDup nodes n Hnd Hn) in Hnode. injection Hnode as <-.
    by exists r.
  - intros k Hk. apply Hnone. by rewrite Hperm.
Qed.

(** The run does not stop at a failure: the error list holds, in the order
    of execution, one entry for every node whose handler throws or rejects
    on the inputs that the returned results give for it, with the id of the
    node and the message and stack of what was raised ([Unknown error]
    without message; the [TypeError] of the engine when the handler rejected
    with [null] or [undefined]); and the run reports success exactly when
    the list is empty, which is when every node has a successful result. *)
Theorem executeWorkflow_collects_failures fuel eng tick :
  NoDup (nodeIds nodes) → endpointsIn nodes edges → acyclic edges →
  (length nodes ≤ fuel)%nat →
  ∃ order res eng' tick',
    ExecutionEngine.getExecutionOrder fuel nodes edges None = Some (inl order)
    ∧ executeWorkflow fuel eng tick nodes edges None = Some (res, eng', tick')
    ∧ errors res
      = omap (λ nid, findNode nodes nid ≫= λ node,
                failure nid
                  (runHandler eng node (getInputData (returnedResults res) nid edges)))
          order
    ∧ (success res = true ↔ errors res = [])
    ∧ (success res = true
       ↔ ∀ n, n ∈ nodes →
              ∃ r, returnedResults res !! id n = Some r ∧ status r = Success).
Proof.
  intros Hnd Hwf Hac Hfuel.
  destruct (workflow_run fuel eng tick Hnd Hwf Hac Hfuel)
    as (order & outs & st & Horder & Hperm & Hord & Hrun & Hran).
  eexists order, _, _, _. split; [exact Horder|]. split; [exact Hrun|]. simpl.
  assert (Hndo : NoDup order) by (by rewrite Hperm).
  destruct (ran_final_inputs _ order outs st Hndo Hac Hord Hran) as [Hfinal Herrs].
  assert (Hnil : bool_decide (length st.2 = 0%nat) = true ↔ st.2 = []).
  { rewrite bool_decide_eq_true. apply length_zero_iff_nil. }
  split_and!; [done|done|].
  rewrite Hnil. rewrite Herrs at 1. rewrite omap_nil_iff.
  assert (Hin : ∀ n, n ∈ nodes → id n ∈ order).
  { intros n Hn. rewrite Hperm. unfold nodeIds. by apply list_elem_of_fmap_2. }
  split.
  - intros Hall n Hn.
    destruct (Hfinal (id n) (Hin n Hn)) as (node & r & Hnode & Hr & Hid & Hout).
    exists r. split; [done|].
    apply (outcomeRecorded_success _ _ Hout).
    specialize (Hall (id n) (Hin n Hn)). rewrite Hnode in Hall. simpl in Hall.
    by rewrite Hid.
  - intros Hall k Hk. rewrite Hperm in Hk.
    apply list_elem_of_fmap in Hk as (n & -> & Hn).
    destruct (Hfinal (id n) (Hin n Hn)) as (node & r & Hnode & Hr & Hid & Hout).
    destruct (Hall n Hn) as (r' & Hr' & Hs).
    rewrite Hr in Hr'. injection Hr' as <-.
    rewrite Hnode. simpl.
    apply (outcomeRecorded_success _ _ Hout) in Hs. by rewrite Hid in Hs.
Qed.

(** A node fed by a node that did not succeed is not skipped, and what it
    is handed for that edge is [null]. *)
Theorem executeWorkflow_failed_source fuel eng tick :
  NoDup (nodeIds nodes) → endpointsIn nodes edges → acyclic edges →
  (length nodes ≤ fuel)%nat →
  ∃ res eng' tick',
    executeWorkflow fuel eng tick nodes edges None = Some (res, eng', tick')
    ∧ ∀ e r, e ∈ edges →
        returnedResults res !! source e = Some r → status r ≠ Success →
        Null ∈ getInputData (returnedResults res) (target e) edges
        ∧ ∃ node rt,
            findNode nodes (target e) = Some node
            ∧ returnedResults res !! target e = Some rt
            ∧ outcomeRecorded rt
                (runHandler eng node
                   (getInputData (returnedResults res) (target e) edges)).
Proof.
  intros Hnd Hwf Hac Hfuel.
  destruct (workflow_run fuel eng tick Hnd Hwf Hac Hfuel)
    as (order & outs & st & _ & Hperm & Hord & Hrun & Hran).
  eexists _, _, _. split; [exact Hrun|]. simpl.
  assert (Hndo : NoDup order) by (by rewrite Hperm).
  destruct (ran_final_inputs _ order outs st Hndo Hac Hord Hran) as [Hfinal _].
  intros e r He Hr Hf. destruct (Hwf e He) as [Hs Ht]. split.
  - destruct (Hfinal (source e)) as (node & r' & _ & Hr' & _ & Hout);
      [by rewrite Hperm|].
    rewrite Hr in Hr'. injection Hr' as <-.
    pose proof (outcomeRecorded_null _ _ Hout Hf) as Hnull.
    unfold getInputData. apply list_elem_of_filter. split; [done|].
    apply list_elem_of_fmap. exists e. split.
    + by rewrite Hr, Hnull.
    + by apply list_elem_of_filter.
  - destruct (Hfinal (target e)) as (node & rt & Hnode & Hrt & _ & Hout);
      [by rewrite Hperm|].
    by exists node, rt.
Qed.

(** On a graph with a cycle (edges joining nodes), a run without entry node
    runs no node: it returns failure with the one error of the scheduler,
    under the id [system], and the results, those of an earlier run
    included, are gone. *)
Theorem executeWorkflow_cycle fuel eng tick :
  endpointsIn nodes edges → cyclic edges → (length nodes ≤ fuel)%nat →
  executeWorkflow fuel eng tick nodes edges None
  = Some (mkExecutionResult false ∅
            [mkExecutionError "system" "Cycle detected in workflow graph" None]
            (now (S tick) - now tick),
          ExecutionEngine.mk (handlers eng) ∅, S (S tick)).
Proof.
  intros Hwf Hcyc Hfuel. unfold ExecutionEngine.executeWorkflow.
  by rewrite (engine_rejects_cycle nodes edges Hwf fuel Hcyc Hfuel).
Qed.

End WorkflowFacts.

(** ** Further scenarios, checked *)

(** Of two edges into [C] with the same target handle the later one gives
    the value. *)
Lemma last_wins_fan_in :
  target (Scenario.edgeInto "B" "C" "in") = "C"
  ∧ contributes Scenario.fanIn (Scenario.edgeInto "B" "C" "in") "y"
  ∧ (∀ e' v', e' ∈ [] → target e' = "C" → contributes Scenario.fanIn e' v' →
              ExecutionContext.inputKey e'
              ≠ ExecutionContext.inputKey (Scenario.edgeInto "B" "C" "in"))
  ∧ ExecutionContext.getNodeInputs Scenario.fanIn "C"
      ([Scenario.edgeInto "A" "C" "in"] ++ Scenario.edgeInto "B" "C" "in" :: [])
    !! ExecutionContext.inputKey (Scenario.edgeInto "B" "C" "in") = Some "y".
Proof.
  assert (H1 : target (Scenario.edgeInto "B" "C" "in") = "C") by reflexivity.
  assert (H2 : contributes Scenario.fanIn (Scenario.edgeInto "B" "C" "in") "y").
  { eexists. split_and!; [by vm_compute|done..]. }
  assert (H3 : ∀ e' v', e' ∈ [] → target e' = "C" → contributes Scenario.fanIn e' v' →
                        ExecutionContext.inputKey e'
                        ≠ ExecutionContext.inputKey (Scenario.edgeInto "B" "C" "in")).
  { by intros e' v' ?%elem_of_nil. }
  refine (conj H1 (conj H2 (conj H3 _))).
  exact (getNodeInputs_last_wins Scenario.fanIn "C" [Scenario.edgeInto "A" "C" "in"]
           (Scenario.edgeInto "B" "C" "in") [] "y" H1 H2 H3).
Defined.

(** The path reported for the cycle with a lead-in. *)
Lemma lasso_reported :
  GraphValidator.detectCycles
    (GraphValidator.mkGraph None Scenario.lassoNodes Scenario.lassoEdges)
  = Some (GraphValidator.mkCycleResult true (Some ["A"; "B"; "C"; "B"]))
  ∧ GraphValidator.hasCycle
      (GraphValidator.mkCycleResult true (Some ["A"; "B"; "C"; "B"])) = true
  ∧ ∃ lead x mid,
      GraphValidator.cycle
        (GraphValidator.mkCycleResult true (Some ["A"; "B"; "C"; "B"]))
      = Some (lead ++ x :: mid ++ [x])
      ∧ NoDup (lead ++ x :: mid)
      ∧ linked Scenario.lassoEdges (lead ++ x :: mid ++ [x])
      ∧ closedPath Scenario.lassoEdges (x :: mid ++ [x])
      ∧ cyclic Scenario.lassoEdges.
Proof.
  assert (H1 : GraphValidator.detectCycles
                 (GraphValidator.mkGraph None Scenario.lassoNodes Scenario.lassoEdges)
               = Some (GraphValidator.mkCycleResult true (Some ["A"; "B"; "C"; "B"])))
    by (by vm_compute).
  refine (conj H1 (conj eq_refl _)).
  exact (detectCycles_reports_lasso _ _ H1 eq_refl).
Defined.

Lemma lasso_decided :
  endpointsIn Scenario.lassoNodes Scenario.lassoEdges
  ∧ ∃ r, GraphValidator.detectCycles
           (GraphValidator.mkGraph None Scenario.lassoNodes Scenario.lassoEdges)
         = Some r
         ∧ (GraphValidator.hasCycle r = true ↔ cyclic Scenario.lassoEdges).
Proof.
  assert (H1 : endpointsIn Scenario.lassoNodes Scenario.lassoEdges).
  { unfold endpointsIn. apply Forall_forall. compute_done. }
  refine (conj H1 _).
  exact (detectCycles_decides None Scenario.lassoNodes Scenario.lassoEdges H1).
Defined.

(** Scenario C has no source node, and does not pass validation. *)
Lemma no_source_scenario_C :
  GraphValidator.validateGraph
    (GraphValidator.mkGraph None Scenario.nodesC Scenario.edgesC)
  = Some Scenario.validationC
  ∧ "No source nodes found - graph may not execute properly"
    ∈ GraphValidator.warnings Scenario.validationC
  ∧ GraphValidator.valid Scenario.validationC = false.
Proof.
  assert (H1 : GraphValidator.validateGraph
                 (GraphValidator.mkGraph None Scenario.nodesC Scenario.edgesC)
               = Some Scenario.validationC) by (by vm_compute).
  assert (H2 : "No source nodes found - graph may not execute properly"
               ∈ GraphValidator.warnings Scenario.validationC) by left.
  refine (conj H1 (conj H2 _)).
  exact (no_source_warning_invalid None Scenario.nodesC Scenario.edgesC
           Scenario.validationC H1 H2).
Defined.

(** The levels of scenario B: [A] and [B] at level 0, [C] at level 1. *)
Lemma levels_scenario_B :
  endpointsIn Scenario.nodesB Scenario.edgesB
  ∧ TopologicalSort.sort Scenario.nodesB Scenario.edgesB = Some Scenario.sortedB
  ∧ (StronglySorted
       (λ a b, TopologicalSort.level a ≤ TopologicalSort.level b)%nat Scenario.sortedB
     ∧ (∀ sn e, sn ∈ Scenario.sortedB → e ∈ Scenario.edgesB →
                target e = id (TopologicalSort.node sn) →
                ∃ sn', sn' ∈ Scenario.sortedB
                       ∧ id (TopologicalSort.node sn') = source e
                       ∧ (TopologicalSort.level sn' < TopologicalSort.level sn)%nat)
     ∧ (∀ sn, sn ∈ Scenario.sortedB →
              TopologicalSort.level sn = 0%nat
              ↔ ∀ e, e ∈ Scenario.edgesB → target e ≠ id (TopologicalSort.node sn))
     ∧ (∀ sn, sn ∈ Scenario.sortedB → TopologicalSort.level sn ≠ 0%nat →
              ∃ e sn', e ∈ Scenario.edgesB ∧ target e = id (TopologicalSort.node sn)
                       ∧ sn' ∈ Scenario.sortedB
                       ∧ id (TopologicalSort.node sn') = source e
                       ∧ TopologicalSort.level sn = S (TopologicalSort.level sn'))).
Proof.
  assert (H1 : endpointsIn Scenario.nodesB Scenario.edgesB).
  { unfold endpointsIn. apply Forall_forall. compute_done. }
  assert (H2 : TopologicalSort.sort Scenario.nodesB Scenario.edgesB
               = Some Scenario.sortedB) by (by vm_compute).
  refine (conj H1 (conj H2 _)).
  exact (sort_levels Scenario.nodesB Scenario.edgesB Scenario.sortedB H1 H2).
Defined.

Lemma groups_scenario_B :
  endpointsIn Scenario.nodesB Scenario.edgesB
  ∧ TopologicalSort.sort Scenario.nodesB Scenario.edgesB = Some Scenario.sortedB
  ∧ (StronglySorted lt (TopologicalSort.groupByLevel Scenario.sortedB).*1
     ∧ ∀ l ns n e,
         (l, ns) ∈ TopologicalSort.groupByLevel Scenario.sortedB → n ∈ ns →
         e ∈ Scenario.edgesB → target e = id n →
         ∃ l' ns' n', (l', ns') ∈ TopologicalSort.groupByLevel Scenario.sortedB
                      ∧ n' ∈ ns' ∧ id n' = source e ∧ (l' < l)%nat).
Proof.
  assert (H1 : endpointsIn Scenario.nodesB Scenario.edgesB).
  { unfold endpointsIn. apply Forall_forall. compute_done. }
  assert (H2 : TopologicalSort.sort Scenario.nodesB Scenario.edgesB
               = Some Scenario.sortedB) by (by vm_compute).
  refine (conj H1 (conj H2 _)).
  exact (groupByLevel_of_sort Scenario.nodesB Scenario.edgesB Scenario.sortedB H1 H2).
Defined.

(** Scenario A passes validation, and [sort] returns both nodes. *)
Lemma validated_scenario_A :
  GraphValidator.validateGraph
    (GraphValidator.mkGraph None Scenario.nodesA Scenario.edgesA)
  = Some Scenario.validationA
  ∧ GraphValidator.valid Scenario.validationA = true
  ∧ ∃ sorted,
      TopologicalSort.sort Scenario.nodesA Scenario.edgesA = Some sorted
      ∧ TopologicalSort.node <$> sorted ≡ₚ Scenario.nodesA
      ∧ TopologicalSort.getExecutionOrder sorted ≡ₚ nodeIds Scenario.nodesA
      ∧ ∀ e, e ∈ Scenario.edgesA →
             before (source e) (target e) (TopologicalSort.getExecutionOrder sorted).
Proof.
  assert (H1 : GraphValidator.validateGraph
                 (GraphValidator.mkGraph None Scenario.nodesA Scenario.edgesA)
               = Some Scenario.validationA) by (by vm_compute).
  refine (conj H1 (conj eq_refl _)).
  exact (validated_graph_sorts None Scenario.nodesA Scenario.edgesA
           Scenario.validationA H1 eq_refl).
Defined.

(** The two schedulers on scenario C and on scenario B; an entry id that is
    no node. *)
Lemma engine_agrees_scenario_C :
  endpointsIn Scenario.nodesC Scenario.edgesC
  ∧ (length Scenario.nodesC ≤ 2)%nat
  ∧ ∃ sorted,
      TopologicalSort.sort Scenario.nodesC Scenario.edgesC = Some sorted
      ∧ ExecutionEngine.getExecutionOrder 2 Scenario.nodesC Scenario.edgesC None
        = Some (if decide (length sorted < length Scenario.nodesC)%nat
                then inr ExecutionEngine.cycleError
                else inl (TopologicalSort.getExecutionOrder sorted)).
Proof.
  assert (H1 : endpointsIn Scenario.nodesC Scenario.edgesC).
  { unfold endpointsIn. apply Forall_forall. compute_done. }
  assert (H2 : (length Scenario.nodesC ≤ 2)%nat) by (simpl; lia).
  refine (conj H1 (conj H2 _)).
  exact (engine_agrees_with_sort 2 Scenario.nodesC Scenario.edgesC H1 H2).
Defined.

Lemma engine_scenario_B :
  NoDup (nodeIds Scenario.nodesB)
  ∧ endpointsIn Scenario.nodesB Scenario.edgesB
  ∧ acyclic Scenario.edgesB
  ∧ (length Scenario.nodesB ≤ 3)%nat
  ∧ ∃ order,
      ExecutionEngine.getExecutionOrder 3 Scenario.nodesB Scenario.edgesB None
      = Some (inl order)
      ∧ order ≡ₚ nodeIds Scenario.nodesB
      ∧ ∀ e, e ∈ Scenario.edgesB → before (source e) (target e) order.
Proof.
  assert (H1 : NoDup (nodeIds Scenario.nodesB)) by compute_done.
  assert (H2 : endpointsIn Scenario.nodesB Scenario.edgesB).
  { unfold endpointsIn. apply Forall_forall. compute_done. }
  assert (H3 : acyclic Scenario.edgesB).
  { apply (ranked_acyclic _ Scenario.rankB), Forall_forall. compute_done. }
  assert (H4 : (length Scenario.nodesB ≤ 3)%nat) by (simpl; lia).
  refine (conj H1 (conj H2 (conj H3 (conj H4 _)))).
  exact (engine_order_acyclic 3 Scenario.nodesB Scenario.edgesB H1 H2 H3 H4).
Defined.

Lemma engine_unknown_entry :
  "Z" ≠ EmptyString
  ∧ (∀ e, e ∈ [] → source e = "Z" → "Z" ∉ nodeIds Scenario.nodesD)
  ∧ ExecutionEngine.getExecutionOrder 1 Scenario.nodesD [] (Some "Z")
    = Some (if decide (1 < length Scenario.nodesD)%nat
            then inr ExecutionEngine.cycleError
            else inl ["Z"]).
Proof.
  assert (H1 : "Z" ≠ EmptyString) by done.
  assert (H2 : ∀ e : Edge, e ∈ [] → source e = "Z" → "Z" ∉ nodeIds Scenario.nodesD)
    by (by intros e ?%elem_of_nil).
  refine (conj H1 (conj H2 _)).
  exact (engine_entry_without_successor 0 Scenario.nodesD [] "Z" H1 H2).
Defined.

(** The workflow of [ExecutionEngine]: [B] fails, [C] still runs and is
    handed the output of [A] and [null]. *)
Lemma workflow_scenario :
  Scenario.runWorkflow Scenario.workflowNodes Scenario.edgesB
  = Some (ExecutionEngine.mkExecutionResult false Scenario.workflowResults
            [ExecutionEngine.mkExecutionError "B" "boom" None] 0,
          ExecutionEngine.mk (ExecutionEngine.handlers Scenario.engine)
            Scenario.workflowResults,
          8%nat).
Proof. by vm_compute. Qed.

(** A single node whose handler rejects with [null]: its result stays
    running, and the error list has the [TypeError] for it. *)
Lemma workflow_null_rejection :
  Scenario.runWorkflow [Scenario.dataNode "N" "nuller"] []
  = Some (ExecutionEngine.mkExecutionResult false
            {[ "N" := ExecutionEngine.mkNodeResult "N" ExecutionEngine.Running
                        ExecutionEngine.Null None 0 ]}
            [ExecutionEngine.mkExecutionError "N"
               "Cannot read properties of null (reading 'message')" None] 0,
          ExecutionEngine.mk (ExecutionEngine.handlers Scenario.engine)
            {[ "N" := ExecutionEngine.mkNodeResult "N" ExecutionEngine.Running
                        ExecutionEngine.Null None 0 ]},
          3%nat).
Proof. by vm_compute. Qed.

Lemma dataflow_workflow :
  NoDup (nodeIds Scenario.workflowNodes)
  ∧ endpointsIn Scenario.workflowNodes Scenario.edgesB
  ∧ acyclic Scenario.edgesB
  ∧ (length Scenario.workflowNodes ≤ 3)%nat
  ∧ ∃ res eng' tick',
      ExecutionEngine.executeWorkflow (λ _, 0) type Scenario.typeError
        Scenario.withInputs Scenario.messageOfNull Scenario.messageOfUndefined
        3 Scenario.engine 0 Scenario.workflowNodes Scenario.edgesB None
      = Some (res, eng', tick')
      ∧ ExecutionEngine.nodeResults eng' = ExecutionEngine.returnedResults res
      ∧ ExecutionEngine.handlers eng' = ExecutionEngine.handlers Scenario.engine
      ∧ (∀ n, n ∈ Scenario.workflowNodes →
           ∃ r, ExecutionEngine.returnedResults res !! id n = Some r
                ∧ ExecutionEngine.nodeId r = id n
                ∧ outcomeRecorded r
                    (ExecutionEngine.runHandler type Scenario.typeError
                       Scenario.withInputs Scenario.engine n
                       (ExecutionEngine.getInputData
                          (ExecutionEngine.returnedResults res) (id n)
                          Scenario.edgesB)))
      ∧ (∀ k, k ∉ nodeIds Scenario.workflowNodes →
              ExecutionEngine.returnedResults res !! k = None).
Proof.
  assert (H1 : NoDup (nodeIds Scenario.workflowNodes)) by compute_done.
  assert (H2 : endpointsIn Scenario.workflowNodes Scenario.edgesB).
  { unfold endpointsIn. apply Forall_forall. compute_done. }
  assert (H3 : acyclic Scenario.edgesB).
  { apply (ranked_acyclic _ Scenario.rankB), Forall_forall. compute_done. }
  assert (H4 : (length Scenario.workflowNodes ≤ 3)%nat) by (simpl; lia).
  refine (conj H1 (conj H2 (conj H3 (conj H4 _)))).
  exact (executeWorkflow_dataflow (λ _, 0) type Scenario.typeError
           Scenario.withInputs Scenario.messageOfNull Scenario.messageOfUndefined
           Scenario.workflowNodes Scenario.edgesB 3 Scenario.engine 0 H1 H2 H3 H4).
Defined.

Lemma failures_workflow :
  NoDup (nodeIds Scenario.workflowNodes)
  ∧ endpointsIn Scenario.workflowNodes Scenario.edgesB
  ∧ acyclic Scenario.edgesB
  ∧ (length Scenario.workflowNodes ≤ 3)%nat
  ∧ ∃ order res eng' tick',
      ExecutionEngine.getExecutionOrder 3 Scenario.workflowNodes Scenario.edgesB None
      = Some (inl order)
      ∧ ExecutionEngine.executeWorkflow (λ _, 0) type Scenario.typeError
        Scenario.withInputs Scenario.messageOfNull Scenario.messageOfUndefined
        3 Scenario.engine 0 Scenario.workflowNodes Scenario.edgesB None
        = Some (res, eng', tick')
      ∧ ExecutionEngine.errors res
        = omap (λ nid, findNode Scenario.workflowNodes nid ≫= λ node,
                  failure Scenario.messageOfNull Scenario.messageOfUndefined nid
                    (ExecutionEngine.runHandler type Scenario.typeError
                       Scenario.withInputs Scenario.engine node
                       (ExecutionEngine.getInputData
                          (ExecutionEngine.returnedResults res) nid Scenario.edgesB)))
            order
      ∧ (ExecutionEngine.success res = true ↔ ExecutionEngine.errors res = [])
      ∧ (ExecutionEngine.success res = true
         ↔ ∀ n, n ∈ Scenario.workflowNodes →
                ∃ r, ExecutionEngine.returnedResults res !! id n = Some r
                     ∧ ExecutionEngine.status r = ExecutionEngine.Success).
Proof.
  assert (H1 : NoDup (nodeIds Scenario.workflowNodes)) by compute_done.
  assert (H2 : endpointsIn Scenario.workflowNodes Scenario.edgesB).
  { unfold endpointsIn. apply Forall_forall. compute_done. }
  assert (H3 : acyclic Scenario.edgesB).
  { apply (ranked_acyclic _ Scenario.rankB), Forall_forall. compute_done. }
  assert (H4 : (length Scenario.workflowNodes ≤ 3)%nat) by (simpl; lia).
  refine (conj H1 (conj H2 (conj H3 (conj H4 _)))).
  exact (executeWorkflow_collects_failures (λ _, 0) type Scenario.typeError
           Scenario.withInputs Scenario.messageOfNull Scenario.messageOfUndefined
           Scenario.workflowNodes Scenario.edgesB 3 Scenario.engine 0 H1 H2 H3 H4).
Defined.

Lemma failed_source_workflow :
  NoDup (nodeIds Scenario.workflowNodes)
  ∧ endpointsIn Scenario.workflowNodes Scenario.edgesB
  ∧ acyclic Scenario.edgesB
  ∧ (length Scenario.workflowNodes ≤ 3)%nat
  ∧ ∃ res eng' tick',
      ExecutionEngine.executeWorkflow (λ _, 0) type Scenario.typeError
        Scenario.withInputs Scenario.messageOfNull Scenario.messageOfUndefined
        3 Scenario.engine 0 Scenario.workflowNodes Scenario.edgesB None
      = Some (res, eng', tick')
      ∧ ∀ e r, e ∈ Scenario.edgesB →
          ExecutionEngine.returnedResults res !! source e = Some r →
          ExecutionEngine.status r ≠ ExecutionEngine.Success →
          ExecutionEngine.Null
          ∈ ExecutionEngine.getInputData (ExecutionEngine.returnedResults res)
              (target e) Scenario.edgesB
          ∧ ∃ node rt,
              findNode Scenario.workflowNodes (target e) = Some node
              ∧ ExecutionEngine.returnedResults res !! target e = Some rt
              ∧ outcomeRecorded rt
                  (ExecutionEngine.runHandler type Scenario.typeError
                     Scenario.withInputs Scenario.engine node
                     (ExecutionEngine.getInputData
                        (ExecutionEngine.returnedResults res) (target e)
                        Scenario.edgesB)).
Proof.
  assert (H1 : NoDup (nodeIds Scenario.workflowNodes)) by compute_done.
  assert (H2 : endpointsIn Scenario.workflowNodes Scenario.edgesB).
  { unfold endpointsIn. apply Forall_forall. compute_done. }
  assert (H3 : acyclic Scenario.edgesB).
  { apply (ranked_acyclic _ Scenario.rankB), Forall_forall. compute_done. }
  assert (H4 : (length Scenario.workflowNodes ≤ 3)%nat) by (simpl; lia).
  refine (conj H1 (conj H2 (conj H3 (conj H4 _)))).
  exact (executeWorkflow_failed_source (λ _, 0) type Scenario.typeError
           Scenario.withInputs Scenario.messageOfNull Scenario.messageOfUndefined
           Scenario.workflowNodes Scenario.edgesB 3 Scenario.engine 0 H1 H2 H3 H4).
Defined.

(** Scenario C in the workflow engine. *)
Lemma cycle_workflow :
  endpointsIn Scenario.nodesC Scenario.edgesC
  ∧ cyclic Scenario.edgesC
  ∧ (length Scenario.nodesC ≤ 2)%nat
  ∧ ExecutionEngine.executeWorkflow (λ _, 0) type Scenario.typeError
      Scenario.withInputs Scenario.messageOfNull Scenario.messageOfUndefined
      2 Scenario.engine 0 Scenario.nodesC Scenario.edgesC None
    = Some (ExecutionEngine.mkExecutionResult false ∅
              [ExecutionEngine.mkExecutionError "system"
                 "Cycle detected in workflow graph" None]
              ((λ _, 0) 1%nat - (λ _, 0) 0%nat),
            ExecutionEngine.mk (ExecutionEngine.handlers Scenario.engine) ∅, 2%nat).
Proof.
  assert (H1 : endpointsIn Scenario.nodesC Scenario.edgesC).
  { unfold endpointsIn. apply Forall_forall. compute_done. }
  assert (H2 : cyclic Scenario.edgesC).
  { exists "A". eapply tc_l; [|apply tc_once].
    - exists (Scenario.edge "A" "B"). split_and!; [left|done|done].
    - exists (Scenario.edge "B" "A"). split_and!; [right; left|done|done]. }
  assert (H3 : (length Scenario.nodesC ≤ 2)%nat) by (simpl; lia).
  refine (conj H1 (conj H2 (conj H3 _))).
  exact (executeWorkflow_cycle (λ _, 0) type Scenario.typeError
           Scenario.withInputs Scenario.messageOfNull Scenario.messageOfUndefined
           Scenario.nodesC Scenario.edgesC 2 Scenario.engine 0 H1 H2 H3).
Defined.
